(** * primer-of-primes: the factorization worker (src/worker.js)

    A shallow embedding of the worker's factorization engine and the
    properties of its specification.

    Conventions of the embedding.
    - A JavaScript BigInt is a [Z].  BigInt [%] and [/] truncate towards
      zero, so they are [Z.rem] and [Z.quot]; both raise a RangeError on a
      zero divisor.
    - [Math.random] is an external source.  The only use the worker makes of
      it is [Math.floor(Math.random() * Number.MAX_SAFE_INTEGER)], so the
      source is modelled by the sequence of these integers, [rnd : nat -> Z],
      and the state threaded through the program is the number of values
      consumed so far.
    - A [while] loop whose number of iterations is not fixed on entry is a
      [Fixpoint] on a [fuel : nat] that bounds its iterations; running out
      of fuel is the result [Timeout].  The loop condition is tested before
      the fuel, so a loop that exits at once needs no fuel.
    - The call stack of the engine is finite.  The only recursion of the
      worker is the retry [return pollardRho(n)], a nested call (the worker
      is not strict-mode code, so the call is not eliminated): [depth] is
      the number of nested retries the stack has room for, and one retry
      more raises the error [StackOverflow].  The calls made during a walk
      return before the next retry and are taken to fit on the stack.
    - The memory of the engine is bounded where the worker allocates its
      table: [new Uint8Array(n)] raises for a length above [max_length].
    - A JavaScript object is the list of its own properties in creation
      order. *)

From Stdlib Require Import ZArith List Lia Bool String Ascii FMapPositive Sorted
  Permutation.
From Stdlib Require Import Zmod.ZmodInv.
Import ListNotations.

#[local] Open Scope Z_scope.

(** ** Results and the state monad of the worker *)

(** [RangeError]: a BigInt division by zero, or a table that cannot be
    allocated.  [SyntaxError]: a string that [BigInt] rejects.
    [StackOverflow]: what the engine raises when its call stack is exhausted
    (for V8 an error of class RangeError too, with the message "Maximum call
    stack size exceeded"). *)
Inductive error : Type :=
| RangeError
| SyntaxError
| StackOverflow.

Inductive result (A : Type) : Type :=
| Ret (a : A)
| Throw (e : error)
| Timeout.

Arguments Ret {A} a.
Arguments Throw {A} e.
Arguments Timeout {A}.

Definition rbind {A B : Type} (r : result A) (k : A -> result B) : result B :=
  match r with
  | Ret a => k a
  | Throw e => Throw e
  | Timeout => Timeout
  end.

(** The random source, and computations that consume it. *)
Definition source : Type := nat -> Z.

Definition M (A : Type) : Type := nat -> result (A * nat).

Definition ret {A : Type} (a : A) : M A := fun s => Ret (a, s).

Definition bind {A B : Type} (m : M A) (k : A -> M B) : M B :=
  fun s =>
    match m s with
    | Ret (a, s') => k a s'
    | Throw e => Throw e
    | Timeout => Timeout
    end.

Definition lift {A : Type} (r : result A) : M A :=
  fun s => rbind r (fun a => Ret (a, s)).

Definition timeout {A : Type} : M A := fun _ => Timeout.

Definition throw {A : Type} (e : error) : M A := fun _ => Throw e.

Declare Scope worker_scope.
Delimit Scope worker_scope with worker.

Notation "x <- m ;; k" := (bind m (fun x => k))
  (at level 61, m at next level, right associativity) : worker_scope.
Notation "' p <- m ;; k" := (bind m (fun p => k))
  (at level 61, p pattern, m at next level, right associativity) : worker_scope.

#[local] Open Scope worker_scope.

(** ** BigInt division *)

Definition js_rem (a b : Z) : result Z :=
  if b =? 0 then Throw RangeError else Ret (Z.rem a b).

Definition js_div (a b : Z) : result Z :=
  if b =? 0 then Throw RangeError else Ret (Z.quot a b).

(** ** Numeric primitives *)

(** [gcd]: the divisor [b] of [a % b] is positive inside the loop. *)
Fixpoint gcd (fuel : nat) (a b : Z) : result Z :=
  if 0 <? b then
    match fuel with
    | O => Timeout
    | S fuel' => gcd fuel' b (Z.rem a b)
    end
  else Ret a.

(** The loop of [modPow].  It runs after [base %= mod] has succeeded, so
    the modulus is not zero and its remainders cannot raise. *)
Fixpoint modPow_loop (fuel : nat) (res base exp modulus : Z) : result Z :=
  if 0 <? exp then
    match fuel with
    | O => Timeout
    | S fuel' =>
        let res := if Z.rem exp 2 =? 1 then Z.rem (res * base) modulus else res in
        let base := Z.rem (base * base) modulus in
        modPow_loop fuel' res base (Z.quot exp 2) modulus
    end
  else Ret res.

Definition modPow (fuel : nat) (base exp modulus : Z) : result Z :=
  rbind (js_rem base modulus) (fun base => modPow_loop fuel 1 base exp modulus).

Definition MAX_SAFE_INTEGER : Z := 2 ^ 53 - 1.

(** The values a random source can produce. *)
Definition valid_source (rnd : source) : Prop :=
  forall i : nat, 0 <= rnd i <= MAX_SAFE_INTEGER.

(** [randBigInt]: one value of the source is consumed, then reduced. *)
Definition randBigInt (rnd : source) (min max : Z) : M Z :=
  fun s =>
    let range := max - min in
    let randNum := rnd s in
    rbind (js_rem randNum range) (fun v => Ret (v + min, S s)).

(** ** Miller-Rabin *)

(** [while (d % 2n === 0n) { d /= 2n; r += 1n; }] *)
Fixpoint halve (fuel : nat) (d r : Z) : result (Z * Z) :=
  if Z.rem d 2 =? 0 then
    match fuel with
    | O => Timeout
    | S fuel' => halve fuel' (Z.quot d 2) (r + 1)
    end
  else Ret (d, r).

(** The inner [for (let j = 0n; j < r - 1n; j++)] with [count] iterations
    left; the result is the flag [continueLoop]. *)
Fixpoint squarings (count : nat) (x n : Z) : bool :=
  match count with
  | O => false
  | S count' =>
      let x := Z.rem (x * x) n in
      if x =? n - 1 then true else squarings count' x n
  end.

(** The outer [for (let i = 0; i < k; i++)] with [count] rounds left. *)
Fixpoint rounds (fuel : nat) (rnd : source) (count : nat) (n d r : Z)
  : M bool :=
  match count with
  | O => ret true
  | S count' =>
      a <- randBigInt rnd 2 (n - 2) ;;
      x <- lift (modPow fuel a d n) ;;
      if (x =? 1) || (x =? n - 1) then rounds fuel rnd count' n d r
      else if squarings (Z.to_nat (r - 1)) x n
           then rounds fuel rnd count' n d r
           else ret false
  end.

Definition isPrimeMillerRabin (fuel : nat) (rnd : source) (n : Z) (k : nat)
  : M bool :=
  if n <? 2 then ret false
  else if (n =? 2) || (n =? 3) then ret true
  else if Z.rem n 2 =? 0 then ret false
  else
    '(d, r) <- lift (halve fuel (n - 1) 0) ;;
    rounds fuel rnd k n d r.

(** ** Pollard's rho *)

(** The [while (g === 1n)] loop; [retry] is the call [pollardRho(n)] made
    when the walk ends on the trivial divisor [n]. *)
Fixpoint rho_loop (retry : M Z) (fuel : nat) (n c x y : Z) : M Z :=
  match fuel with
  | O => timeout
  | S fuel' =>
      let x := Z.rem (x * x + c) n in
      let y := Z.rem (y * y + c) n in
      let y := Z.rem (y * y + c) n in
      let diff := if y <? x then x - y else y - x in
      g <- lift (gcd fuel diff n) ;;
      if g =? n then retry
      else if g =? 1 then rho_loop retry fuel' n c x y
      else ret g
  end.

(** [fuel] bounds the iterations of each walk.  A retry is the nested call
    [return pollardRho(n)]: [depth] retries fit on the call stack, the next
    one raises. *)
Fixpoint pollardRho (fuel depth : nat) (rnd : source) (n : Z) {struct depth}
  : M Z :=
  if Z.rem n 2 =? 0 then ret 2
  else
    x <- randBigInt rnd 2 (n - 1) ;;
    c <- randBigInt rnd 1 (n - 1) ;;
    rho_loop
      match depth with
      | O => throw StackOverflow
      | S depth' => pollardRho fuel depth' rnd n
      end
      fuel n c x x.

(** ** The sieve *)

Definition PRIME_LIMIT : Z := 100000.

(** A [Uint8Array]: its length and its cells, indexed from 0 (cell [i] is
    stored at the positive [i + 1]).  A write outside the bounds is ignored
    and a read outside them yields [undefined]. *)
Record Uint8Array : Type := mkArray {
  len : Z;
  cells : PositiveMap.t Z
}.

Definition slot (i : Z) : positive := Z.to_pos (i + 1).

Definition in_bounds (a : Uint8Array) (i : Z) : bool :=
  (0 <=? i) && (i <? len a).

Definition read (a : Uint8Array) (i : Z) : option Z :=
  if in_bounds a i then
    Some match PositiveMap.find (slot i) (cells a) with
         | Some v => v
         | None => 0
         end
  else None.

Definition write (a : Uint8Array) (i v : Z) : Uint8Array :=
  if in_bounds a i then mkArray (len a) (PositiveMap.add (slot i) v (cells a))
  else a.

(** Truthiness of a cell that was read. *)
Definition truthy (v : option Z) : bool :=
  match v with
  | Some v => negb (v =? 0)
  | None => false
  end.

(** [a.fill(v)], cell by cell from [i] on. *)
Fixpoint fill_from (count : nat) (i v : Z) (a : Uint8Array) : Uint8Array :=
  match count with
  | O => a
  | S count' => fill_from count' (i + 1) v (write a i v)
  end.

(** A table of [n] cells, all 0. *)
Definition blank (n : Z) : Uint8Array := mkArray n (PositiveMap.empty Z).

(** [new Uint8Array(n)]: the constructor raises a RangeError for a length
    that is negative, above [2^53 - 1], or above [max_length], the longest
    table the engine allocates. *)
Definition new_Uint8Array (max_length n : Z) : result Uint8Array :=
  if (n <? 0) || (MAX_SAFE_INTEGER <? n) || (max_length <? n)
  then Throw RangeError
  else Ret (blank n).

Definition fill (a : Uint8Array) (v : Z) : Uint8Array :=
  fill_from (Z.to_nat (len a)) 0 v a.

(** [for (let i = p * p; i <= limit; i += p) isPrime[i] = 0].  The counter
    grows by [p >= 2] from a non-negative start, so the loop makes at most
    [limit] iterations, the [budget] it is given. *)
Fixpoint mark_multiples (budget : nat) (i p limit : Z) (isPrime : Uint8Array)
  : Uint8Array :=
  if i <=? limit then
    match budget with
    | O => isPrime
    | S budget' => mark_multiples budget' (i + p) p limit (write isPrime i 0)
    end
  else isPrime.

(** [for (let p = 2; p * p <= limit; p++)], at most [limit] iterations. *)
Fixpoint sieve_loop (budget : nat) (p limit : Z) (isPrime : Uint8Array)
  : Uint8Array :=
  if p * p <=? limit then
    match budget with
    | O => isPrime
    | S budget' =>
        sieve_loop budget' (p + 1) limit
          (if truthy (read isPrime p)
           then mark_multiples (Z.to_nat limit) (p * p) p limit isPrime
           else isPrime)
    end
  else isPrime.

(** [for (let i = 0; i <= limit; i++) if (isPrime[i]) primes.push(BigInt(i))]
    with [count] iterations left; [primes] is held in reverse. *)
Fixpoint collect (count : nat) (i : Z) (isPrime : Uint8Array)
  (primes : list Z) : list Z :=
  match count with
  | O => primes
  | S count' =>
      collect count' (i + 1) isPrime
        (if truthy (read isPrime i) then i :: primes else primes)
  end.

(** The body of [generatePrimes] from [isPrime[0] = isPrime[1] = 0] on,
    given the table filled with 1. *)
Definition sieve (limit : Z) (isPrime : Uint8Array) : list Z :=
  let isPrime := write (write isPrime 1 0) 0 0 in
  let isPrime := sieve_loop (Z.to_nat limit) 2 limit isPrime in
  rev' (collect (Z.to_nat (limit + 1)) 0 isPrime []).

Definition generatePrimes (max_length limit : Z) : result (list Z) :=
  rbind (new_Uint8Array max_length (limit + 1)) (fun isPrime =>
    Ret (sieve limit (fill isPrime 1))).

(** [smallPrimes = generatePrimes(PRIME_LIMIT)], evaluated when the worker
    starts.  The handler is installed after it, so there is a worker only
    if that call returned: [smallPrimes] is the list it returned. *)
Definition smallPrimes : list Z :=
  sieve PRIME_LIMIT (fill (blank (PRIME_LIMIT + 1)) 1).

(** ** The Factor Multiset *)

(** The object [factors]: own properties in creation order.  A key is the
    BigInt whose decimal rendering names the property, the value is the
    exponent. *)
Definition obj : Type := list (Z * Z).

Fixpoint get (o : obj) (key : Z) : option Z :=
  match o with
  | [] => None
  | (k, v) :: o' => if k =? key then Some v else get o' key
  end.

(** Assignment keeps the place of an existing property and appends a new
    one. *)
Fixpoint set (o : obj) (key v : Z) : obj :=
  match o with
  | [] => [(key, v)]
  | (k, v0) :: o' =>
      if k =? key then (k, v) :: o' else (k, v0) :: set o' key v
  end.

(** [factors[p] || 0] *)
Definition or_zero (v : option Z) : Z :=
  match v with
  | Some v => if v =? 0 then 0 else v
  | None => 0
  end.

(** [factors[p] = (factors[p] || 0) + 1] *)
Definition incr (factors : obj) (p : Z) : obj :=
  set factors p (or_zero (get factors p) + 1).

(** The product of [key ^ exponent] over the entries. *)
Definition product (o : obj) : Z :=
  fold_right (fun kv acc => fst kv ^ snd kv * acc) 1 o.

(** Property enumeration order of an ordinary object: the keys that are
    array indices (canonical integers below [2^32 - 1]) in ascending order,
    then the other keys in creation order. *)
Definition is_array_index (k : Z) : bool := (0 <=? k) && (k <? 2 ^ 32 - 1).

Fixpoint insert_sorted (k : Z) (l : list Z) : list Z :=
  match l with
  | [] => [k]
  | h :: t => if k <=? h then k :: l else h :: insert_sorted k t
  end.

Definition sort_keys (l : list Z) : list Z := fold_right insert_sorted [] l.

Definition ownKeys (o : obj) : list Z :=
  let keys := map fst o in
  sort_keys (filter is_array_index keys)
    ++ filter (fun k => negb (is_array_index k)) keys.

Fixpoint ascending (l : list Z) : bool :=
  match l with
  | a :: (b :: _) as t => (a <? b) && ascending t
  | _ => true
  end.

(** ** The orchestrator *)

(** [while (n % p === 0n) { factors[p] = ...; n /= p; }] *)
Fixpoint divide_out (fuel : nat) (p n : Z) (factors : obj)
  : result (obj * Z) :=
  rbind (js_rem n p) (fun r =>
    if r =? 0 then
      match fuel with
      | O => Timeout
      | S fuel' => divide_out fuel' p (Z.quot n p) (incr factors p)
      end
    else Ret (factors, n)).

(** [for (const p of smallPrimes) { if (p * p > n) break; ... }] *)
Fixpoint trial_division (fuel : nat) (primes : list Z) (n : Z) (factors : obj)
  : result (obj * Z) :=
  match primes with
  | [] => Ret (factors, n)
  | p :: primes' =>
      if n <? p * p then Ret (factors, n)
      else rbind (divide_out fuel p n factors) (fun fn =>
             trial_division fuel primes' (snd fn) (fst fn))
  end.

(** One iteration of [while (stack.length > 0)] once [target] has been
    popped.  The head of the list is the top of the stack, that is the last
    element of the JavaScript array. *)
Definition stack_step (fuel rfuel depth : nat) (rnd : source)
  (factors : obj) (target : Z) (stack : list Z) : M (obj * list Z) :=
  if target =? 1 then ret (factors, stack)
  else
    isPrime <- isPrimeMillerRabin fuel rnd target 5 ;;
    if isPrime : bool then ret (incr factors target, stack)
    else
      factor <- pollardRho rfuel depth rnd target ;;
      quotient <- lift (js_div target factor) ;;
      ret (factors, quotient :: factor :: stack).

(** [gas] bounds the iterations of the work-stack loop, [fuel] those of
    each loop of the primality test and [rfuel] those of each call of
    [pollardRho]. *)
Fixpoint stack_loop (gas fuel rfuel depth : nat) (rnd : source)
  (factors : obj) (stack : list Z) : M obj :=
  match stack with
  | [] => ret factors
  | target :: stack' =>
      match gas with
      | O => timeout
      | S gas' =>
          '(factors, stack) <- stack_step fuel rfuel depth rnd factors target stack' ;;
          stack_loop gas' fuel rfuel depth rnd factors stack
      end
  end.

Definition factorize (fuel rfuel depth : nat) (rnd : source) (n : Z) : M obj :=
  '(factors, n) <- lift (trial_division fuel smallPrimes n []) ;;
  if n =? 1 then ret factors
  else stack_loop fuel fuel rfuel depth rnd factors [n].

(** ** The message handler *)

(** A JavaScript string is its sequence of UTF-16 code units. *)
Definition jsstring : Type := list N.

Definition lit (s : string) : jsstring := map N_of_ascii (list_ascii_of_string s).

(** [StrWhiteSpaceChar]: white space and line terminators. *)
Definition is_white_space (c : N) : bool :=
  existsb (N.eqb c)
    [9; 10; 11; 12; 13; 32; 160; 5760; 8232; 8233; 8239; 8287; 12288; 65279]%N
  || ((8192 <=? c) && (c <=? 8202))%N.

Fixpoint drop_white_space (s : jsstring) : jsstring :=
  match s with
  | c :: s' => if is_white_space c then drop_white_space s' else s
  | [] => []
  end.

Definition trim (s : jsstring) : jsstring :=
  rev (drop_white_space (rev (drop_white_space s))).

(** The value of a digit, for radices up to 16. *)
Definition digit_value (c : N) : option Z :=
  if ((48 <=? c) && (c <=? 57))%N then Some (Z.of_N c - 48)
  else if ((97 <=? c) && (c <=? 102))%N then Some (Z.of_N c - 87)
  else if ((65 <=? c) && (c <=? 70))%N then Some (Z.of_N c - 55)
  else None.

Fixpoint digits_from (radix acc : Z) (s : jsstring) : option Z :=
  match s with
  | [] => Some acc
  | c :: s' =>
      match digit_value c with
      | Some v => if v <? radix then digits_from radix (radix * acc + v) s'
                  else None
      | None => None
      end
  end.

(** One digit at least. *)
Definition digits (radix : Z) (s : jsstring) : option Z :=
  match s with
  | [] => None
  | _ => digits_from radix 0 s
  end.

(** [StringToBigInt] of ECMAScript, the conversion [BigInt(inputStr)]
    applies to a string: white space is trimmed; the empty text is 0;
    otherwise the text is a decimal literal with an optional sign, or an
    unsigned literal with prefix 0x, 0o or 0b (either case).  [None] stands
    for the SyntaxError raised on any other text. *)
Definition StringToBigInt (s : jsstring) : option Z :=
  match trim s with
  | [] => Some 0
  | c :: s' =>
      if (c =? 43)%N then digits 10 s'
      else if (c =? 45)%N then option_map Z.opp (digits 10 s')
      else
        match s' with
        | c' :: s'' =>
            if ((c =? 48) && ((c' =? 120) || (c' =? 88)))%N then digits 16 s''
            else if ((c =? 48) && ((c' =? 111) || (c' =? 79)))%N then digits 8 s''
            else if ((c =? 48) && ((c' =? 98) || (c' =? 66)))%N then digits 2 s''
            else digits 10 (c :: s')
        | [] => digits 10 (c :: s')
        end
  end.

(** The messages posted to the main thread.  The field [time] is left out.
    The [catch] branch builds the text of every error message the same way,
    a fixed prefix followed by [err.message]; the text is represented by the
    error it is built from. *)
Inductive message : Type :=
| Success (original : jsstring) (factors : obj)
| Failure (err : error).

(** What the handler does, in order: [Factorize n] records that the call
    [factorize(n)] was entered, [PostMessage m] that [m] was posted. *)
Inductive event : Type :=
| Factorize (n : Z)
| PostMessage (m : message).

(** [self.onmessage]: a run that is out of fuel posts nothing. *)
Definition onmessage (fuel rfuel depth : nat) (rnd : source) (inputStr : jsstring)
  (s : nat) : list event :=
  match StringToBigInt inputStr with
  | None => [PostMessage (Failure SyntaxError)]
  | Some n =>
      Factorize n ::
      match factorize fuel rfuel depth rnd n s return list event with
      | Ret (result, _) => [PostMessage (Success inputStr result)]
      | Throw err => [PostMessage (Failure err)]
      | Timeout => []
      end
  end.

(** * Vocabulary of the properties *)

(** [safe r Q]: the run did not raise, and if it returned, the value
    satisfies [Q]. *)
Definition safe {A : Type} (r : result A) (Q : A -> Prop) : Prop :=
  match r with
  | Ret a => Q a
  | Throw _ => False
  | Timeout => True
  end.

(** [sound r Q]: the run raised nothing but the exhaustion of the call
    stack, and if it returned, the value satisfies [Q]. *)
Definition sound {A : Type} (r : result A) (Q : A -> Prop) : Prop :=
  match r with
  | Ret a => Q a
  | Throw e => e = StackOverflow
  | Timeout => True
  end.

Definition nontrivial_factor (n g : Z) : Prop := (g | n) /\ 1 < g < n.

(** What [pollardRho(n)] returns: 2 on an even [n], a nontrivial factor on
    an odd one. *)
Definition rho_result (n g : Z) : Prop :=
  (Z.rem n 2 = 0 -> g = 2) /\ (Z.rem n 2 <> 0 -> nontrivial_factor n g).

(** Exponents are counts. *)
Definition counts (o : obj) : Prop := Forall (fun kv => 0 <= snd kv) o.

Definition stack_product (stack : list Z) : Z := fold_right Z.mul 1 stack.

(** The invariant of the reduction: what has been recorded, times what is
    still on the stack, is the input. *)
Definition loop_invariant (n : Z) (factors : obj) (stack : list Z) : Prop :=
  product factors * stack_product stack = n.

(** The side conditions the loop maintains with it. *)
Definition well_formed (factors : obj) (stack : list Z) : Prop :=
  counts factors /\ Forall (fun t => 1 <= t) stack.

(** The runs of the work-stack loop, step by step. *)
Definition loop_state : Type := (obj * list Z * nat)%type.

Inductive iterates (fuel rfuel depth : nat) (rnd : source)
  : loop_state -> loop_state -> Prop :=
| iterates_refl (st : loop_state) : iterates fuel rfuel depth rnd st st
| iterates_step (factors : obj) (target : Z) (stack : list Z) (s : nat)
    (factors' : obj) (stack' : list Z) (s' : nat) (st : loop_state) :
    stack_step fuel rfuel depth rnd factors target stack s
      = Ret ((factors', stack'), s') ->
    iterates fuel rfuel depth rnd (factors', stack', s') st ->
    iterates fuel rfuel depth rnd (factors, target :: stack, s) st.

Fixpoint no_divisor (count : nat) (d p : Z) : bool :=
  match count with
  | O => true
  | S count' => negb (p mod d =? 0) && no_divisor count' (d + 1) p
  end.

(** A source that always yields 0. *)
Definition rnd0 : source := fun _ => 0.

Definition large_p : Z := 4294967311.
Definition large_q : Z := 4294967357.

(** A source on which the seed and the increment of the walk are both
    [large_p]; every other draw is 0. *)
Definition large_source : source :=
  fun i =>
    match i with
    | 1%nat => large_p - 2
    | 2%nat => large_p - 1
    | _ => 0
    end.

Definition stuck_n : Z := 100003 * 100003.

(** Every draw is [stuck_n - 3]: the witness of the primality test is 3,
    the seed of the walk is 2 and its increment is [stuck_n - 2], for which
    2 is a fixed point of [x * x + c] modulo [stuck_n]. *)
Definition stuck_source : source := fun _ => stuck_n - 3.

(** The work left on the stack: an entry [t] weighs [2 * t - 1]. *)
Definition stack_weight (stack : list Z) : Z :=
  fold_right (fun t acc => 2 * t - 1 + acc) 0 stack.

(** What the handler may post once [factorize n] was entered on an
    [n >= 1]: the multiset, with product [n], or the exhaustion of the call
    stack. *)
Definition report (inputStr : jsstring) (n : Z) (m : message) : Prop :=
  (exists factors, m = Success inputStr factors /\ product factors = n) \/
  m = Failure StackOverflow.

Definition is_digit (c : N) : bool := ((48 <=? c) && (c <=? 57))%N.

(** The strings the specification calls valid non-negative decimal
    integers: one decimal digit or more, and nothing else. *)
Definition non_negative_decimal (s : jsstring) : bool :=
  match s with
  | [] => false
  | _ => forallb is_digit s
  end.

(** The code units a text that [BigInt] accepts is made of: white space,
    the signs, the digits of radix 16 and the letters of the prefixes 0x
    and 0o (those of 0b are digits). *)
Definition literal_unit (c : N) : bool :=
  is_white_space c || (c =? 43)%N || (c =? 45)%N ||
  match digit_value c with Some _ => true | None => false end ||
  (c =? 120)%N || (c =? 88)%N || (c =? 111)%N || (c =? 79)%N.

(** Whether cell [i] of the table is set. *)
Definition cell (a : Uint8Array) (i : Z) : bool := truthy (read a i).

(** The integers [i, i + 1, ..., i + count - 1]. *)
Fixpoint Zrange (i : Z) (count : nat) : list Z :=
  match count with
  | O => []
  | S count' => i :: Zrange (i + 1) count'
  end.

(** [j] is one of [i, i + p, i + 2 p, ...] up to [limit]. *)
Definition marked (i p limit j : Z) : bool :=
  (i <=? j) && (j <=? limit) && ((j - i) mod p =? 0).

(** [j] has no divisor in [2, p) but itself. *)
Definition unsieved (p j : Z) : Prop :=
  forall d, 2 <= d < p -> (d | j) -> d = j.

(** The state of the table when the outer loop is at [p]: the cells set
    are those from 2 on with no divisor in [2, p) but themselves. *)
Definition sieved (limit p : Z) (a : Uint8Array) : Prop :=
  len a = limit + 1 /\
  forall j, cell a j = true <-> 2 <= j <= limit /\ unsieved p j.

(** A run of consecutive primes: [l] lists, in ascending order, the primes
    from [c] to [bound]. *)
Definition prime_run (bound c : Z) (l : list Z) : Prop :=
  StronglySorted Z.lt l /\
  forall x, In x l <-> Z.prime x /\ c <= x <= bound.

(** Entries whose keys are primes and whose exponents are at least 1. *)
Definition prime_powers (o : obj) : Prop :=
  Forall (fun kv => Z.prime (fst kv) /\ 1 <= snd kv) o.

(** One step of the walk of [pollardRho]: [x * x + c] modulo [n]. *)
Definition rho_next (n c z : Z) : Z := Z.rem (z * z + c) n.

(** From [st] the work-stack loop reaches a state with [target] on top of the
    stack, [target] is not 1, the primality test answers [false] for it, and
    the retries of [pollardRho] on it exhaust the call stack. *)
Definition overflow_in_rho (fuel rfuel depth : nat) (rnd : source)
  (st : loop_state) (target : Z) : Prop :=
  exists factors rest s1 s2,
    iterates fuel rfuel depth rnd st (factors, target :: rest, s1) /\
    target <> 1 /\
    isPrimeMillerRabin fuel rnd target 5 s1 = Ret (false, s2) /\
    pollardRho rfuel depth rnd target s2 = Throw StackOverflow.

(** * Lemmas *)

#[local] Arguments Z.pow : simpl never.

(** ** Reasoning about results *)

Lemma safe_ret {A : Type} (r : result A) (Q : A -> Prop) (a : A) :
  safe r Q -> r = Ret a -> Q a.
Proof. intros H E. rewrite E in H. exact H. Qed.

Lemma safe_weaken {A : Type} (r : result A) (P Q : A -> Prop) :
  safe r P -> (forall a, P a -> Q a) -> safe r Q.
Proof. destruct r; simpl; auto. Qed.

Lemma safe_rbind {A B : Type} (r : result A) (k : A -> result B)
  (P : A -> Prop) (Q : B -> Prop) :
  safe r P -> (forall a, P a -> safe (k a) Q) -> safe (rbind r k) Q.
Proof. destruct r; simpl; auto. Qed.

Lemma safe_bind {A B : Type} (m : M A) (k : A -> M B) (s : nat)
  (P : A * nat -> Prop) (Q : B * nat -> Prop) :
  safe (m s) P -> (forall a s', P (a, s') -> safe (k a s') Q) ->
  safe (bind m k s) Q.
Proof.
  unfold bind. destruct (m s) as [[a s']| |]; simpl; auto.
Qed.

Lemma safe_lift {A : Type} (r : result A) (s : nat) (P : A -> Prop)
  (Q : A * nat -> Prop) :
  safe r P -> (forall a, P a -> Q (a, s)) -> safe (lift r s) Q.
Proof. unfold lift. destruct r; simpl; auto. Qed.

Lemma safe_sound {A : Type} (r : result A) (Q : A -> Prop) :
  safe r Q -> sound r Q.
Proof. destruct r; simpl; tauto. Qed.

Lemma sound_weaken {A : Type} (r : result A) (P Q : A -> Prop) :
  sound r P -> (forall a, P a -> Q a) -> sound r Q.
Proof. destruct r; simpl; auto. Qed.

Lemma sound_bind {A B : Type} (m : M A) (k : A -> M B) (s : nat)
  (P : A * nat -> Prop) (Q : B * nat -> Prop) :
  sound (m s) P -> (forall a s', P (a, s') -> sound (k a s') Q) ->
  sound (bind m k s) Q.
Proof.
  unfold bind. destruct (m s) as [[a s']| |]; simpl; auto.
Qed.

Lemma js_rem_ret (a b : Z) : b <> 0 -> js_rem a b = Ret (Z.rem a b).
Proof. intros H. unfold js_rem. destruct (Z.eqb_spec b 0); [lia | reflexivity]. Qed.

Lemma js_div_ret (a b : Z) : b <> 0 -> js_div a b = Ret (Z.quot a b).
Proof. intros H. unfold js_div. destruct (Z.eqb_spec b 0); [lia | reflexivity]. Qed.

(** ** gcd *)

Lemma gcd_safe (fuel : nat) :
  forall a b, 0 <= a -> 0 <= b -> safe (gcd fuel a b) (fun g => g = Z.gcd a b).
Proof.
  induction fuel as [|fuel IH]; intros a b Ha Hb; simpl;
    destruct (Z.ltb_spec 0 b) as [Hlt|Hge]; simpl; trivial.
  - assert (b = 0) by lia. subst b. rewrite Z.gcd_0_r, Z.abs_eq; lia.
  - rewrite Z.rem_mod_nonneg by lia.
    pose proof (Z.mod_pos_bound a b Hlt) as Hm.
    eapply safe_weaken; [apply IH; lia|].
    intros g ->. rewrite Z.gcd_comm, Z.gcd_mod by lia. apply Z.gcd_comm.
  - assert (b = 0) by lia. subst b. rewrite Z.gcd_0_r, Z.abs_eq; lia.
Qed.

Lemma gcd_zero_r (fuel : nat) (a : Z) : gcd fuel a 0 = Ret a.
Proof. destruct fuel; reflexivity. Qed.

(** ** modPow *)

Lemma quot2_pos (e : Z) :
  0 < e ->
  e = 2 * Z.quot e 2 + Z.rem e 2 /\ 0 <= Z.quot e 2 < e /\
  (Z.rem e 2 = 0 \/ Z.rem e 2 = 1).
Proof.
  intros He. pose proof (Z.quot_rem' e 2) as E.
  pose proof (Z.rem_bound_pos e 2 ltac:(lia) ltac:(lia)) as B. lia.
Qed.

Lemma log2_quot2 (e : Z) : 1 < e -> Z.log2 (Z.quot e 2) = Z.log2 e - 1.
Proof.
  intros He. rewrite Z.quot_div_nonneg by lia.
  rewrite <- Z.div2_div, Z.div2_spec, Z.log2_shiftr by lia.
  pose proof (Z.log2_pos e He). lia.
Qed.

(** With enough fuel the loop returns the modular power of its
    arguments. *)
Lemma modPow_loop_ret (fuel : nat) :
  forall res base exp m,
    0 <= res -> 0 <= base -> 0 < exp -> 0 < m ->
    Z.log2 exp < Z.of_nat fuel ->
    modPow_loop fuel res base exp m = Ret ((res * base ^ exp) mod m).
Proof.
  induction fuel as [|fuel IH]; intros res base exp m Hres Hbase Hexp Hm Hfuel.
  - pose proof (Z.log2_nonneg exp). lia.
  - simpl. destruct (Z.ltb_spec 0 exp) as [_|]; [|lia].
    destruct (quot2_pos exp Hexp) as (E & Hq & Hr).
    set (q := Z.quot exp 2) in *.
    assert (Hsq : Z.rem (base * base) m = (base * base) mod m)
      by (apply Z.rem_mod_nonneg; nia).
    assert (Hmul : Z.rem (res * base) m = (res * base) mod m)
      by (apply Z.rem_mod_nonneg; nia).
    rewrite Hsq, Hmul.
    assert (Hpow : base ^ exp = (base * base) ^ q * base ^ Z.rem exp 2).
    { rewrite E at 1. rewrite Z.pow_add_r, Z.pow_mul_r by lia.
      replace (base ^ 2) with (base * base) by ring. reflexivity. }
    pose proof (Z.mod_pos_bound (base * base) m Hm) as Bsq.
    pose proof (Z.mod_pos_bound (res * base) m Hm) as Bmul.
    destruct (Z.eq_dec q 0) as [Hq0|Hq0].
    + (* exp = 1: the next test of the loop condition exits *)
      assert (exp = 1) by lia. subst exp.
      change (Z.rem 1 2 =? 1) with true. cbv iota.
      unfold q. change (Z.quot 1 2) with 0.
      rewrite Z.pow_1_r. destruct fuel; reflexivity.
    + assert (Hlog : Z.log2 q < Z.of_nat fuel).
      { unfold q. rewrite log2_quot2 by lia. lia. }
      destruct Hr as [Hr|Hr]; rewrite Hr in *.
      * change (0 =? 1) with false. cbv iota.
        rewrite IH by lia.
        f_equal. rewrite Hpow, Z.pow_0_r, Z.mul_1_r.
        rewrite <- Z.mul_mod_idemp_r by lia.
        rewrite Z.mod_pow_l.
        rewrite Z.mul_mod_idemp_r by lia. reflexivity.
      * change (1 =? 1) with true. cbv iota.
        rewrite IH by lia.
        f_equal. rewrite Hpow, Z.pow_1_r.
        rewrite <- Z.mul_mod_idemp_r by lia.
        rewrite Z.mod_pow_l.
        rewrite Z.mul_mod_idemp_r by lia.
        rewrite Z.mul_mod_idemp_l by lia.
        f_equal. ring.
Qed.

(** [modPow] on a positive exponent. *)
Lemma modPow_ret (fuel : nat) (base exp m : Z) :
  0 <= base -> 0 < exp -> 0 < m -> Z.log2 exp < Z.of_nat fuel ->
  modPow fuel base exp m = Ret (base ^ exp mod m).
Proof.
  intros Hb He Hm Hf. unfold modPow.
  rewrite js_rem_ret by lia. simpl.
  rewrite Z.rem_mod_nonneg by lia.
  pose proof (Z.mod_pos_bound base m Hm).
  rewrite modPow_loop_ret by lia.
  rewrite Z.mul_1_l. f_equal. apply Z.mod_pow_l.
Qed.

(** With a zero exponent the loop is not entered: the result is 1, not
    reduced. *)
Lemma modPow_exp_zero (fuel : nat) (base m : Z) :
  m <> 0 -> modPow fuel base 0 m = Ret 1.
Proof.
  intros Hm. unfold modPow. rewrite js_rem_ret by lia. simpl.
  destruct fuel; reflexivity.
Qed.

(** Hence [modPow] is the modular power from modulus 2 on. *)
Lemma modPow_from_modulus_2 (fuel : nat) (base exp m : Z) :
  0 <= base -> 0 <= exp -> 2 <= m -> Z.log2 exp < Z.of_nat fuel ->
  modPow fuel base exp m = Ret (base ^ exp mod m).
Proof.
  intros Hb He Hm Hf. destruct (Z.eq_dec exp 0) as [->|Hne].
  - rewrite modPow_exp_zero by lia. rewrite Z.pow_0_r, Z.mod_1_l by lia.
    reflexivity.
  - apply modPow_ret; lia.
Qed.

Lemma modPow_loop_safe (fuel : nat) :
  forall res base exp m, safe (modPow_loop fuel res base exp m) (fun _ => True).
Proof.
  induction fuel as [|fuel IH]; intros; simpl;
    destruct (0 <? exp); simpl; trivial.
Qed.

Lemma modPow_safe (fuel : nat) (base exp m : Z) :
  m <> 0 -> safe (modPow fuel base exp m) (fun _ => True).
Proof.
  intros Hm. unfold modPow. rewrite js_rem_ret by lia. simpl.
  apply modPow_loop_safe.
Qed.

(** ** randBigInt *)

Lemma randBigInt_ret (rnd : source) (min max : Z) (s : nat) :
  max - min <> 0 ->
  randBigInt rnd min max s = Ret (Z.rem (rnd s) (max - min) + min, S s).
Proof.
  intros H. unfold randBigInt. rewrite js_rem_ret by lia. reflexivity.
Qed.

Lemma randBigInt_range (rnd : source) (min max : Z) (s : nat) :
  min < max -> 0 <= rnd s ->
  min <= Z.rem (rnd s) (max - min) + min < max.
Proof.
  intros H Hr. rewrite Z.rem_mod_nonneg by lia.
  pose proof (Z.mod_pos_bound (rnd s) (max - min)). lia.
Qed.

(** ** Miller-Rabin *)

Lemma halve_spec (fuel : nat) :
  forall d0 r0 d r,
    0 < d0 -> halve fuel d0 r0 = Ret (d, r) ->
    0 < d /\ Z.rem d 2 <> 0 /\ r0 <= r /\ d0 = d * 2 ^ (r - r0).
Proof.
  induction fuel as [|fuel IH]; intros d0 r0 d r Hd0 H; simpl in H;
    destruct (Z.eqb_spec (Z.rem d0 2) 0) as [He|Hne]; try discriminate;
    try (injection H as <- <-; rewrite Z.sub_diag, Z.pow_0_r; lia).
  destruct (quot2_pos d0 Hd0) as (E & Hq & _).
  apply IH in H; [|lia].
  destruct H as (Hd & Hodd & Hr & Hq').
  repeat split; try lia.
  replace (r - r0) with (Z.succ (r - (r0 + 1))) by lia.
  rewrite Z.pow_succ_r by lia. lia.
Qed.

Lemma halve_ret (fuel : nat) :
  forall d0 r0,
    0 < d0 -> Z.log2 d0 <= Z.of_nat fuel ->
    exists d r, halve fuel d0 r0 = Ret (d, r).
Proof.
  induction fuel as [|fuel IH]; intros d0 r0 Hd0 Hf; simpl;
    destruct (Z.eqb_spec (Z.rem d0 2) 0) as [He|Hne]; eauto;
    destruct (quot2_pos d0 Hd0) as (E & Hq & _);
    assert (1 < d0) by lia;
    pose proof (Z.log2_pos d0 ltac:(lia)); [lia|].
  apply IH; [lia|]. rewrite log2_quot2 by lia. lia.
Qed.

Lemma squarings_true (n : Z) :
  1 < n ->
  forall (count : nat) (x j : Z),
    0 <= x -> 1 <= j <= Z.of_nat count ->
    x ^ (2 ^ j) mod n = n - 1 ->
    squarings count x n = true.
Proof.
  intros Hn. induction count as [|count IH]; intros x j Hx Hj H; [lia|].
  simpl. rewrite Z.rem_mod_nonneg by nia.
  destruct (Z.eqb_spec ((x * x) mod n) (n - 1)) as [|Hne]; [reflexivity|].
  assert (Hsq : x ^ 2 ^ j = (x * x) ^ 2 ^ (j - 1)).
  { replace j with (Z.succ (j - 1)) at 1 by lia.
    rewrite Z.pow_succ_r, Z.pow_mul_r by lia.
    f_equal. ring. }
  assert (j <> 1).
  { intros ->. apply Hne. rewrite <- H. rewrite Hsq.
    change (2 ^ (1 - 1)) with 1. rewrite Z.pow_1_r. reflexivity. }
  apply (IH _ (j - 1)).
  - apply Z.mod_pos_bound. lia.
  - lia.
  - rewrite Z.mod_pow_l, <- Hsq. exact H.
Qed.

(** The decomposition [n - 1 = d * 2^r] of an odd [n >= 5]. *)
Lemma halve_decomposes (fuel : nat) (n : Z) :
  5 <= n -> Z.rem n 2 <> 0 -> Z.log2 n <= Z.of_nat fuel ->
  exists d r,
    halve fuel (n - 1) 0 = Ret (d, r) /\
    0 < d /\ 0 <= r /\ n - 1 = d * 2 ^ r /\ Z.log2 d < Z.of_nat fuel.
Proof.
  intros Hn5 Hodd Hf.
  assert (Hlog : Z.log2 (n - 1) <= Z.of_nat fuel).
  { pose proof (Z.log2_le_mono (n - 1) n). lia. }
  destruct (halve_ret fuel (n - 1) 0 ltac:(lia) Hlog) as (d & r & Hh).
  destruct (halve_spec fuel (n - 1) 0 d r ltac:(lia) Hh) as (Hd & Hd2 & Hr & E).
  rewrite Z.sub_0_r in E.
  exists d, r. repeat split; try assumption.
  destruct (Z.eq_dec r 0) as [->|].
  - exfalso. rewrite Z.pow_0_r, Z.mul_1_r in E. subst d. apply Hd2.
    pose proof (Z.quot_rem' n 2). pose proof (Z.quot_rem' (n - 1) 2).
    pose proof (Z.rem_bound_pos n 2). pose proof (Z.rem_bound_pos (n - 1) 2).
    lia.
  - pose proof (Z.log2_mul_pow2 d r Hd Hr) as L. rewrite <- E in L.
    pose proof (Z.log2_le_mono (n - 1) n). lia.
Qed.

Section OnPrime.

Variable n : Z.
Hypothesis n_prime : Z.prime n.

Let n_ge_2 : 2 <= n := Z.prime_ge_2 n n_prime.

(** Modulo a prime, 1 has the square roots 1 and -1 only. *)
Lemma sqrt_one_mod_prime (z : Z) :
  0 <= z < n -> (z * z) mod n = 1 -> z = 1 \/ z = n - 1.
Proof.
  intros Hz Hsq. pose proof n_ge_2 as Hn.
  assert (Hdiv : (n | (z - 1) * (z + 1))).
  { exists ((z * z) / n).
    pose proof (Z.div_mod (z * z) n ltac:(lia)). lia. }
  apply Z.divide_prime_mul in Hdiv; [|exact n_prime].
  destruct Hdiv as [[k Hk]|[k Hk]].
  - left. assert (k = 0) by nia. lia.
  - right. assert (k = 1) by nia. lia.
Qed.

(** If repeated squaring of [y] reaches 1 modulo a prime, either [y] is
    1 or the chain passes through -1. *)
Lemma sqrt_chain (y : Z) :
  0 <= y ->
  forall r : nat,
    y ^ (2 ^ Z.of_nat r) mod n = 1 ->
    y mod n = 1 \/
    exists j, 0 <= j < Z.of_nat r /\ y ^ (2 ^ j) mod n = n - 1.
Proof.
  intros Hy. pose proof n_ge_2 as Hn.
  induction r as [|r IH]; intros H.
  - left. change (2 ^ Z.of_nat 0) with 1 in H. rewrite Z.pow_1_r in H.
    exact H.
  - assert (Hpos : 0 <= 2 ^ Z.of_nat r) by (apply Z.pow_nonneg; lia).
    rewrite Nat2Z.inj_succ, Z.pow_succ_r, Z.mul_comm, Z.pow_mul_r in H by lia.
    set (z := y ^ 2 ^ Z.of_nat r) in *.
    assert (Hz : (z mod n * (z mod n)) mod n = 1).
    { rewrite <- Z.mul_mod by lia. rewrite <- H. f_equal. ring. }
    apply sqrt_one_mod_prime in Hz; [|apply Z.mod_pos_bound; lia].
    destruct Hz as [Hz|Hz].
    + destruct (IH Hz) as [?|(j & Hj & Hj')]; [now left|].
      right. exists j. split; [lia|assumption].
    + right. exists (Z.of_nat r). split; [lia|assumption].
Qed.

(** One round on a prime [n] passes whatever the witness. *)
Lemma round_passes (d r a : Z) :
  0 < d -> 0 <= r -> n - 1 = d * 2 ^ r ->
  0 <= a -> a mod n <> 0 ->
  let x := a ^ d mod n in
  (x =? 1) || (x =? n - 1) = true \/
  squarings (Z.to_nat (r - 1)) x n = true.
Proof.
  intros Hd Hr Hn Ha Hnz x. pose proof n_ge_2 as Hn2.
  pose proof (Z.fermat_nz n a n_prime Hnz) as F.
  rewrite Hn, Z.pow_mul_r in F by lia.
  rewrite <- (Z2Nat.id r Hr) in F.
  apply sqrt_chain in F; [|apply Z.pow_nonneg; lia].
  destruct F as [F|(j & Hj & F)].
  - left. fold x in F. rewrite F. reflexivity.
  - rewrite Z2Nat.id in Hj by lia.
    destruct (Z.eq_dec j 0) as [->|Hj0].
    + left. change (2 ^ 0) with 1 in F. rewrite Z.pow_1_r in F. fold x in F.
      rewrite F, Z.eqb_refl. apply orb_true_r.
    + right. apply (squarings_true n ltac:(lia) _ _ j).
      * apply Z.mod_pos_bound. lia.
      * rewrite Z2Nat.id by lia. lia.
      * unfold x. rewrite Z.mod_pow_l. exact F.
Qed.

End OnPrime.

Lemma rounds_prime (fuel : nat) (rnd : source) (n d r : Z) :
  Z.prime n -> 5 <= n -> valid_source rnd ->
  0 < d -> 0 <= r -> n - 1 = d * 2 ^ r -> Z.log2 d < Z.of_nat fuel ->
  forall (count s : nat),
    exists s', rounds fuel rnd count n d r s = Ret (true, s').
Proof.
  intros Hp Hn5 Hv Hd Hr Hn Hf.
  induction count as [|count IH]; intros s; simpl.
  - eexists. reflexivity.
  - unfold bind at 1. rewrite randBigInt_ret by lia.
    pose proof (randBigInt_range rnd 2 (n - 2) s ltac:(lia) (proj1 (Hv s))) as Ha.
    set (a := Z.rem (rnd s) (n - 2 - 2) + 2) in *.
    unfold bind, lift. rewrite modPow_ret by lia. simpl.
    assert (Hnz : a mod n <> 0) by (rewrite Z.mod_small; lia).
    destruct (round_passes n Hp d r a Hd Hr Hn ltac:(lia) Hnz) as [E|E].
    + rewrite E. apply IH.
    + destruct ((a ^ d mod n =? 1) || (a ^ d mod n =? n - 1)); [apply IH|].
      rewrite E. apply IH.
Qed.

(** Between the guards and the loops [n] is odd and at least 5. *)
Lemma guards_passed (n : Z) :
  (n <? 2) = false -> (n =? 2) || (n =? 3) = false -> (Z.rem n 2 =? 0) = false ->
  5 <= n.
Proof.
  intros H1 H2 H3. apply Z.ltb_ge in H1. apply orb_false_iff in H2.
  destruct H2 as [H2 H2']. apply Z.eqb_neq in H2, H2', H3.
  destruct (Z.eq_dec n 4) as [->|]; [exfalso; apply H3; reflexivity | lia].
Qed.

(** No false negative: a prime passes any number of rounds. *)
Lemma isPrimeMillerRabin_prime (fuel : nat) (rnd : source) (n : Z) (k s : nat) :
  Z.prime n -> valid_source rnd -> Z.log2 n <= Z.of_nat fuel ->
  exists s', isPrimeMillerRabin fuel rnd n k s = Ret (true, s').
Proof.
  intros Hp Hv Hf. pose proof (Z.prime_ge_2 n Hp) as Hn2.
  unfold isPrimeMillerRabin.
  destruct (n <? 2) eqn:G1; [apply Z.ltb_lt in G1; lia|].
  destruct ((n =? 2) || (n =? 3)) eqn:G2; [eexists; reflexivity|].
  destruct (Z.rem n 2 =? 0) eqn:G3.
  - exfalso. apply Z.eqb_eq in G3. apply orb_false_iff in G2.
    destruct G2 as [G2 _]. apply Z.eqb_neq in G2.
    destruct Hp as [_ Hp]. apply (Hp 2); [lia|].
    exists (Z.quot n 2). pose proof (Z.quot_rem' n 2). lia.
  - pose proof (guards_passed n G1 G2 G3) as Hn5.
    apply Z.eqb_neq in G3.
    destruct (halve_decomposes fuel n Hn5 G3 Hf) as (d & r & Hh & Hd & Hr & E & Hd').
    unfold bind, lift. rewrite Hh. simpl.
    apply rounds_prime; auto.
Qed.

(** The test never raises, and it answers [true] on 2 and 3. *)
Lemma rounds_safe (fuel : nat) (rnd : source) (n d r : Z) :
  5 <= n ->
  forall (count s : nat),
    safe (rounds fuel rnd count n d r s) (fun _ => True).
Proof.
  intros Hn. induction count as [|count IH]; intros s; simpl; [exact I|].
  unfold bind at 1. rewrite randBigInt_ret by lia.
  unfold bind, lift.
  pose proof (modPow_safe fuel (Z.rem (rnd s) (n - 2 - 2) + 2) d n ltac:(lia)) as Hm.
  destruct (modPow fuel _ d n) as [x| |]; simpl in *; try tauto.
  destruct ((x =? 1) || (x =? n - 1)); [apply IH|].
  destruct (squarings _ x n); [apply IH | exact I].
Qed.

Lemma isPrimeMillerRabin_safe (fuel : nat) (rnd : source) (n : Z) (k s : nat) :
  safe (isPrimeMillerRabin fuel rnd n k s)
    (fun bs => fst bs = false -> n <> 2 /\ n <> 3).
Proof.
  unfold isPrimeMillerRabin.
  destruct (n <? 2) eqn:G1; [simpl; apply Z.ltb_lt in G1; lia|].
  destruct ((n =? 2) || (n =? 3)) eqn:G2; [simpl; discriminate|].
  apply orb_false_iff in G2 as G2'. destruct G2' as [N2 N3].
  apply Z.eqb_neq in N2, N3.
  destruct (Z.rem n 2 =? 0) eqn:G3; [simpl; auto|].
  pose proof (guards_passed n G1 G2 G3) as Hn5.
  unfold bind, lift.
  destruct (halve fuel (n - 1) 0) as [[d r]| |] eqn:Hh; simpl; trivial.
  - eapply safe_weaken; [apply rounds_safe; assumption|]. simpl. auto.
  - clear - Hh. revert Hh. generalize (n - 1) 0.
    induction fuel as [|fuel IH]; intros d r; simpl;
      destruct (Z.rem d 2 =? 0); try discriminate. apply IH.
Qed.

(** With enough fuel the test answers. *)
Lemma rounds_ret (fuel : nat) (rnd : source) (n d r : Z) :
  5 <= n -> valid_source rnd -> 0 < d -> Z.log2 d < Z.of_nat fuel ->
  forall (count s : nat),
    exists b s', rounds fuel rnd count n d r s = Ret (b, s').
Proof.
  intros Hn Hv Hd Hf. induction count as [|count IH]; intros s; simpl.
  - do 2 eexists. reflexivity.
  - unfold bind at 1. rewrite randBigInt_ret by lia.
    pose proof (randBigInt_range rnd 2 (n - 2) s ltac:(lia) (proj1 (Hv s))) as Ha.
    unfold bind, lift. rewrite modPow_ret by lia. simpl.
    destruct (_ || _); [apply IH|].
    destruct (squarings _ _ n); [apply IH|]. do 2 eexists. reflexivity.
Qed.

Lemma isPrimeMillerRabin_ret (fuel : nat) (rnd : source) (n : Z) (k s : nat) :
  valid_source rnd -> Z.log2 n <= Z.of_nat fuel ->
  exists b s', isPrimeMillerRabin fuel rnd n k s = Ret (b, s').
Proof.
  intros Hv Hf. unfold isPrimeMillerRabin.
  destruct (n <? 2) eqn:G1; [do 2 eexists; reflexivity|].
  destruct ((n =? 2) || (n =? 3)) eqn:G2; [do 2 eexists; reflexivity|].
  destruct (Z.rem n 2 =? 0) eqn:G3; [do 2 eexists; reflexivity|].
  pose proof (guards_passed n G1 G2 G3) as Hn5.
  apply Z.eqb_neq in G3.
  destruct (halve_decomposes fuel n Hn5 G3 Hf) as (d & r & Hh & Hd & Hr & E & Hd').
  unfold bind, lift. rewrite Hh. simpl.
  apply rounds_ret; auto.
Qed.

(** ** Pollard's rho *)

Lemma rho_loop_sound (retry : M Z) (n : Z) :
  0 < n ->
  (forall s, sound (retry s) (fun gs => nontrivial_factor n (fst gs))) ->
  forall fuel c x y s,
    sound (rho_loop retry fuel n c x y s)
      (fun gs => nontrivial_factor n (fst gs)).
Proof.
  intros Hn Hretry. induction fuel as [|fuel IH]; intros c x y s; [exact I|].
  cbn -[gcd]. unfold bind, lift.
  set (x' := Z.rem (x * x + c) n).
  set (y' := Z.rem (Z.rem (y * y + c) n * Z.rem (y * y + c) n + c) n).
  set (diff := if y' <? x' then x' - y' else y' - x').
  assert (Hdiff : 0 <= diff).
  { unfold diff. destruct (Z.ltb_spec y' x'); lia. }
  pose proof (gcd_safe (S fuel) diff n Hdiff ltac:(lia)) as Hg.
  destruct (gcd (S fuel) diff n) as [g| |]; simpl in *; try tauto.
  destruct (Z.eqb_spec g n) as [|Hgn]; [apply Hretry|].
  destruct (Z.eqb_spec g 1) as [|Hg1]; [apply IH|].
  simpl. subst g. split; [apply Z.gcd_divide_r|].
  pose proof (Z.gcd_nonneg diff n).
  pose proof (Z.gcd_divide_r diff n) as Hd.
  apply Z.divide_pos_le in Hd; [|lia].
  assert (Z.gcd diff n <> 0) by (intros E; apply Z.gcd_eq_0_r in E; lia).
  lia.
Qed.

(** One level of the recursion, whatever the depth. *)
Lemma pollardRho_unfold (fuel depth : nat) (rnd : source) (n : Z) :
  pollardRho fuel depth rnd n
  = if Z.rem n 2 =? 0 then ret 2
    else
      x <- randBigInt rnd 2 (n - 1) ;;
      c <- randBigInt rnd 1 (n - 1) ;;
      rho_loop
        match depth with
        | O => throw StackOverflow
        | S depth' => pollardRho fuel depth' rnd n
        end
        fuel n c x x.
Proof. destruct depth; reflexivity. Qed.

(** What [pollardRho] returns is a factor; what it raises, from 2 on and
    but for 3, is the exhaustion of the call stack. *)
Lemma pollardRho_sound (fuel : nat) (rnd : source) (n : Z) :
  2 <= n -> n <> 3 ->
  forall depth s,
    sound (pollardRho fuel depth rnd n s) (fun gs => rho_result n (fst gs)).
Proof.
  intros Hn Hn3.
  induction depth as [|depth IH]; intros s; rewrite pollardRho_unfold;
    destruct (Z.eqb_spec (Z.rem n 2) 0) as [He|Hodd];
    try (simpl; split; [reflexivity | tauto]);
    assert (n <> 2) by (intros ->; apply Hodd; reflexivity);
    unfold bind at 1; rewrite randBigInt_ret by lia;
    unfold bind at 1; rewrite randBigInt_ret by lia;
    (eapply sound_weaken;
     [apply rho_loop_sound; [lia|] | intros gs Hg; split; tauto]).
  - intros s'. reflexivity.
  - intros s'. eapply sound_weaken; [apply IH|].
    intros gs [_ Hg]. auto.
Qed.

(** On 3 the seed range [2, 2) is empty and the reduction raises. *)
Lemma pollardRho_three (fuel depth : nat) (rnd : source) (s : nat) :
  pollardRho fuel depth rnd 3 s = Throw RangeError.
Proof. destruct depth; reflexivity. Qed.

(** ** The Factor Multiset *)

Lemma incr_product (o : obj) (p : Z) :
  counts o -> product (incr o p) = p * product o /\ counts (incr o p).
Proof.
  unfold incr, counts. induction 1 as [|[k v] o Hv Ho IH]; simpl.
  - split; [rewrite Z.pow_1_r; ring|]. repeat constructor. simpl. lia.
  - simpl in Hv. destruct (Z.eqb_spec k p) as [->|Hne]; simpl.
    + assert (E : (if v =? 0 then 0 else v) = v)
        by (destruct (Z.eqb_spec v 0); lia).
      rewrite E. split.
      * rewrite Z.pow_add_r, Z.pow_1_r by lia. ring.
      * constructor; [simpl; lia | assumption].
    + destruct IH as [IH1 IH2]. split.
      * rewrite IH1. ring.
      * constructor; assumption.
Qed.

(** Keys that are all array indices are enumerated in ascending order. *)
Lemma insert_sorted_sorted (k : Z) (l : list Z) :
  Sorted Z.le l -> Sorted Z.le (insert_sorted k l).
Proof.
  induction 1 as [|h t Ht IH Hh]; simpl.
  - repeat constructor.
  - destruct (Z.leb_spec k h).
    + repeat constructor; assumption.
    + constructor; [assumption|].
      destruct Hh as [|h' t' Hle]; simpl.
      * constructor. lia.
      * destruct (Z.leb_spec k h'); constructor; lia.
Qed.

Lemma sort_keys_sorted (l : list Z) : Sorted Z.le (sort_keys l).
Proof.
  induction l as [|k l IH]; simpl; [constructor|].
  apply insert_sorted_sorted. exact IH.
Qed.

Lemma ownKeys_of_indices (o : obj) :
  forallb is_array_index (map fst o) = true ->
  ownKeys o = sort_keys (map fst o) /\ Sorted Z.le (ownKeys o).
Proof.
  intros H. unfold ownKeys. cbv zeta.
  assert (E : forall l, forallb is_array_index l = true ->
                filter is_array_index l = l /\
                filter (fun k => negb (is_array_index k)) l = []).
  { induction l as [|k l IH]; simpl; [auto|]. intros Hl.
    apply andb_true_iff in Hl. destruct Hl as [Hk Hl].
    destruct (IH Hl) as [E1 E2]. rewrite Hk, E1, E2. auto. }
  destruct (E _ H) as [E1 E2]. rewrite E1, E2, app_nil_r.
  split; [reflexivity | apply sort_keys_sorted].
Qed.

(** ** The orchestrator *)

Lemma divide_out_safe (fuel : nat) (p : Z) :
  0 < p ->
  forall n factors,
    1 <= n -> counts factors ->
    safe (divide_out fuel p n factors)
      (fun fn => product (fst fn) * snd fn = product factors * n /\
                 counts (fst fn) /\ 1 <= snd fn <= n).
Proof.
  intros Hp. induction fuel as [|fuel IH]; intros n factors Hn Hc; simpl;
    rewrite js_rem_ret by lia; simpl;
    destruct (Z.eqb_spec (Z.rem n p) 0) as [He|Hne]; simpl;
    try (repeat split; auto; lia).
  pose proof (Z.quot_rem' n p) as E. rewrite He, Z.add_0_r in E.
  destruct (incr_product factors p Hc) as [Hprod Hc'].
  assert (Hq : 1 <= Z.quot n p <= n) by nia.
  eapply safe_weaken; [apply IH; [lia | exact Hc']|].
  intros [f n'] (H1 & H2 & H3); simpl in *.
  split; [|split; [assumption | lia]].
  rewrite H1, Hprod. rewrite E at 2. ring.
Qed.

Lemma trial_division_safe (fuel : nat) (primes : list Z) :
  Forall (fun p => 0 < p) primes ->
  forall n factors,
    1 <= n -> counts factors ->
    safe (trial_division fuel primes n factors)
      (fun fn => product (fst fn) * snd fn = product factors * n /\
                 counts (fst fn) /\ 1 <= snd fn <= n).
Proof.
  induction 1 as [|p primes Hp Hps IH]; intros n factors Hn Hc; simpl.
  - repeat split; auto; lia.
  - destruct (n <? p * p); simpl; [repeat split; auto; lia|].
    eapply safe_rbind; [apply divide_out_safe; eassumption|].
    intros [f n'] (H1 & H2 & H3); simpl in *.
    eapply safe_weaken; [apply IH; [lia | assumption]|].
    intros [f' n''] (H1' & H2' & H3'); simpl in *.
    repeat split; try assumption; lia.
Qed.

(** What a returned factor is worth to the orchestrator: it splits the
    composite [target] into two parts, both at least 2. *)
Lemma rho_result_splits (target g : Z) :
  4 <= target -> rho_result target g ->
  target = g * Z.quot target g /\ 2 <= g /\ 2 <= Z.quot target g.
Proof.
  intros Ht [Heven Hodd].
  destruct (Z.eq_dec (Z.rem target 2) 0) as [He|Ho].
  - rewrite (Heven He). pose proof (Z.quot_rem' target 2). lia.
  - destruct (Hodd Ho) as [[q Hq] Hlt].
    assert (Z.quot target g = q) by (subst target; apply Z.quot_mul; lia).
    nia.
Qed.

(** Each step of the loop keeps the invariant, and raises nothing but the
    exhaustion of the call stack. *)
Lemma stack_step_sound (fuel rfuel depth : nat) (rnd : source) (n : Z)
  (factors : obj) (target : Z) (stack : list Z) (s : nat) :
  well_formed factors (target :: stack) ->
  loop_invariant n factors (target :: stack) ->
  sound (stack_step fuel rfuel depth rnd factors target stack s)
    (fun r => loop_invariant n (fst (fst r)) (snd (fst r)) /\
              well_formed (fst (fst r)) (snd (fst r))).
Proof.
  unfold well_formed, loop_invariant. intros [Hc Hs] Hinv.
  apply Forall_cons_iff in Hs. destruct Hs as [Ht Hstk]. simpl in Hinv.
  unfold stack_step.
  destruct (Z.eqb_spec target 1) as [->|H1]; simpl.
  { split; [lia | split; assumption]. }
  eapply sound_bind; [apply safe_sound, isPrimeMillerRabin_safe|].
  intros [|] s1 Hmr; simpl in Hmr.
  - simpl. destruct (incr_product factors target Hc) as [Hprod Hc'].
    split; [rewrite Hprod; lia | split; assumption].
  - destruct (Hmr eq_refl) as [N2 N3].
    eapply sound_bind; [apply pollardRho_sound; lia|].
    intros g s2 [Heven Hodd]; simpl in Heven, Hodd.
    assert (Hg : target = g * Z.quot target g /\ 2 <= g /\ 2 <= Z.quot target g)
      by (apply rho_result_splits; [lia | split; assumption]).
    destruct Hg as (E & Hg2 & Hq2).
    unfold bind, lift. rewrite js_div_ret by lia. simpl.
    split; [rewrite <- Hinv; set (q := Z.quot target g) in *; rewrite E; ring|].
    split; [assumption|]. repeat constructor; try lia. assumption.
Qed.

Lemma stack_loop_sound (fuel rfuel depth : nat) (rnd : source) (n : Z) :
  forall gas factors stack s,
    well_formed factors stack -> loop_invariant n factors stack ->
    sound (stack_loop gas fuel rfuel depth rnd factors stack s)
      (fun fs => product (fst fs) = n /\ counts (fst fs)).
Proof.
  induction gas as [|gas IH]; intros factors [|target stack] s Hw Hinv; simpl;
    try exact I;
    try (unfold loop_invariant in Hinv; simpl in Hinv; destruct Hw; split;
         [lia | assumption]).
  eapply sound_bind; [apply stack_step_sound; eassumption|].
  intros [f stk] s1 [Hinv' Hw']; simpl in *. apply IH; assumption.
Qed.

(** ** The sieve, sound and complete *)

Lemma slot_inj (i j : Z) : 0 <= i -> 0 <= j -> slot i = slot j -> i = j.
Proof.
  unfold slot. intros Hi Hj H.
  apply (f_equal Z.pos) in H. rewrite !Z2Pos.id in H by lia. lia.
Qed.

Lemma len_write (a : Uint8Array) (i v : Z) : len (write a i v) = len a.
Proof. unfold write. destruct (in_bounds a i); reflexivity. Qed.

Lemma in_bounds_write (a : Uint8Array) (i v j : Z) :
  in_bounds (write a i v) j = in_bounds a j.
Proof. unfold in_bounds. rewrite len_write. reflexivity. Qed.

Lemma read_write_same (a : Uint8Array) (i v : Z) :
  in_bounds a i = true -> read (write a i v) i = Some v.
Proof.
  intros H. unfold read. rewrite in_bounds_write, H.
  unfold write. rewrite H. simpl. rewrite PositiveMap.gss. reflexivity.
Qed.

Lemma read_write_other (a : Uint8Array) (i v j : Z) :
  i <> j -> read (write a i v) j = read a j.
Proof.
  intros Hne. unfold read. rewrite in_bounds_write.
  destruct (in_bounds a j) eqn:Hj; [|reflexivity].
  unfold write. destruct (in_bounds a i) eqn:Hi; [|reflexivity]. simpl.
  rewrite PositiveMap.gso; [reflexivity|].
  unfold in_bounds in Hi, Hj.
  apply andb_true_iff in Hi, Hj. destruct Hi as [Hi _], Hj as [Hj _].
  apply Z.leb_le in Hi, Hj.
  intros E. apply slot_inj in E; lia.
Qed.

(** Clearing a cell clears that cell and no other. *)
Lemma cell_write_zero (a : Uint8Array) (i j : Z) :
  cell (write a i 0) j = negb (j =? i) && cell a j.
Proof.
  unfold cell. destruct (Z.eqb_spec j i) as [->|Hne]; simpl.
  - destruct (in_bounds a i) eqn:Hi.
    + rewrite read_write_same by assumption. reflexivity.
    + unfold write, read. rewrite Hi, Hi. reflexivity.
  - rewrite read_write_other by lia. reflexivity.
Qed.

Lemma fill_from_spec (v : Z) :
  forall (count : nat) (i : Z) (a : Uint8Array),
    0 <= i ->
    len (fill_from count i v a) = len a /\
    forall j,
      read (fill_from count i v a) j =
      if (i <=? j) && (j <? i + Z.of_nat count) && in_bounds a j
      then Some v else read a j.
Proof.
  induction count as [|count IH]; intros i a Hi.
  - split; [reflexivity|]. intros j. cbn [fill_from].
    destruct (Z.leb_spec i j), (Z.ltb_spec j (i + Z.of_nat 0)); cbn [andb];
      try reflexivity; lia.
  - cbn [fill_from]. destruct (IH (i + 1) (write a i v) ltac:(lia)) as [Hl Hr].
    split; [rewrite Hl; apply len_write|]. intros j.
    rewrite Hr, in_bounds_write.
    destruct (Z.eq_dec j i) as [->|Hne].
    + destruct (in_bounds a i) eqn:Hb.
      * destruct (Z.leb_spec (i + 1) i); [lia|]. cbn [andb].
        rewrite read_write_same by assumption.
        destruct (Z.leb_spec i i), (Z.ltb_spec i (i + Z.of_nat (S count)));
          cbn [andb]; try reflexivity; lia.
      * rewrite !andb_false_r. unfold write. rewrite Hb. reflexivity.
    + rewrite read_write_other by lia.
      destruct (Z.leb_spec (i + 1) j), (Z.leb_spec i j),
        (Z.ltb_spec j (i + 1 + Z.of_nat count)),
        (Z.ltb_spec j (i + Z.of_nat (S count))); cbn [andb];
        try reflexivity; lia.
Qed.

Lemma fill_spec (n : Z) :
  0 <= n ->
  len (fill (blank n) 1) = n /\
  forall j, cell (fill (blank n) 1) j = (0 <=? j) && (j <? n).
Proof.
  intros Hn. unfold fill, blank. cbn [len].
  destruct (fill_from_spec 1 (Z.to_nat n) 0 (mkArray n (PositiveMap.empty Z))
              ltac:(lia)) as [Hl Hr].
  split; [exact Hl|]. intros j. unfold cell. rewrite Hr.
  rewrite Z2Nat.id by lia. unfold in_bounds, read, in_bounds. simpl.
  destruct (Z.leb_spec 0 j), (Z.ltb_spec j n); simpl; reflexivity.
Qed.

(** The inner loop clears the multiples it walks over and nothing else. *)
Lemma mark_multiples_spec (p limit : Z) :
  0 < p ->
  forall (budget : nat) (i : Z) (a : Uint8Array),
    limit - i < Z.of_nat budget ->
    len (mark_multiples budget i p limit a) = len a /\
    forall j,
      cell (mark_multiples budget i p limit a) j
      = negb (marked i p limit j) && cell a j.
Proof.
  intros Hp. induction budget as [|budget IH]; intros i a Hb; cbn [mark_multiples];
    destruct (Z.leb_spec i limit) as [Hle|Hgt]; try lia.
  - split; [reflexivity|]. intros j. unfold marked.
    destruct (Z.leb_spec i j), (Z.leb_spec j limit); simpl; try reflexivity; lia.
  - destruct (IH (i + p) (write a i 0) ltac:(lia)) as [Hl Hr].
    split; [rewrite Hl; apply len_write|]. intros j.
    rewrite Hr, cell_write_zero. unfold marked.
    destruct (Z.eqb_spec j i) as [->|Hne]; simpl.
    + rewrite andb_false_r. rewrite Z.sub_diag, Z.mod_0_l by lia.
      destruct (Z.leb_spec i i), (Z.leb_spec i limit); simpl; try reflexivity; lia.
    + f_equal. f_equal.
      replace (j - i) with ((j - (i + p)) + 1 * p) by ring.
      rewrite Z.mod_add by lia.
      destruct (Z.leb_spec (i + p) j), (Z.leb_spec i j), (Z.leb_spec j limit);
        simpl; try reflexivity; try lia.
      (* i < j < i + p: not a multiple *)
      destruct (Z.eqb_spec ((j - (i + p)) mod p) 0) as [E|]; [|reflexivity].
      exfalso. apply Z.mod_divide in E; [|lia]. destruct E as [k Hk].
      assert (k = -1 \/ k <= -2 \/ 0 <= k) by lia. nia.
  - split; [reflexivity|]. intros j. unfold marked.
    destruct (Z.leb_spec i j), (Z.leb_spec j limit); simpl; try reflexivity; lia.
Qed.

Lemma unsieved_dec (j : Z) :
  forall p, unsieved p j \/ exists d, 2 <= d < p /\ (d | j) /\ d <> j.
Proof.
  assert (H : forall k : nat,
             unsieved (Z.of_nat k) j \/
             exists d, 2 <= d < Z.of_nat k /\ (d | j) /\ d <> j).
  { induction k as [|k IH].
    - left. intros d Hd. lia.
    - destruct IH as [IH|(d & Hd & Hdiv & Hne)].
      + destruct (Z.BoolSpec_divide (Z.of_nat k) j) as [Hdiv|Hndiv].
        * destruct (Z.eq_dec (Z.of_nat k) j) as [E|Hne].
          -- left. intros d Hd Hd'.
             destruct (Z.eq_dec d (Z.of_nat k)); [lia | apply IH; [lia | assumption]].
          -- destruct (Z_lt_le_dec (Z.of_nat k) 2).
             ++ left. intros d Hd Hd'. lia.
             ++ right. exists (Z.of_nat k). repeat split; try assumption; lia.
        * left. intros d Hd Hd'.
          destruct (Z.eq_dec d (Z.of_nat k)) as [->|];
            [contradiction | apply IH; [lia | assumption]].
      + right. exists d. repeat split; try assumption; lia. }
  intros p. destruct (Z_lt_le_dec p 0) as [Hneg|Hpos].
  - left. intros d Hd. lia.
  - rewrite <- (Z2Nat.id p Hpos). apply H.
Qed.

Lemma sieved_start (limit : Z) :
  0 <= limit ->
  sieved limit 2 (write (write (fill (blank (limit + 1)) 1) 1 0) 0 0).
Proof.
  intros Hl. destruct (fill_spec (limit + 1) ltac:(lia)) as [Hlen Hcell].
  split; [rewrite !len_write; exact Hlen|]. intros j.
  rewrite !cell_write_zero, Hcell.
  destruct (Z.eqb_spec j 0), (Z.eqb_spec j 1), (Z.leb_spec 0 j),
    (Z.ltb_spec j (limit + 1)); cbn [andb negb]; split;
    try discriminate; try lia; intros _; try reflexivity;
    (split; [lia | intros d Hd; lia]).
Qed.

Lemma sieved_step (limit p : Z) (a : Uint8Array) :
  0 <= limit -> 2 <= p -> p * p <= limit -> sieved limit p a ->
  sieved limit (p + 1)
    (if cell a p then mark_multiples (Z.to_nat limit) (p * p) p limit a else a).
Proof.
  intros Hl Hp Hpp [Hlen Hinv].
  destruct (cell a p) eqn:Hcp.
  - destruct (mark_multiples_spec p limit ltac:(lia) (Z.to_nat limit) (p * p) a
                ltac:(rewrite Z2Nat.id by lia; nia)) as [Hlen' Hcell].
    split; [rewrite Hlen'; exact Hlen|]. intros j. rewrite Hcell.
    rewrite andb_true_iff, negb_true_iff, Hinv. unfold marked.
    split.
    + intros (Hnm & Hj & Hu). split; [assumption|]. intros d Hd Hdiv.
      destruct (Z.eq_dec d p) as [->|Hne]; [|apply Hu; [lia | assumption]].
      destruct Hdiv as [k Hk].
      assert (Hk1 : 1 <= k) by nia.
      destruct (Z.eq_dec k 1) as [->|Hk2]; [lia|].
      destruct (Z_lt_le_dec k p) as [Hlt|Hge].
      * assert (k = j) by (apply Hu; [lia | exists p; lia]). nia.
      * exfalso. destruct (Z.leb_spec (p * p) j); [|nia].
        destruct (Z.leb_spec j limit); [|lia]. cbn [andb] in Hnm.
        apply Z.eqb_neq in Hnm. apply Hnm. apply Z.mod_divide; [lia|].
        exists (k - p). nia.
    + intros (Hj & Hu). split; [|split; [assumption|]].
      * destruct (Z.leb_spec (p * p) j); [|reflexivity].
        destruct (Z.leb_spec j limit); [|reflexivity]. cbn [andb].
        apply Z.eqb_neq. intros E. apply Z.mod_divide in E; [|lia].
        assert (p = j).
        { apply Hu; [lia|]. destruct E as [k Hk]. exists (k + p). nia. }
        nia.
      * intros d Hd. apply Hu. lia.
  - split; [exact Hlen|]. intros j. rewrite Hinv. split.
    + intros (Hj & Hu). split; [assumption|]. intros d Hd Hdiv.
      destruct (Z.eq_dec d p) as [->|Hne]; [|apply Hu; [lia | assumption]].
      exfalso.
      destruct (unsieved_dec p p) as [Hup|(d & Hd' & Hdp & Hdne)].
      * assert (cell a p = true) by (apply Hinv; split; [nia | assumption]).
        congruence.
      * assert (d = j) by (apply Hu; [lia | eapply Z.divide_trans; eassumption]).
        subst d. apply Z.divide_pos_le in Hdiv; lia.
    + intros (Hj & Hu). split; [assumption|]. intros d Hd. apply Hu. lia.
Qed.

Lemma sieve_loop_spec (limit : Z) :
  0 <= limit ->
  forall (budget : nat) (p : Z) (a : Uint8Array),
    2 <= p -> limit + 2 <= p + Z.of_nat budget -> sieved limit p a ->
    exists p', 2 <= p' /\ limit < p' * p' /\
               sieved limit p' (sieve_loop budget p limit a).
Proof.
  intros Hl. induction budget as [|budget IH]; intros p a Hp Hb Hs;
    cbn [sieve_loop]; destruct (Z.leb_spec (p * p) limit) as [Hle|Hgt];
    try (exists p; split; [lia | split; [lia | assumption]]).
  - nia.
  - apply IH; [lia | lia|]. apply sieved_step; assumption.
Qed.

(** A number above 1 is prime when it has no divisor below itself. *)
Lemma prime_unsieved (n : Z) : 1 < n -> (Z.prime n <-> unsieved n n).
Proof.
  intros Hn. split.
  - intros [_ Hp] d Hd Hdiv. exfalso. apply (Hp d); [lia | assumption].
  - intros Hu. split; [assumption|]. intros m Hm Hdiv.
    assert (m = n) by (apply Hu; [lia | assumption]). lia.
Qed.

(** A proper divisor comes with one up to the square root. *)
Lemma small_divisor (n d : Z) :
  2 <= d < n -> (d | n) -> exists e, 2 <= e /\ e * e <= n /\ (e | n).
Proof.
  intros Hd [k Hk]. assert (2 <= k) by nia.
  destruct (Z_le_gt_dec d k).
  - exists d. repeat split; [lia | nia | exists k; assumption].
  - exists k. repeat split; [lia | nia | exists d; lia].
Qed.

Lemma prime_divisor (n : Z) : 1 < n -> exists q, Z.prime q /\ (q | n).
Proof.
  assert (H : forall (k : nat) n, 1 < n <= Z.of_nat k ->
                exists q, Z.prime q /\ (q | n)).
  { induction k as [|k IH]; intros m Hm; [lia|].
    destruct (unsieved_dec m m) as [Hu|(d & Hd & Hdiv & _)].
    - exists m. split; [apply prime_unsieved; [lia | assumption]|].
      apply Z.divide_refl.
    - destruct (IH d ltac:(lia)) as (q & Hq & Hqd).
      exists q. split; [assumption|]. eapply Z.divide_trans; eassumption. }
  intros Hn. apply (H (Z.to_nat n)). lia.
Qed.

(** A composite number has a prime divisor up to its square root. *)
Lemma small_prime_divisor (n : Z) :
  1 < n -> ~ Z.prime n -> exists q, Z.prime q /\ (q | n) /\ q * q <= n.
Proof.
  intros Hn Hnp.
  destruct (unsieved_dec n n) as [Hu|(d & Hd & Hdiv & _)].
  - exfalso. apply Hnp. apply prime_unsieved; assumption.
  - destruct (small_divisor n d Hd Hdiv) as (e & He & Hee & Hen).
    destruct (prime_divisor e ltac:(lia)) as (q & Hq & Hqe).
    exists q. split; [assumption|]. split.
    + eapply Z.divide_trans; eassumption.
    + pose proof (Z.prime_ge_2 q Hq). apply Z.divide_pos_le in Hqe; [|lia]. nia.
Qed.

(** When the outer loop has passed the square root of [limit], the cells
    still set are the primes. *)
Lemma sieved_primes (limit p : Z) (a : Uint8Array) :
  2 <= p -> limit < p * p -> sieved limit p a ->
  forall j, cell a j = true <-> Z.prime j /\ j <= limit.
Proof.
  intros Hp Hpp [_ Hinv] j. rewrite Hinv. split.
  - intros (Hj & Hu). split; [|lia]. apply prime_unsieved; [lia|].
    destruct (unsieved_dec j j) as [|(d & Hd & Hdiv & _)]; [assumption|].
    exfalso. destruct (small_divisor j d Hd Hdiv) as (e & He & Hee & Hej).
    assert (e = j) by (apply Hu; [nia | assumption]). nia.
  - intros (Hj & Hle). pose proof (Z.prime_ge_2 j Hj).
    split; [lia|]. intros d Hd Hdiv.
    apply Z.divide_pos_le in Hdiv as Hdle; [|lia].
    destruct (Z.eq_dec d j); [assumption|]. exfalso.
    destruct Hj as [_ Hj]. apply (Hj d); [lia | assumption].
Qed.

Lemma collect_spec (a : Uint8Array) :
  forall (count : nat) (i : Z) (primes : list Z),
    collect count i a primes
    = rev (filter (cell a) (Zrange i count)) ++ primes.
Proof.
  induction count as [|count IH]; intros i primes; cbn [collect Zrange filter];
    [reflexivity|].
  rewrite IH. fold (cell a i). destruct (cell a i); [|reflexivity].
  cbn [rev]. rewrite <- app_assoc. reflexivity.
Qed.

Lemma Zrange_In (count : nat) :
  forall i x, In x (Zrange i count) <-> i <= x < i + Z.of_nat count.
Proof.
  induction count as [|count IH]; intros i x; cbn [Zrange In]; [lia|].
  rewrite IH. lia.
Qed.

Lemma Zrange_sorted (count : nat) :
  forall i, StronglySorted Z.lt (Zrange i count).
Proof.
  induction count as [|count IH]; intros i; cbn [Zrange]; constructor.
  - apply IH.
  - apply Forall_forall. intros x Hx. apply Zrange_In in Hx. lia.
Qed.

Lemma filter_sorted (f : Z -> bool) (l : list Z) :
  StronglySorted Z.lt l -> StronglySorted Z.lt (filter f l).
Proof.
  induction 1 as [|x l Hl IH Hx]; cbn [filter]; [constructor|].
  destruct (f x); [|assumption]. constructor; [assumption|].
  apply Forall_forall. intros y Hy. apply filter_In in Hy.
  rewrite Forall_forall in Hx. apply Hx. tauto.
Qed.

(** The sieve is right: on a table of [limit + 1] cells it yields the
    strictly ascending list of exactly the primes up to [limit]. *)
Lemma sieve_spec (limit : Z) :
  -1 <= limit ->
  StronglySorted Z.lt (sieve limit (fill (blank (limit + 1)) 1)) /\
  forall x,
    In x (sieve limit (fill (blank (limit + 1)) 1)) <->
    Z.prime x /\ x <= limit.
Proof.
  intros Hl'. destruct (Z.eq_dec limit (-1)) as [->|Hne].
  { split; [constructor|]. intros x. split; [intros []|].
    intros [Hx Hle]. pose proof (Z.prime_ge_2 x Hx). lia. }
  assert (Hl : 0 <= limit) by lia.
  unfold sieve. cbv zeta.
  set (a0 := write (write (fill (blank (limit + 1)) 1) 1 0) 0 0).
  destruct (sieve_loop_spec limit Hl (Z.to_nat limit) 2 a0 ltac:(lia)
              ltac:(lia) (sieved_start limit Hl)) as (p & Hp & Hpp & Hs).
  set (a := sieve_loop (Z.to_nat limit) 2 limit a0) in *.
  rewrite collect_spec, app_nil_r. unfold rev'. rewrite <- rev_alt, rev_involutive.
  split.
  - apply filter_sorted, Zrange_sorted.
  - intros x. rewrite filter_In, Zrange_In, (sieved_primes limit p a Hp Hpp Hs).
    split; [tauto|]. intros [Hx Hle]. pose proof (Z.prime_ge_2 x Hx).
    split; [lia | tauto].
Qed.


(** The table of the worker is what the call at start-up returns. *)
Lemma smallPrimes_startup (max_length : Z) :
  PRIME_LIMIT + 1 <= max_length ->
  generatePrimes max_length PRIME_LIMIT = Ret smallPrimes.
Proof.
  intros H. unfold generatePrimes, new_Uint8Array.
  destruct (Z.ltb_spec max_length (PRIME_LIMIT + 1)); [lia|].
  change (PRIME_LIMIT + 1 <? 0) with false.
  change (MAX_SAFE_INTEGER <? PRIME_LIMIT + 1) with false.
  cbn [orb rbind]. unfold smallPrimes. reflexivity.
Qed.

Lemma smallPrimes_run : prime_run PRIME_LIMIT 2 smallPrimes.
Proof.
  destruct (sieve_spec PRIME_LIMIT ltac:(unfold PRIME_LIMIT; lia))
    as [Hs Hin].
  split; [exact Hs|]. intros x.
  change smallPrimes with (sieve PRIME_LIMIT (fill (blank (PRIME_LIMIT + 1)) 1)).
  rewrite Hin.
  split; [|tauto]. intros [Hx Hle]. pose proof (Z.prime_ge_2 x Hx). tauto.
Qed.

(** The sieve yields numbers from 2 on. *)
Lemma smallPrimes_ge_2 : Forall (fun p => 2 <= p) smallPrimes.
Proof.
  generalize smallPrimes_run. generalize smallPrimes. intros l [_ Hin].
  apply Forall_forall. intros p Hp. apply Hin in Hp. cbv beta. lia.
Qed.

Lemma trial_division_smallPrimes_safe (fuel : nat) (n : Z) :
  1 <= n ->
  safe (trial_division fuel smallPrimes n [])
    (fun fn => product (fst fn) * snd fn = n /\
               counts (fst fn) /\ 1 <= snd fn <= n).
Proof.
  intros Hn. generalize smallPrimes_ge_2. generalize smallPrimes.
  intros primes Hge.
  assert (Hpos : Forall (fun p => 0 < p) primes).
  { eapply Forall_impl; [|exact Hge]. intros p Hp. simpl in Hp. lia. }
  eapply safe_weaken.
  - apply (trial_division_safe fuel primes Hpos n []); [lia | constructor].
  - intros [f n'] (H1 & H2 & H3). cbn [fst snd product fold_right] in *.
    repeat split; [lia | assumption | lia | lia].
Qed.

Lemma factorize_sound (fuel rfuel depth : nat) (rnd : source) (n : Z) (s : nat) :
  1 <= n ->
  sound (factorize fuel rfuel depth rnd n s)
    (fun fs => product (fst fs) = n /\ counts (fst fs)).
Proof.
  intros Hn. unfold factorize.
  pose proof (trial_division_smallPrimes_safe fuel n Hn) as Htd.
  revert Htd. generalize (trial_division fuel smallPrimes n []).
  intros td Htd.
  eapply (sound_bind _ _ _
            (fun r => product (fst (fst r)) * snd (fst r) = n /\
                      counts (fst (fst r)) /\ 1 <= snd (fst r))).
  - apply safe_sound. eapply safe_lift; [exact Htd|].
    intros [f n'] (H1 & H2 & H3). cbn [fst snd] in *. tauto.
  - intros [f n'] s1 (H1 & H2 & H3). cbn [fst snd] in *.
    destruct (Z.eqb_spec n' 1) as [->|Hne]; simpl.
    + split; [lia | assumption].
    + apply stack_loop_sound.
      * split; [assumption|]. repeat constructor. lia.
      * unfold loop_invariant. simpl. lia.
Qed.

(** A run of [stack_loop] that returns went through these states. *)
Lemma stack_loop_iterates (fuel rfuel depth : nat) (rnd : source) :
  forall gas factors stack s result s',
    stack_loop gas fuel rfuel depth rnd factors stack s = Ret (result, s') ->
    iterates fuel rfuel depth rnd (factors, stack, s) (result, [], s').
Proof.
  induction gas as [|gas IH]; intros factors [|target stack] s result s' H;
    simpl in H; try discriminate;
    try (injection H as <- <-; constructor).
  unfold bind in H.
  destruct (stack_step fuel rfuel depth rnd factors target stack s)
    as [[[f stk] s1]| |] eqn:Hstep; try discriminate.
  eapply iterates_step; [exact Hstep|]. apply IH. exact H.
Qed.

Lemma iterates_invariant (fuel rfuel depth : nat) (rnd : source) (n : Z)
  (st st' : loop_state) :
  iterates fuel rfuel depth rnd st st' ->
  well_formed (fst (fst st)) (snd (fst st)) ->
  loop_invariant n (fst (fst st)) (snd (fst st)) ->
  well_formed (fst (fst st')) (snd (fst st')) /\
  loop_invariant n (fst (fst st')) (snd (fst st')).
Proof.
  induction 1 as [st|factors target stack s factors' stack' s' st Hstep _ IH];
    intros Hw Hinv; [tauto|]. simpl in *.
  pose proof (stack_step_sound fuel rfuel depth rnd n factors target stack s Hw Hinv)
    as Hsafe.
  rewrite Hstep in Hsafe. simpl in Hsafe. apply IH; tauto.
Qed.

(** ** Primality of small numbers, by trial *)

Lemma no_divisor_spec (count : nat) :
  forall d p k,
    0 < d -> no_divisor count d p = true ->
    d <= k < d + Z.of_nat count -> ~ (k | p).
Proof.
  induction count as [|count IH]; intros d p k Hd H Hk; [lia|].
  simpl in H. apply andb_true_iff in H. destruct H as [H1 H2].
  destruct (Z.eq_dec k d) as [->|Hne].
  - intros Hdiv. apply Z.mod_divide in Hdiv; [|lia].
    rewrite Hdiv in H1. discriminate.
  - apply (IH (d + 1) p k); [lia | assumption | lia].
Qed.

Lemma prime_check (p : Z) :
  1 < p -> no_divisor (Z.to_nat (p - 2)) 2 p = true -> Z.prime p.
Proof.
  intros Hp H. split; [assumption|]. intros k Hk.
  apply (no_divisor_spec _ 2 p k ltac:(lia) H). lia.
Qed.

Lemma prime_5 : Z.prime 5.
Proof. apply prime_check; [lia | reflexivity]. Qed.

Lemma prime_17 : Z.prime 17.
Proof. apply prime_check; [lia | reflexivity]. Qed.

Lemma rnd0_valid : valid_source rnd0.
Proof. intros i. unfold rnd0, MAX_SAFE_INTEGER. lia. Qed.

(** ** Runs of [factorize] whose remainder after trial division is prime *)

Lemma stack_loop_nil (gas fuel rfuel depth : nat) (rnd : source) (factors : obj) :
  stack_loop gas fuel rfuel depth rnd factors [] = ret factors.
Proof. destruct gas; reflexivity. Qed.

Lemma factorize_prime_remainder (fuel rfuel depth : nat) (rnd : source) (n : Z)
  (s : nat) (factors : obj) (m : Z) :
  trial_division fuel smallPrimes n [] = Ret (factors, m) ->
  Z.prime m -> valid_source rnd ->
  Z.log2 m <= Z.of_nat fuel -> (1 <= fuel)%nat ->
  exists s', factorize fuel rfuel depth rnd n s = Ret (incr factors m, s').
Proof.
  intros Htd Hp Hv Hlog Hfuel. pose proof (Z.prime_ge_2 m Hp) as Hm.
  destruct (isPrimeMillerRabin_prime fuel rnd m 5 s Hp Hv Hlog) as [s' Hmr].
  exists s'. unfold factorize, bind, lift. rewrite Htd. cbn [rbind].
  destruct (Z.eqb_spec m 1) as [|_]; [lia|].
  destruct fuel as [|gas]; [lia|].
  cbn [stack_loop]. unfold bind, stack_step.
  destruct (Z.eqb_spec m 1) as [|_]; [lia|].
  unfold bind. rewrite Hmr. cbn [ret]. rewrite stack_loop_nil. reflexivity.
Qed.

(** ** Numbers the table cannot split *)

(** Primality by trial up to the square root. *)
Lemma prime_check_sqrt (count : nat) (p : Z) :
  1 < p -> no_divisor count 2 p = true ->
  p < (2 + Z.of_nat count) * (2 + Z.of_nat count) -> Z.prime p.
Proof.
  intros Hp H Hsq. split; [assumption|]. intros k Hk Hdiv.
  destruct (small_divisor p k ltac:(lia) Hdiv) as (e & He & Hee & Hep).
  apply (no_divisor_spec count 2 p e ltac:(lia) H); [nia | exact Hep].
Qed.

Lemma prime_100003 : Z.prime 100003.
Proof.
  apply (prime_check_sqrt 316); [lia | vm_compute; reflexivity | lia].
Qed.

(** Trial division by numbers none of which divides [n] records nothing
    and leaves [n]. *)
Lemma trial_division_coprime (fuel : nat) (n : Z) (factors : obj)
  (l : list Z) :
  Forall (fun p => p <> 0 /\ Z.rem n p <> 0) l ->
  trial_division fuel l n factors = Ret (factors, n).
Proof.
  induction 1 as [|p l [Hp Hr] _ IH]; cbn [trial_division]; [reflexivity|].
  destruct (n <? p * p); [reflexivity|].
  assert (E : divide_out fuel p n factors = Ret (factors, n)).
  { destruct fuel; cbn [divide_out]; rewrite js_rem_ret by assumption;
      cbn [rbind]; destruct (Z.eqb_spec (Z.rem n p) 0); (contradiction || reflexivity). }
  rewrite E. cbn [rbind fst snd]. exact IH.
Qed.

(** The table cannot split a product of two primes above [PRIME_LIMIT]. *)
Lemma trial_division_large_primes (fuel : nat) (a b : Z) (factors : obj) :
  Z.prime a -> Z.prime b -> PRIME_LIMIT < a -> PRIME_LIMIT < b ->
  trial_division fuel smallPrimes (a * b) factors = Ret (factors, a * b).
Proof.
  intros Ha Hb Hla Hlb. apply trial_division_coprime.
  generalize smallPrimes_run. generalize smallPrimes. intros l [_ Hin].
  apply Forall_forall. intros p Hp. apply Hin in Hp. destruct Hp as [Hp Hpb].
  split; [lia|]. intros Hr.
  apply Z.rem_divide in Hr; [|lia].
  apply Z.divide_prime_mul in Hr; [|exact Hp].
  destruct Hr as [Hd|Hd].
  - destruct Ha as [_ Ha]. apply (Ha p); [lia | exact Hd].
  - destruct Hb as [_ Hb]. apply (Hb p); [lia | exact Hd].
Qed.

(** The table is not consulted below 4. *)
Lemma trial_division_below_4 (fuel : nat) (l : list Z) (n : Z)
  (factors : obj) :
  Forall (fun p => 2 <= p) l -> n < 4 ->
  trial_division fuel l n factors = Ret (factors, n).
Proof.
  intros Hl Hn. destruct Hl as [|p l Hp _]; cbn [trial_division];
    [reflexivity|].
  destruct (Z.ltb_spec n (p * p)); [reflexivity | nia].
Qed.

(** ** A run that ends without a result *)

Lemma stuck_trial_division (fuel : nat) :
  trial_division fuel smallPrimes stuck_n [] = Ret ([], stuck_n).
Proof.
  unfold stuck_n.
  apply trial_division_large_primes;
    try exact prime_100003; unfold PRIME_LIMIT; lia.
Qed.

Lemma stuck_isPrime (fuel s : nat) :
  isPrimeMillerRabin fuel stuck_source stuck_n 5 s = Timeout \/
  isPrimeMillerRabin fuel stuck_source stuck_n 5 s = Ret (false, S s).
Proof.
  do 40 (destruct fuel as [|fuel];
         [first [left; vm_compute; reflexivity
                | right; vm_compute; reflexivity]|]).
  right. vm_compute. reflexivity.
Qed.

Lemma gcd_zero_l (fuel : nat) (n : Z) : 0 < n -> gcd (S fuel) 0 n = Ret n.
Proof.
  intros Hn. cbn [gcd]. destruct (Z.ltb_spec 0 n); [|lia].
  rewrite Z.rem_0_l by lia. apply gcd_zero_r.
Qed.

(** The walk from the fixed point 2 ends at once on the trivial divisor. *)
Lemma stuck_walk (retry : M Z) (fuel s : nat) :
  rho_loop retry (S fuel) stuck_n (stuck_n - 2) 2 2 s = retry s.
Proof.
  cbn [rho_loop].
  assert (E : Z.rem (2 * 2 + (stuck_n - 2)) stuck_n = 2)
    by (vm_compute; reflexivity).
  rewrite !E. change (2 <? 2) with false. cbv iota.
  change (2 - 2) with 0. unfold bind, lift.
  rewrite gcd_zero_l by (vm_compute; reflexivity).
  cbn [rbind]. rewrite Z.eqb_refl. reflexivity.
Qed.

Lemma stuck_draws :
  (Z.rem stuck_n 2 =? 0) = false /\
  (forall s, randBigInt stuck_source 2 (stuck_n - 1) s = Ret (2, S s)) /\
  (forall s, randBigInt stuck_source 1 (stuck_n - 1) s
             = Ret (stuck_n - 2, S s)).
Proof.
  split; [vm_compute; reflexivity|].
  split; intros s; vm_compute; reflexivity.
Qed.

(** Every attempt is retried: the retries fill the call stack, however
    deep it is. *)
Lemma stuck_pollardRho (rfuel : nat) :
  forall depth s,
    pollardRho (S rfuel) depth stuck_source stuck_n s = Throw StackOverflow.
Proof.
  destruct stuck_draws as (Hodd & Hx & Hc).
  induction depth as [|depth IH]; intros s; rewrite pollardRho_unfold, Hodd;
    unfold bind at 1; rewrite Hx; unfold bind at 1; rewrite Hc;
    rewrite stuck_walk; [reflexivity | apply IH].
Qed.

Lemma stuck_pollardRho_no_fuel (depth s : nat) :
  pollardRho 0 depth stuck_source stuck_n s = Timeout.
Proof.
  destruct stuck_draws as (Hodd & Hx & Hc).
  rewrite pollardRho_unfold, Hodd.
  unfold bind at 1. rewrite Hx. unfold bind at 1. rewrite Hc. reflexivity.
Qed.

Lemma stuck_factorize_no_result (fuel rfuel depth s : nat) (f : obj)
  (s' : nat) :
  factorize fuel rfuel depth stuck_source stuck_n s <> Ret (f, s').
Proof.
  unfold factorize, bind, lift.
  rewrite stuck_trial_division. cbn [rbind].
  change (stuck_n =? 1) with false. cbv iota.
  generalize fuel at 1. intros [|gas]; [discriminate|].
  cbn [stack_loop]. unfold bind, stack_step.
  change (stuck_n =? 1) with false. cbv iota.
  unfold bind.
  destruct (stuck_isPrime fuel s) as [E|E]; rewrite E; [discriminate|].
  destruct rfuel as [|rfuel].
  - rewrite stuck_pollardRho_no_fuel. discriminate.
  - rewrite stuck_pollardRho. discriminate.
Qed.

Lemma stuck_factorize (rfuel depth s : nat) :
  factorize 40 (S rfuel) depth stuck_source stuck_n s = Throw StackOverflow.
Proof.
  unfold factorize, bind, lift.
  rewrite stuck_trial_division. cbn [rbind].
  change (stuck_n =? 1) with false. cbv iota.
  cbn [stack_loop]. unfold bind, stack_step.
  change (stuck_n =? 1) with false. cbv iota.
  unfold bind.
  assert (E : isPrimeMillerRabin 40 stuck_source stuck_n 5 s
              = Ret (false, S s)) by (vm_compute; reflexivity).
  rewrite E, stuck_pollardRho. reflexivity.
Qed.

Lemma stuck_facts : 1 <= stuck_n /\ valid_source stuck_source.
Proof.
  split; [vm_compute; discriminate|].
  intros i; vm_compute; split; discriminate.
Qed.

(** ** Termination of trial division *)

Lemma divide_out_ret (p : Z) :
  2 <= p ->
  forall (fuel : nat) n factors,
    1 <= n <= Z.of_nat fuel ->
    exists f m, divide_out fuel p n factors = Ret (f, m).
Proof.
  intros Hp. induction fuel as [|fuel IH]; intros n factors Hn; [lia|].
  cbn [divide_out]. rewrite js_rem_ret by lia. cbn [rbind].
  destruct (Z.eqb_spec (Z.rem n p) 0) as [He|Hne]; [|eauto].
  pose proof (Z.quot_rem' n p) as E. rewrite He, Z.add_0_r in E.
  apply IH. nia.
Qed.

Lemma trial_division_ret (fuel : nat) (primes : list Z) :
  Forall (fun p => 2 <= p) primes ->
  forall n factors,
    1 <= n <= Z.of_nat fuel -> counts factors ->
    exists f m, trial_division fuel primes n factors = Ret (f, m).
Proof.
  induction 1 as [|p primes Hp Hps IH]; intros n factors Hn Hc;
    cbn [trial_division]; [eauto|].
  cbv beta in Hp. destruct (n <? p * p); [eauto|].
  destruct (divide_out_ret p Hp fuel n factors Hn) as (f & m & Hd).
  pose proof (divide_out_safe fuel p ltac:(lia) n factors ltac:(lia) Hc) as Hs.
  rewrite Hd in Hs |- *. cbn [safe rbind fst snd] in Hs |- *.
  apply IH; [lia | tauto].
Qed.

Lemma stack_weight_cons (t : Z) (stack : list Z) :
  stack_weight (t :: stack) = 2 * t - 1 + stack_weight stack.
Proof. reflexivity. Qed.

Lemma stack_weight_nonneg (stack : list Z) :
  Forall (fun t => 1 <= t) stack -> 0 <= stack_weight stack.
Proof.
  induction 1 as [|t stack Ht _ IH]; [cbn; lia|].
  rewrite stack_weight_cons. lia.
Qed.

(** ** The message handler *)

Lemma digit_facts (c : N) :
  is_digit c = true ->
  is_white_space c = false /\
  ((c =? 43) = false /\ (c =? 45) = false)%N /\
  ((c =? 120) || (c =? 88) = false /\
   (c =? 111) || (c =? 79) = false /\
   (c =? 98) || (c =? 66) = false)%N /\
  exists v, digit_value c = Some v /\ 0 <= v < 10.
Proof.
  unfold is_digit. intros H. apply andb_true_iff in H. destruct H as [H1 H2].
  apply N.leb_le in H1, H2.
  assert (E : In c [48; 49; 50; 51; 52; 53; 54; 55; 56; 57]%N)
    by (simpl; lia).
  simpl in E.
  repeat (destruct E as [<-|E];
          [repeat split; try reflexivity; eexists; split;
             [reflexivity | lia]|]).
  contradiction.
Qed.

Lemma drop_white_space_digit (c : N) (s : jsstring) :
  is_digit c = true -> drop_white_space (c :: s) = c :: s.
Proof.
  intros H. destruct (digit_facts c H) as (Hws & _). simpl. rewrite Hws.
  reflexivity.
Qed.

Lemma trim_decimal (s : jsstring) :
  non_negative_decimal s = true -> trim s = s.
Proof.
  destruct s as [|c s]; [discriminate|]. unfold non_negative_decimal.
  intros H. rewrite forallb_forall in H. unfold trim.
  rewrite drop_white_space_digit by (apply H; left; reflexivity).
  destruct (rev (c :: s)) as [|d t] eqn:E.
  - apply (f_equal (@List.length N)) in E. rewrite length_rev in E.
    discriminate.
  - rewrite drop_white_space_digit.
    + rewrite <- E. apply rev_involutive.
    + apply H. apply in_rev. rewrite E. left. reflexivity.
Qed.

Lemma digits_from_decimal (s : jsstring) :
  forall acc,
    forallb is_digit s = true -> 0 <= acc ->
    exists n, 0 <= n /\ digits_from 10 acc s = Some n.
Proof.
  induction s as [|c s IH]; intros acc H Hacc; cbn [digits_from].
  - exists acc. split; [assumption | reflexivity].
  - simpl in H. apply andb_true_iff in H. destruct H as [Hc Hs].
    destruct (digit_facts c Hc) as (_ & _ & _ & v & Hv & Hr).
    rewrite Hv. destruct (Z.ltb_spec v 10); [|lia].
    apply IH; [assumption | lia].
Qed.

(** A string of decimal digits is parsed, to a non-negative value. *)
Lemma decimal_parses (s : jsstring) :
  non_negative_decimal s = true ->
  exists n, 0 <= n /\ StringToBigInt s = Some n.
Proof.
  intros H. unfold StringToBigInt. rewrite trim_decimal by assumption.
  destruct s as [|c s]; [discriminate|].
  unfold non_negative_decimal in H.
  assert (Hd : exists n, 0 <= n /\ digits 10 (c :: s) = Some n)
    by (apply digits_from_decimal; [assumption | lia]).
  simpl in H. apply andb_true_iff in H. destruct H as [Hc Hs].
  destruct (digit_facts c Hc) as (_ & (H43 & H45) & _).
  rewrite H43, H45.
  destruct s as [|c' s]; [exact Hd|].
  simpl in Hs. apply andb_true_iff in Hs. destruct Hs as [Hc' Hs].
  destruct (digit_facts c' Hc') as (_ & _ & (Hx & Ho & Hb) & _).
  rewrite Hx, Ho, Hb, andb_false_r. exact Hd.
Qed.

Lemma drop_white_space_split (s : jsstring) :
  exists w, s = w ++ drop_white_space s /\ forallb is_white_space w = true.
Proof.
  induction s as [|c s (w & E & Hw)]; [exists []; split; reflexivity|].
  cbn [drop_white_space]. destruct (is_white_space c) eqn:Hc.
  - exists (c :: w). split; [simpl; congruence|]. simpl. rewrite Hc. exact Hw.
  - exists []. split; reflexivity.
Qed.

Lemma trim_split (s : jsstring) :
  exists w1 w2,
    s = w1 ++ trim s ++ w2 /\
    forallb is_white_space w1 = true /\ forallb is_white_space w2 = true.
Proof.
  destruct (drop_white_space_split s) as (w1 & E1 & H1).
  destruct (drop_white_space_split (rev (drop_white_space s)))
    as (w2 & E2 & H2).
  exists w1, (rev w2). split; [|split; [exact H1|]].
  - unfold trim. rewrite <- rev_app_distr, <- E2, rev_involutive. exact E1.
  - rewrite forallb_forall in *. intros c Hc. apply H2. apply in_rev. exact Hc.
Qed.

Lemma digits_from_units (radix : Z) (s : jsstring) :
  forall acc v,
    digits_from radix acc s = Some v -> forallb literal_unit s = true.
Proof.
  induction s as [|c s IH]; intros acc v H; [reflexivity|].
  cbn [digits_from] in H. cbn [forallb].
  destruct (digit_value c) as [d|] eqn:Hd; [|discriminate H].
  destruct (d <? radix); [|discriminate H].
  rewrite (IH _ _ H), andb_true_r. unfold literal_unit. rewrite Hd.
  rewrite !orb_true_r. reflexivity.
Qed.

Lemma digits_units (radix : Z) (s : jsstring) (v : Z) :
  digits radix s = Some v -> forallb literal_unit s = true.
Proof.
  destruct s as [|c s]; [discriminate|]. apply digits_from_units.
Qed.

Lemma white_space_units (w : jsstring) :
  forallb is_white_space w = true -> forallb literal_unit w = true.
Proof.
  rewrite !forallb_forall. intros H c Hc. unfold literal_unit.
  rewrite (H c Hc). reflexivity.
Qed.

(** A text that [BigInt] accepts is made of such code units only. *)
Lemma parsed_units (s : jsstring) (n : Z) :
  StringToBigInt s = Some n -> forallb literal_unit s = true.
Proof.
  unfold StringToBigInt. destruct (trim_split s) as (w1 & w2 & E & H1 & H2).
  intros H. rewrite E, !forallb_app.
  rewrite (white_space_units w1 H1), (white_space_units w2 H2), andb_true_r.
  cbn [andb]. revert H. generalize (trim s). clear. intros t H.
  destruct t as [|c t]; [reflexivity|].
  destruct (N.eqb_spec c 43) as [->|_].
  { cbn [forallb]. rewrite (digits_units 10 t n H). reflexivity. }
  destruct (N.eqb_spec c 45) as [->|_].
  { cbn [forallb]. destruct (digits 10 t) as [v|] eqn:Hv; [|discriminate H].
    rewrite (digits_units 10 t v Hv). reflexivity. }
  destruct t as [|c' t]; [exact (digits_units 10 _ n H)|].
  destruct ((c =? 48) && ((c' =? 120) || (c' =? 88)))%N eqn:Hx.
  { apply andb_true_iff in Hx. destruct Hx as [H0 Hx].
    apply N.eqb_eq in H0. subst c. cbn [forallb].
    rewrite (digits_units 16 t n H), andb_true_r.
    apply orb_true_iff in Hx. unfold literal_unit at 2.
    destruct Hx as [-> | ->]; rewrite ?orb_true_r; reflexivity. }
  destruct ((c =? 48) && ((c' =? 111) || (c' =? 79)))%N eqn:Ho.
  { apply andb_true_iff in Ho. destruct Ho as [H0 Ho].
    apply N.eqb_eq in H0. subst c. cbn [forallb].
    rewrite (digits_units 8 t n H), andb_true_r.
    apply orb_true_iff in Ho. unfold literal_unit at 2.
    destruct Ho as [-> | ->]; rewrite ?orb_true_r; reflexivity. }
  destruct ((c =? 48) && ((c' =? 98) || (c' =? 66)))%N eqn:Hb.
  { apply andb_true_iff in Hb. destruct Hb as [H0 Hb].
    apply N.eqb_eq in H0. subst c. cbn [forallb].
    rewrite (digits_units 2 t n H), andb_true_r.
    apply orb_true_iff in Hb.
    destruct Hb as [Hb|Hb]; apply N.eqb_eq in Hb; subst c'; reflexivity. }
  exact (digits_units 10 _ n H).
Qed.

(** On 0 the reduction never ends: [pollardRho 0] is 2 and [0 / 2] is 0
    again. *)
Lemma stack_loop_zero (fuel rfuel depth : nat) (rnd : source) :
  forall gas factors stack s,
    stack_loop gas fuel rfuel depth rnd factors (0 :: stack) s = Timeout.
Proof.
  induction gas as [|gas IH]; intros factors stack s; [reflexivity|].
  cbn [stack_loop]. unfold bind at 1.
  assert (E : stack_step fuel rfuel depth rnd factors 0 stack s
              = Ret ((factors, 0 :: 2 :: stack), s))
    by (destruct depth; reflexivity).
  rewrite E. apply IH.
Qed.

Lemma factorize_zero (fuel rfuel depth : nat) (rnd : source) (s : nat) :
  factorize fuel rfuel depth rnd 0 s = Timeout.
Proof.
  assert (E : trial_division fuel smallPrimes 0 [] = Ret ([], 0))
    by (apply trial_division_below_4; [exact smallPrimes_ge_2 | lia]).
  unfold factorize, bind, lift. rewrite E. cbn [rbind].
  change (0 =? 1) with false. cbv iota. apply stack_loop_zero.
Qed.

(** ** The object [factors] *)

Lemma get_set_same (o : obj) (k v : Z) : get (set o k v) k = Some v.
Proof.
  induction o as [|[k0 v0] o IH]; cbn [set get].
  - rewrite Z.eqb_refl. reflexivity.
  - destruct (Z.eqb_spec k0 k) as [->|Hne]; cbn [get].
    + rewrite Z.eqb_refl. reflexivity.
    + destruct (Z.eqb_spec k0 k); [contradiction | exact IH].
Qed.

Lemma get_set_other (o : obj) (k v k' : Z) :
  k <> k' -> get (set o k v) k' = get o k'.
Proof.
  intros Hne. induction o as [|[k0 v0] o IH]; cbn [set get].
  - destruct (Z.eqb_spec k k'); [contradiction | reflexivity].
  - destruct (Z.eqb_spec k0 k) as [->|Hne0]; cbn [get].
    + destruct (Z.eqb_spec k k'); [contradiction | reflexivity].
    + rewrite IH. reflexivity.
Qed.

(** The keys after an assignment: unchanged for a key that is present, one
    more at the end otherwise. *)
Lemma keys_set (o : obj) (k v : Z) :
  map fst (set o k v)
  = match get o k with
    | Some _ => map fst o
    | None => map fst o ++ [k]
    end.
Proof.
  induction o as [|[k0 v0] o IH]; cbn [set get map fst app]; [reflexivity|].
  destruct (Z.eqb_spec k0 k) as [->|Hne]; cbn [map fst]; [reflexivity|].
  rewrite IH. destruct (get o k); reflexivity.
Qed.

Lemma get_In (o : obj) (k : Z) :
  In k (map fst o) <-> get o k <> None.
Proof.
  induction o as [|[k0 v0] o IH]; cbn [get map fst In]; [tauto|].
  destruct (Z.eqb_spec k0 k) as [->|Hne]; [split; [discriminate | auto]|].
  rewrite IH. tauto.
Qed.

Lemma keys_incr (o : obj) (p : Z) :
  NoDup (map fst o) -> NoDup (map fst (incr o p)) /\
  forall k, In k (map fst (incr o p)) <-> k = p \/ In k (map fst o).
Proof.
  intros Hnd. unfold incr. rewrite keys_set.
  destruct (get o p) as [v|] eqn:E.
  - split; [assumption|]. intros k. split; [tauto|].
    intros [->|H]; [|assumption]. apply get_In. congruence.
  - split.
    + apply NoDup_app; [assumption | repeat constructor; intros [] |].
      intros k Hk [<-|[]]. apply get_In in Hk. contradiction.
    + intros k. rewrite in_app_iff. cbn [In]. intuition congruence.
Qed.

(** Recording [p] keeps exponents at 1 or more, and any property of the
    keys that [p] has. *)
Lemma incr_entries (K : Z -> Prop) (o : obj) (p : Z) :
  Forall (fun kv => K (fst kv) /\ 1 <= snd kv) o -> K p ->
  Forall (fun kv => K (fst kv) /\ 1 <= snd kv) (incr o p).
Proof.
  intros Ho Hp. unfold incr. induction Ho as [|[k v] o [Hk Hv] Ho IH];
    cbn [set get].
  - constructor; [|constructor]. cbn [fst snd or_zero]. split; [assumption | lia].
  - cbn [fst snd] in Hk, Hv.
    destruct (Z.eqb_spec k p) as [->|Hne].
    + constructor; [|assumption]. cbn [fst snd or_zero]. split; [assumption|].
      destruct (Z.eqb_spec v 0); lia.
    + constructor; [split; assumption | exact IH].
Qed.

(** The exponent of [p] goes up by one, from 0 if [p] was not recorded;
    the other entries stay. *)
Lemma get_incr (o : obj) (p k : Z) :
  get (incr o p) k
  = if k =? p then Some (or_zero (get o p) + 1) else get o k.
Proof.
  unfold incr. destruct (Z.eqb_spec k p) as [->|Hne].
  - apply get_set_same.
  - apply get_set_other. lia.
Qed.

(** A key with a positive exponent divides the product. *)
Lemma key_divides_product (o : obj) (k e : Z) :
  In (k, e) o -> 1 <= e -> (k | product o).
Proof.
  induction o as [|[k0 e0] o IH]; cbn [In product fold_right fst snd];
    [tauto|].
  intros [E|H] He.
  - injection E as -> ->. apply Z.divide_mul_l.
    replace e with (Z.succ (e - 1)) by lia. rewrite Z.pow_succ_r by lia.
    apply Z.divide_mul_l, Z.divide_refl.
  - apply Z.divide_mul_r. apply IH; assumption.
Qed.

(** ** Trial division *)

(** The inner loop, in full: it returns when [p] no longer divides, having
    divided [k] times and recorded [p] as often. *)
Lemma divide_out_spec (p : Z) :
  2 <= p ->
  forall (fuel : nat) n factors f m,
    1 <= n ->
    divide_out fuel p n factors = Ret (f, m) ->
    exists k : nat,
      n = p ^ Z.of_nat k * m /\ ~ (p | m) /\ 1 <= m /\
      f = Nat.iter k (fun o => incr o p) factors.
Proof.
  intros Hp. induction fuel as [|fuel IH]; intros n factors f m Hn H;
    cbn [divide_out] in H; rewrite js_rem_ret in H by lia; cbn [rbind] in H;
    destruct (Z.eqb_spec (Z.rem n p) 0) as [He|Hne]; try discriminate.
  1, 3: injection H as <- <-; exists 0%nat;
    change (p ^ Z.of_nat 0) with 1;
    repeat split; [lia | | lia];
    intros Hd; apply Hne; rewrite Z.rem_mod_nonneg by lia;
    apply Z.mod_divide; [lia | assumption].
  pose proof (Z.quot_rem' n p) as E. rewrite He, Z.add_0_r in E.
  apply IH in H; [|nia].
  destruct H as (k & Hk & Hnd & Hm & Hf).
  exists (S k). rewrite Nat2Z.inj_succ, Z.pow_succ_r by lia.
  repeat split; try assumption.
  - rewrite E at 1. rewrite Hk. ring.
  - rewrite Nat.iter_succ_r. exact Hf.
Qed.

Lemma divide_out_ret_log (p : Z) :
  2 <= p ->
  forall (fuel : nat) n factors,
    1 <= n -> Z.log2 n < Z.of_nat fuel ->
    exists f m, divide_out fuel p n factors = Ret (f, m).
Proof.
  intros Hp. induction fuel as [|fuel IH]; intros n factors Hn Hf.
  - pose proof (Z.log2_nonneg n). lia.
  - cbn [divide_out]. rewrite js_rem_ret by lia. cbn [rbind].
    destruct (Z.eqb_spec (Z.rem n p) 0) as [He|Hne]; [|eauto].
    pose proof (Z.quot_rem' n p) as E. rewrite He, Z.add_0_r in E.
    assert (Hq : 1 <= Z.quot n p) by nia.
    apply IH; [assumption|].
    assert (Z.quot n p <= Z.quot n 2).
    { rewrite !Z.quot_div_nonneg by lia. apply Z.div_le_compat_l; lia. }
    assert (1 < n) by nia.
    pose proof (log2_quot2 n ltac:(lia)).
    pose proof (Z.log2_le_mono (Z.quot n p) (Z.quot n 2)). lia.
Qed.

Lemma prime_run_cons (bound c p : Z) (l : list Z) :
  prime_run bound c (p :: l) ->
  Z.prime p /\ c <= p <= bound /\
  (forall q, Z.prime q -> c <= q < p -> False) /\
  prime_run bound (p + 1) l.
Proof.
  intros [Hs Hin]. apply StronglySorted_inv in Hs. destruct Hs as [Hs Hlt].
  rewrite Forall_forall in Hlt.
  destruct (proj1 (Hin p) (or_introl eq_refl)) as [Hp Hcp].
  split; [assumption|]. split; [assumption|]. split.
  - intros q Hq Hcq.
    assert (Hqb : c <= q <= bound) by lia.
    destruct (proj2 (Hin q) (conj Hq Hqb)) as [E|Hl]; [lia|].
    apply Hlt in Hl. lia.
  - split; [assumption|]. intros x. split.
    + intros Hx. apply Hlt in Hx as Hpx.
      destruct (proj1 (Hin x) (or_intror Hx)) as [Hx' Hb]. split; [assumption | lia].
    + intros [Hx Hb]. assert (Hxb : c <= x <= bound) by lia.
      destruct (proj2 (Hin x) (conj Hx Hxb)) as [E|Hl]; [lia | assumption].
Qed.

(** A number above 1 with no prime divisor up to its square root is
    prime. *)
Lemma prime_or_not (n : Z) : 1 < n -> Z.prime n \/ ~ Z.prime n.
Proof.
  intros Hn. destruct (unsieved_dec n n) as [Hu|(d & Hd & Hdiv & _)].
  - left. apply prime_unsieved; assumption.
  - right. intros [_ Hp]. apply (Hp d); [lia | assumption].
Qed.

(** What trial division by a run of primes from [c] on leaves of an [n]
    that no prime below [c] divides. *)
Lemma trial_division_remainder (fuel : nat) (bound : Z) (l : list Z) :
  forall c n factors f m,
    prime_run bound c l -> 2 <= c -> 1 <= n ->
    (forall q, Z.prime q -> q < c -> ~ (q | n)) ->
    trial_division fuel l n factors = Ret (f, m) ->
    1 <= m /\ (m | n) /\
    (m = 1 \/ Z.prime m \/ forall q, Z.prime q -> (q | m) -> bound < q).
Proof.
  induction l as [|p l IH]; intros c n factors f m Hrun Hc Hn Hsmall H;
    cbn [trial_division] in H.
  - injection H as <- <-. split; [assumption|]. split; [apply Z.divide_refl|].
    right. right. intros q Hq Hdiv.
    destruct (Z_lt_le_dec bound q) as [|Hle]; [assumption|]. exfalso.
    destruct (Z_lt_le_dec q c) as [Hlt|Hge]; [apply (Hsmall q); assumption|].
    destruct Hrun as [_ Hin]. apply (proj2 (Hin q)). split; [assumption | lia].
  - destruct (prime_run_cons bound c p l Hrun) as (Hp & Hcp & Hgap & Hrun').
    pose proof (Z.prime_ge_2 p Hp) as Hp2.
    assert (Hbelow : forall q, Z.prime q -> q < p -> ~ (q | n)).
    { intros q Hq Hlt. destruct (Z_lt_le_dec q c); [apply Hsmall; assumption|].
      exfalso. apply (Hgap q); [assumption | lia]. }
    destruct (Z.ltb_spec n (p * p)) as [Hlt|Hge].
    + injection H as <- <-. split; [assumption|]. split; [apply Z.divide_refl|].
      destruct (Z.eq_dec n 1) as [|Hn1]; [left; assumption|]. right. left.
      destruct (prime_or_not n ltac:(lia)) as [|Hnp]; [assumption|]. exfalso.
      destruct (small_prime_divisor n ltac:(lia) Hnp) as (q & Hq & Hdiv & Hqq).
      pose proof (Z.prime_ge_2 q Hq).
      apply (Hbelow q); [assumption | nia | assumption].
    + destruct (divide_out fuel p n factors) as [[f1 m1]| |] eqn:Hd;
        cbn [rbind fst snd] in H; try discriminate.
      destruct (divide_out_spec p Hp2 fuel n factors f1 m1 Hn Hd)
        as (k & Hk & Hnd & Hm1 & _).
      assert (Hm1n : (m1 | n)) by (exists (p ^ Z.of_nat k); lia).
      destruct (IH (p + 1) m1 f1 f m Hrun' ltac:(lia) Hm1) as (Hm & Hdiv & Hcases);
        [|exact H|].
      * intros q Hq Hlt Hqm. destruct (Z.eq_dec q p) as [->|]; [contradiction|].
        apply (Hbelow q); [assumption | lia|].
        eapply Z.divide_trans; eassumption.
      * split; [assumption|]. split; [|assumption].
        eapply Z.divide_trans; eassumption.
Qed.

(** Whatever the loops record satisfies what [incr] preserves. *)
Lemma divide_out_records (I : obj -> Prop) (p : Z) :
  (forall o, I o -> I (incr o p)) ->
  forall (fuel : nat) n factors f m,
    I factors -> divide_out fuel p n factors = Ret (f, m) -> I f.
Proof.
  intros Hincr. induction fuel as [|fuel IH]; intros n factors f m HI H;
    cbn [divide_out] in H; destruct (js_rem n p) as [r| |]; cbn [rbind] in H;
    try discriminate; destruct (r =? 0); try discriminate;
    try (injection H as <- <-; assumption).
  eapply IH; [|exact H]. apply Hincr. assumption.
Qed.

Lemma trial_division_records (I : obj -> Prop) (fuel : nat) (l : list Z) :
  (forall o p, In p l -> I o -> I (incr o p)) ->
  forall n factors f m,
    I factors -> trial_division fuel l n factors = Ret (f, m) -> I f.
Proof.
  induction l as [|p l IH]; intros Hincr n factors f m HI H;
    cbn [trial_division] in H.
  - injection H as <- <-. assumption.
  - destruct (n <? p * p); [injection H as <- <-; assumption|].
    destruct (divide_out fuel p n factors) as [[f1 m1]| |] eqn:Hd;
      cbn [rbind fst snd] in H; try discriminate.
    eapply (IH ltac:(intros; apply Hincr; [right|]; assumption)); [|exact H].
    eapply divide_out_records; [|exact HI|exact Hd].
    intros o Ho. apply Hincr; [left; reflexivity | assumption].
Qed.

Lemma trial_division_ret_log (fuel : nat) (l : list Z) :
  Forall (fun p => 2 <= p) l ->
  forall n factors,
    1 <= n -> Z.log2 n < Z.of_nat fuel ->
    exists f m, trial_division fuel l n factors = Ret (f, m).
Proof.
  induction 1 as [|p l Hp Hl IH]; intros n factors Hn Hf;
    cbn [trial_division]; [eauto|].
  cbv beta in Hp. destruct (n <? p * p); [eauto|].
  destruct (divide_out_ret_log p Hp fuel n factors Hn Hf) as (f & m & Hd).
  destruct (divide_out_spec p Hp fuel n factors f m Hn Hd)
    as (k & Hk & _ & Hm & _).
  rewrite Hd. cbn [rbind fst snd]. apply IH; [assumption|].
  assert (m <= n).
  { pose proof (Z.pow_pos_nonneg p (Z.of_nat k) ltac:(lia) ltac:(lia)). nia. }
  pose proof (Z.log2_le_mono m n). lia.
Qed.

(** ** The head of the table, and numbers it cannot split *)

Lemma prime_run_head (bound c p : Z) (l : list Z) :
  prime_run bound c l -> Z.prime p -> c <= p <= bound ->
  (forall q, Z.prime q -> c <= q < p -> False) ->
  exists l', l = p :: l' /\ prime_run bound (p + 1) l'.
Proof.
  intros Hrun Hp Hb Hfirst. destruct l as [|h l].
  - exfalso. destruct Hrun as [_ Hin].
    exact (proj2 (Hin p) (conj Hp Hb)).
  - destruct (prime_run_cons bound c h l Hrun) as (Hh & Hhb & Hnone & Hrest).
    assert (h = p).
    { destruct (Z.lt_trichotomy h p) as [Hlt|[E|Hgt]]; [|exact E|].
      - exfalso. apply (Hfirst h Hh). lia.
      - exfalso. apply (Hnone p Hp). lia. }
    subst h. exists l. split; [reflexivity | exact Hrest].
Qed.

Lemma prime_3 : Z.prime 3.
Proof. apply prime_check; [lia | reflexivity]. Qed.

(** The table starts with 2, 3 and 5. *)
Lemma smallPrimes_prefix : exists rest, smallPrimes = 2 :: 3 :: 5 :: rest.
Proof.
  generalize smallPrimes_run. generalize smallPrimes. intros l Hrun.
  destruct (prime_run_head PRIME_LIMIT 2 2 l Hrun Z.prime_2) as (l1 & -> & H1).
  { unfold PRIME_LIMIT. lia. }
  { intros q _ Hq. lia. }
  destruct (prime_run_head PRIME_LIMIT (2 + 1) 3 l1 H1 prime_3)
    as (l2 & -> & H2).
  { unfold PRIME_LIMIT. lia. }
  { intros q _ Hq. lia. }
  destruct (prime_run_head PRIME_LIMIT (3 + 1) 5 l2 H2 prime_5)
    as (l3 & -> & H3).
  { unfold PRIME_LIMIT. lia. }
  { intros q [_ Hq] Hr. assert (q = 4) by lia. subst q.
    apply (Hq 2); [lia|]. exists 2. reflexivity. }
  exists l3. reflexivity.
Qed.

Lemma prime_100297 : Z.prime 100297.
Proof.
  apply (prime_check_sqrt 316); [lia | vm_compute; reflexivity | lia].
Qed.

Lemma prime_300889 : Z.prime 300889.
Proof.
  apply (prime_check_sqrt 548); [lia | vm_compute; reflexivity | lia].
Qed.

(** ** Below the crossover *)

Lemma trial_division_primes (fuel : nat) (n : Z) (f : obj) (m : Z) :
  trial_division fuel smallPrimes n [] = Ret (f, m) -> prime_powers f.
Proof.
  apply (trial_division_records prime_powers); [|constructor].
  intros o p Hp Ho. apply incr_entries; [assumption|].
  destruct smallPrimes_run as [_ Hin]. apply (proj1 (Hin p)). exact Hp.
Qed.

(** Up to the square of the sieve's bound, what trial division leaves is 1
    or a prime. *)
Lemma remainder_below_crossover (fuel : nat) (n : Z) (f : obj) (m : Z) :
  1 <= n <= PRIME_LIMIT * PRIME_LIMIT ->
  trial_division fuel smallPrimes n [] = Ret (f, m) ->
  m = 1 \/ Z.prime m.
Proof.
  intros Hn Htd.
  destruct (trial_division_remainder fuel PRIME_LIMIT smallPrimes 2 n [] f m
              smallPrimes_run ltac:(lia) ltac:(lia)) as (Hm & Hdiv & Hcases);
    [|exact Htd|].
  { intros q Hq Hlt. pose proof (Z.prime_ge_2 q Hq). lia. }
  destruct Hcases as [|[|Hbig]]; [tauto | tauto |].
  destruct (Z.eq_dec m 1) as [|Hm1]; [tauto|]. right.
  destruct (prime_or_not m ltac:(lia)) as [|Hnp]; [assumption|]. exfalso.
  destruct (small_prime_divisor m ltac:(lia) Hnp) as (q & Hq & Hqm & Hqq).
  pose proof (Hbig q Hq Hqm). pose proof (Z.prime_ge_2 q Hq).
  apply Z.divide_pos_le in Hdiv; [|lia]. unfold PRIME_LIMIT in *. nia.
Qed.

Lemma factorize_below_crossover_aux (fuel rfuel depth : nat) (rnd : source) (n : Z)
  (s : nat) :
  1 <= n <= PRIME_LIMIT * PRIME_LIMIT -> valid_source rnd ->
  Z.log2 n < Z.of_nat fuel ->
  exists factors s',
    factorize fuel rfuel depth rnd n s = Ret (factors, s') /\
    product factors = n /\ prime_powers factors.
Proof.
  intros Hn Hv Hf.
  destruct (trial_division_ret_log fuel smallPrimes smallPrimes_ge_2 n []
              ltac:(lia) Hf) as (f & m & Htd).
  pose proof (trial_division_primes fuel n f m Htd) as Hpp.
  pose proof (trial_division_smallPrimes_safe fuel n ltac:(lia)) as Hs.
  rewrite Htd in Hs. cbn [safe fst snd] in Hs. destruct Hs as (Hprod & Hc & Hm).
  destruct (remainder_below_crossover fuel n f m Hn Htd) as [->|Hp].
  - exists f, s. split; [|split; [lia | assumption]].
    unfold factorize, bind, lift. rewrite Htd. reflexivity.
  - assert (Hlog : Z.log2 m <= Z.of_nat fuel).
    { pose proof (Z.log2_le_mono m n). lia. }
    assert (Hgas : (1 <= fuel)%nat) by (pose proof (Z.log2_nonneg n); lia).
    destruct (factorize_prime_remainder fuel rfuel depth rnd n s f m Htd Hp Hv Hlog
                Hgas) as (s' & Hret).
    exists (incr f m), s'. split; [exact Hret|].
    destruct (incr_product f m Hc) as [Hprod' _].
    split; [rewrite Hprod'; lia|]. apply incr_entries; assumption.
Qed.

(** ** What the orchestrator records *)

Lemma stack_step_factors (fuel rfuel depth : nat) (rnd : source) (factors : obj)
  (target : Z) (stack : list Z) (s : nat) (f' : obj) (stack' : list Z)
  (s' : nat) :
  stack_step fuel rfuel depth rnd factors target stack s = Ret ((f', stack'), s') ->
  f' = factors \/ (target <> 1 /\ f' = incr factors target).
Proof.
  unfold stack_step. destruct (Z.eqb_spec target 1) as [->|Hne].
  - intros H. injection H as <- _ _. left. reflexivity.
  - unfold bind at 1.
    destruct (isPrimeMillerRabin fuel rnd target 5 s) as [[[|] s1]| |];
      try discriminate.
    + intros H. injection H as <- _ _. right. split; [assumption | reflexivity].
    + unfold bind at 1. destruct (pollardRho rfuel depth rnd target s1) as [[g s2]| |];
        try discriminate.
      unfold bind, lift. destruct (js_div target g); cbn [rbind]; try discriminate.
      intros H. injection H as <- _ _. left. reflexivity.
Qed.

Lemma stack_loop_records (I : obj -> Prop) (fuel rfuel depth : nat) (rnd : source) :
  (forall o p, I o -> 2 <= p -> I (incr o p)) ->
  forall gas factors stack s f s',
    well_formed factors stack -> I factors ->
    stack_loop gas fuel rfuel depth rnd factors stack s = Ret (f, s') -> I f.
Proof.
  intros Hincr. induction gas as [|gas IH];
    intros factors [|target stack] s f s' Hw HI H; cbn [stack_loop] in H;
    try discriminate; try (injection H as <- _; assumption).
  unfold bind in H.
  pose proof (stack_step_sound fuel rfuel depth rnd _ factors target stack s Hw eq_refl)
    as Hsafe.
  destruct (stack_step fuel rfuel depth rnd factors target stack s)
    as [[[f1 stk1] s1]| |] eqn:Hstep; try discriminate.
  cbn [sound fst snd] in Hsafe. destruct Hsafe as [_ Hw1].
  apply (IH f1 stk1 s1 f s' Hw1); [|exact H].
  destruct (stack_step_factors _ _ _ _ _ _ _ _ _ _ _ Hstep) as [->|[Hne ->]];
    [assumption|].
  apply Hincr; [assumption|].
  destruct Hw as [_ Hstk]. apply Forall_cons_iff in Hstk. lia.
Qed.

Lemma factorize_records (I : obj -> Prop) (fuel rfuel depth : nat) (rnd : source)
  (n : Z) (s : nat) (f : obj) (s' : nat) :
  I [] -> (forall o p, I o -> 2 <= p -> I (incr o p)) -> 1 <= n ->
  factorize fuel rfuel depth rnd n s = Ret (f, s') -> I f.
Proof.
  intros H0 Hincr Hn. unfold factorize, bind, lift.
  pose proof (trial_division_smallPrimes_safe fuel n Hn) as Hs.
  remember (trial_division fuel smallPrimes n []) as td eqn:Htd.
  symmetry in Htd. destruct td as [[f1 m]| |]; cbn [rbind];
    [|intros Hx; discriminate Hx ..].
  cbn [safe fst snd] in Hs. destruct Hs as (_ & Hc & Hm).
  assert (HI : I f1).
  { revert Htd. apply (trial_division_records I); [|assumption].
    intros o p Hp Ho. apply Hincr; [assumption|].
    pose proof smallPrimes_ge_2 as Hge. rewrite Forall_forall in Hge.
    apply Hge. assumption. }
  destruct (m =? 1).
  - intros H. injection H as <- _. assumption.
  - apply (stack_loop_records I fuel rfuel depth rnd Hincr); [|assumption].
    split; [assumption | repeat constructor; lia].
Qed.

(** The entries of a returned multiset: distinct keys, each at least 2 and
    a divisor of [n], with exponents at least 1. *)
Lemma factorize_entries (fuel rfuel depth : nat) (rnd : source) (n : Z) (s : nat)
  (f : obj) (s' : nat) :
  1 <= n -> factorize fuel rfuel depth rnd n s = Ret (f, s') ->
  NoDup (map fst f) /\
  Forall (fun kv => 2 <= fst kv <= n /\ (fst kv | n) /\ 1 <= snd kv) f.
Proof.
  intros Hn H.
  pose proof (factorize_sound fuel rfuel depth rnd n s Hn) as Hs.
  rewrite H in Hs. cbn [safe fst] in Hs. destruct Hs as [Hprod _].
  assert (HI : NoDup (map fst f) /\
               Forall (fun kv => 2 <= fst kv /\ 1 <= snd kv) f).
  { revert H.
    apply (factorize_records
             (fun o => NoDup (map fst o) /\
                       Forall (fun kv => 2 <= fst kv /\ 1 <= snd kv) o));
      [split; constructor | | assumption].
    intros o p [Hnd Hf] Hp. split.
    - apply keys_incr. assumption.
    - apply (incr_entries (fun k => 2 <= k)); assumption. }
  destruct HI as [Hnd Hf]. split; [assumption|].
  rewrite Forall_forall in Hf. apply Forall_forall. intros [k e] Hin.
  destruct (Hf _ Hin) as [Hk He]. cbn [fst snd] in Hk, He |- *.
  assert (Hdiv : (k | n)) by (rewrite <- Hprod; eapply key_divides_product; eassumption).
  apply Z.divide_pos_le in Hdiv as Hle; [|lia]. repeat split; assumption || lia.
Qed.

(** ** Enumeration order of small keys *)

Lemma insert_sorted_perm (k : Z) (l : list Z) :
  Permutation (insert_sorted k l) (k :: l).
Proof.
  induction l as [|h t IH]; cbn [insert_sorted]; [reflexivity|].
  destruct (k <=? h); [reflexivity|].
  rewrite IH. apply perm_swap.
Qed.

Lemma sort_keys_perm (l : list Z) : Permutation (sort_keys l) l.
Proof.
  induction l as [|k l IH]; cbn [sort_keys fold_right]; [reflexivity|].
  fold (sort_keys l). rewrite insert_sorted_perm. constructor. exact IH.
Qed.

Lemma sorted_nodup_strict (l : list Z) :
  Sorted Z.le l -> NoDup l -> StronglySorted Z.lt l.
Proof.
  intros Hs Hnd. apply Sorted_StronglySorted in Hs; [|exact Z.le_trans].
  induction Hs as [|x l Hs IH Hx]; [constructor|].
  apply NoDup_cons_iff in Hnd. destruct Hnd as [Hx' Hnd].
  constructor; [apply IH; assumption|].
  rewrite Forall_forall in Hx. apply Forall_forall. intros y Hy.
  pose proof (Hx y Hy).
  assert (x <> y) by (intros ->; contradiction). lia.
Qed.

Lemma factorize_keys_ascending_aux (fuel rfuel depth : nat) (rnd : source) (n : Z)
  (s : nat) (f : obj) (s' : nat) :
  1 <= n < 2 ^ 32 - 1 -> factorize fuel rfuel depth rnd n s = Ret (f, s') ->
  StronglySorted Z.lt (ownKeys f) /\ Permutation (ownKeys f) (map fst f).
Proof.
  intros Hn H.
  destruct (factorize_entries fuel rfuel depth rnd n s f s' ltac:(lia) H) as [Hnd Hf].
  assert (Hidx : forallb is_array_index (map fst f) = true).
  { apply forallb_forall. intros k Hk. apply in_map_iff in Hk.
    destruct Hk as ([k' e] & <- & Hin). rewrite Forall_forall in Hf.
    destruct (Hf _ Hin) as (Hk & _). cbn [fst] in Hk |- *.
    unfold is_array_index.
    apply andb_true_iff. split; [apply Z.leb_le | apply Z.ltb_lt]; lia. }
  destruct (ownKeys_of_indices f Hidx) as [E Hs]. rewrite E in *.
  split; [|apply sort_keys_perm].
  apply sorted_nodup_strict; [assumption|].
  eapply Permutation_NoDup; [symmetry; apply sort_keys_perm | assumption].
Qed.

(** ** gcd, in full *)

Lemma gcd_returns (k : nat) :
  forall (fuel : nat) a b,
    0 <= a -> 0 <= b < 2 ^ Z.of_nat k -> (2 * k <= fuel)%nat ->
    exists g, gcd fuel a b = Ret g.
Proof.
  induction k as [|k IH]; intros fuel a b Ha Hb Hf.
  - change (2 ^ Z.of_nat 0) with 1 in Hb. assert (b = 0) by lia. subst b.
    rewrite gcd_zero_r. eauto.
  - destruct (Z.eq_dec b 0) as [->|Hb0]; [rewrite gcd_zero_r; eauto|].
    destruct fuel as [|[|fuel]]; try lia.
    cbn [gcd]. destruct (Z.ltb_spec 0 b); [|lia].
    rewrite Z.rem_mod_nonneg by lia.
    pose proof (Z.mod_pos_bound a b ltac:(lia)) as Hr1.
    set (r1 := a mod b) in *.
    destruct (Z.ltb_spec 0 r1) as [Hr1pos|]; [|eauto].
    rewrite Z.rem_mod_nonneg by lia.
    pose proof (Z.mod_pos_bound b r1 Hr1pos) as Hr2.
    pose proof (Z.div_mod b r1 ltac:(lia)) as E.
    assert (1 <= b / r1) by (apply Z.div_le_lower_bound; lia).
    apply IH; [lia | | lia].
    rewrite Nat2Z.inj_succ, Z.pow_succ_r in Hb by lia. nia.
Qed.

Lemma gcd_total (fuel : nat) (a b : Z) :
  0 <= a -> 0 <= b -> 2 * Z.log2 b + 2 <= Z.of_nat fuel ->
  gcd fuel a b = Ret (Z.gcd a b).
Proof.
  intros Ha Hb Hf.
  destruct (gcd_returns (Z.to_nat (Z.log2 b + 1)) fuel a b Ha) as [g Hg].
  - split; [assumption|]. pose proof (Z.log2_nonneg b).
    rewrite Z2Nat.id by lia.
    destruct (Z.eq_dec b 0) as [->|]; [apply Z.pow_pos_nonneg; lia|].
    apply Z.log2_spec. lia.
  - pose proof (Z.log2_nonneg b). lia.
  - pose proof (gcd_safe fuel a b Ha Hb) as Hs. rewrite Hg in Hs |- *.
    cbn [safe] in Hs. congruence.
Qed.

Lemma gcd_nonneg (fuel : nat) :
  forall a b g, 0 <= a -> gcd fuel a b = Ret g -> 0 <= g.
Proof.
  induction fuel as [|fuel IH]; intros a b g Ha H; cbn [gcd] in H;
    destruct (Z.ltb_spec 0 b); try discriminate;
    try (injection H as <-; assumption).
  apply IH in H; [assumption | lia].
Qed.

(** ** Draws *)

Lemma randBigInt_state (rnd : source) (min max : Z) (s : nat) (v : Z)
  (s' : nat) :
  randBigInt rnd min max s = Ret (v, s') -> s' = S s.
Proof.
  unfold randBigInt. destruct (js_rem (rnd s) (max - min)); cbn [rbind];
    try discriminate. intros H. injection H as _ <-. reflexivity.
Qed.

Lemma rounds_draws (fuel : nat) (rnd : source) (n d r : Z) :
  forall (count s : nat) b s',
    rounds fuel rnd count n d r s = Ret (b, s') ->
    (s <= s' <= s + count)%nat.
Proof.
  induction count as [|count IH]; intros s b s' H; cbn [rounds] in H.
  - injection H as _ <-. lia.
  - unfold bind at 1 in H.
    destruct (randBigInt rnd 2 (n - 2) s) as [[a s1]| |] eqn:Ha;
      try discriminate.
    apply randBigInt_state in Ha. subst s1.
    unfold bind at 1, lift in H.
    destruct (modPow fuel a d n) as [x| |]; cbn [rbind] in H; try discriminate.
    destruct ((x =? 1) || (x =? n - 1)); [apply IH in H; lia|].
    destruct (squarings (Z.to_nat (r - 1)) x n); [apply IH in H; lia|].
    injection H as _ <-. lia.
Qed.

Lemma isPrimeMillerRabin_draws_aux (fuel : nat) (rnd : source) (n : Z)
  (k s : nat) (b : bool) (s' : nat) :
  isPrimeMillerRabin fuel rnd n k s = Ret (b, s') ->
  (s <= s' <= s + k)%nat /\
  (n < 5 \/ Z.rem n 2 = 0 -> s' = s).
Proof.
  unfold isPrimeMillerRabin.
  destruct (n <? 2) eqn:G1; [intros H; injection H as _ <-; split; [lia | auto]|].
  destruct ((n =? 2) || (n =? 3)) eqn:G2;
    [intros H; injection H as _ <-; split; [lia | auto]|].
  destruct (Z.rem n 2 =? 0) eqn:G3;
    [intros H; injection H as _ <-; split; [lia | auto]|].
  pose proof (guards_passed n G1 G2 G3) as Hn5. apply Z.eqb_neq in G3.
  unfold bind, lift.
  destruct (halve fuel (n - 1) 0) as [[d r]| |]; cbn [rbind]; try discriminate.
  intros H. apply rounds_draws in H. split; [assumption | lia].
Qed.

(** ** The Factor Finder on inputs it is not meant for *)

Lemma rho_loop_nonneg (retry : M Z) (n : Z) :
  (forall s g s', retry s = Ret (g, s') -> 0 <= g) ->
  forall fuel c x y s g s',
    rho_loop retry fuel n c x y s = Ret (g, s') -> 0 <= g.
Proof.
  intros Hretry. induction fuel as [|fuel IH]; intros c x y s g s' H;
    [discriminate|].
  cbn -[gcd] in H. unfold bind, lift in H.
  set (x' := Z.rem (x * x + c) n) in *.
  set (y' := Z.rem (Z.rem (y * y + c) n * Z.rem (y * y + c) n + c) n) in *.
  set (diff := if y' <? x' then x' - y' else y' - x') in *.
  assert (Hdiff : 0 <= diff).
  { unfold diff. destruct (Z.ltb_spec y' x'); lia. }
  destruct (gcd (S fuel) diff n) as [g0| |] eqn:Hg; cbn [rbind] in H;
    try discriminate.
  apply gcd_nonneg in Hg; [|assumption].
  destruct (g0 =? n); [eapply Hretry; eassumption|].
  destruct (g0 =? 1); [eapply IH; eassumption|].
  injection H as <- _. assumption.
Qed.

Lemma pollardRho_nonneg (fuel : nat) (rnd : source) (n : Z) :
  forall depth s g s',
    pollardRho fuel depth rnd n s = Ret (g, s') -> 0 <= g.
Proof.
  induction depth as [|depth IH]; intros s g s' H;
    rewrite pollardRho_unfold in H;
    destruct (Z.rem n 2 =? 0); try (injection H as <- _; lia);
    unfold bind at 1 in H;
    (destruct (randBigInt rnd 2 (n - 1) s) as [[x s1]| |];
     [|discriminate H|discriminate H]);
    unfold bind at 1 in H;
    (destruct (randBigInt rnd 1 (n - 1) s1) as [[c s2]| |];
     [|discriminate H|discriminate H]);
    (eapply rho_loop_nonneg; [|exact H]).
  - intros s0 g0 s0' H0. discriminate H0.
  - exact IH.
Qed.

(** From a stack whose top is not positive, the loop never comes to an
    empty stack. *)
Lemma stack_step_nonpositive (fuel rfuel depth : nat) (rnd : source) (factors : obj)
  (target : Z) (stack : list Z) (s : nat) (f' : obj) (stack' : list Z)
  (s' : nat) :
  target <= 0 ->
  stack_step fuel rfuel depth rnd factors target stack s = Ret ((f', stack'), s') ->
  exists t rest, stack' = t :: rest /\ t <= 0.
Proof.
  intros Ht. unfold stack_step.
  destruct (Z.eqb_spec target 1) as [|_]; [lia|].
  unfold isPrimeMillerRabin. destruct (Z.ltb_spec target 2) as [_|]; [|lia].
  unfold bind at 1. cbn [ret]. unfold bind at 1.
  destruct (pollardRho rfuel depth rnd target s) as [[g s1]| |] eqn:Hrho;
    try discriminate.
  apply pollardRho_nonneg in Hrho.
  unfold bind, lift, js_div. destruct (Z.eqb_spec g 0); cbn [rbind];
    [discriminate|].
  intros E. injection E as _ <- _. eexists _, _. split; [reflexivity|].
  pose proof (Z.quot_rem' target g).
  pose proof (Z.rem_bound_abs target g ltac:(lia)).
  pose proof (Z.rem_nonpos target g ltac:(lia) Ht). nia.
Qed.

Lemma stack_loop_nonpositive (fuel rfuel depth : nat) (rnd : source) :
  forall gas factors target stack s f s',
    target <= 0 ->
    stack_loop gas fuel rfuel depth rnd factors (target :: stack) s <> Ret (f, s').
Proof.
  induction gas as [|gas IH]; intros factors target stack s f s' Ht H;
    cbn [stack_loop] in H; [discriminate|].
  unfold bind in H.
  destruct (stack_step fuel rfuel depth rnd factors target stack s)
    as [[[f1 stk1] s1]| |] eqn:Hstep; try discriminate.
  destruct (stack_step_nonpositive _ _ _ _ _ _ _ _ _ _ _ Ht Hstep)
    as (t & rest & -> & Ht').
  exact (IH f1 t rest s1 f s' Ht' H).
Qed.

Lemma factorize_nonpositive_aux (fuel rfuel depth : nat) (rnd : source) (n : Z)
  (s : nat) (f : obj) (s' : nat) :
  n <= 0 -> factorize fuel rfuel depth rnd n s <> Ret (f, s').
Proof.
  intros Hn. unfold factorize, bind, lift.
  rewrite (trial_division_below_4 fuel smallPrimes n [] smallPrimes_ge_2)
    by lia.
  cbn [rbind]. destruct (Z.eqb_spec n 1); [lia|].
  apply stack_loop_nonpositive. assumption.
Qed.

(** ** gcd outside its domain *)

Lemma gcd_nonpositive_r (fuel : nat) (a b : Z) :
  b <= 0 -> gcd fuel a b = Ret a.
Proof.
  intros Hb. destruct fuel; cbn [gcd]; destruct (Z.ltb_spec 0 b);
    (lia || reflexivity).
Qed.

Lemma gcd_nonpositive_l (fuel : nat) (a b : Z) :
  a <= 0 -> 0 < b -> gcd (S fuel) a b = Ret b.
Proof.
  intros Ha Hb. cbn [gcd]. destruct (Z.ltb_spec 0 b); [|lia].
  apply gcd_nonpositive_r. apply Z.rem_nonpos; lia.
Qed.

Lemma gcd_never_raises (fuel : nat) :
  forall a b e, gcd fuel a b <> Throw e.
Proof.
  induction fuel as [|fuel IH]; intros a b e; cbn [gcd];
    destruct (0 <? b); try discriminate. apply IH.
Qed.

(** ** modPow, errors and edges *)

Lemma modPow_raises (fuel : nat) (base exp m : Z) :
  (exists e, modPow fuel base exp m = Throw e) <-> m = 0.
Proof.
  split.
  - intros [e H]. destruct (Z.eq_dec m 0) as [|Hm]; [assumption|].
    pose proof (modPow_safe fuel base exp m Hm) as Hs. rewrite H in Hs.
    contradiction.
  - intros ->. exists RangeError. reflexivity.
Qed.

Lemma modPow_nonpositive_exp (fuel : nat) (base exp m : Z) :
  exp <= 0 -> m <> 0 -> modPow fuel base exp m = Ret 1.
Proof.
  intros He Hm. unfold modPow. rewrite js_rem_ret by assumption. cbn [rbind].
  destruct fuel; cbn [modPow_loop]; destruct (Z.ltb_spec 0 exp);
    (lia || reflexivity).
Qed.

(** ** randBigInt, errors and edges *)

Lemma randBigInt_inverted (rnd : source) (min max : Z) (s : nat) :
  max < min -> 0 <= rnd s ->
  min <= Z.rem (rnd s) (max - min) + min < 2 * min - max.
Proof.
  intros H Hr.
  pose proof (Z.rem_bound_neg_pos (rnd s) (max - min) ltac:(lia) Hr). lia.
Qed.

(** ** Miller-Rabin with no round at all *)

Lemma isPrimeMillerRabin_no_round (fuel : nat) (rnd : source) (n : Z)
  (s : nat) :
  2 <= n -> Z.log2 n <= Z.of_nat fuel ->
  isPrimeMillerRabin fuel rnd n 0 s = Ret (Z.odd n || (n =? 2), s).
Proof.
  intros Hn Hf.
  assert (Hrem : Z.rem n 2 = if Z.odd n then 1 else 0).
  { rewrite Z.rem_mod_nonneg by lia. apply Zmod_odd. }
  unfold isPrimeMillerRabin.
  destruct (Z.ltb_spec n 2) as [|_]; [lia|].
  destruct ((n =? 2) || (n =? 3)) eqn:G2.
  - apply orb_true_iff in G2. destruct G2 as [G|G]; apply Z.eqb_eq in G;
      subst n; reflexivity.
  - apply orb_false_iff in G2 as G2'. destruct G2' as [N2 N3].
    rewrite N2, orb_false_r.
    destruct (Z.rem n 2 =? 0) eqn:G3.
    + apply Z.eqb_eq in G3. rewrite G3 in Hrem.
      destruct (Z.odd n); [discriminate | reflexivity].
    + assert (G1 : (n <? 2) = false) by (apply Z.ltb_ge; lia).
      pose proof (guards_passed n G1 G2 G3) as Hn5.
      apply Z.eqb_neq in G3.
      destruct (halve_decomposes fuel n Hn5 G3 Hf) as (d & r & Hh & _).
      unfold bind, lift. rewrite Hh. cbn [rbind rounds ret].
      destruct (Z.odd n); [reflexivity | congruence].
Qed.

(** A verdict [false] is never wrong. *)
Lemma isPrimeMillerRabin_false (fuel : nat) (rnd : source) (n : Z)
  (k s : nat) (s' : nat) :
  valid_source rnd -> Z.log2 n <= Z.of_nat fuel ->
  isPrimeMillerRabin fuel rnd n k s = Ret (false, s') -> ~ Z.prime n.
Proof.
  intros Hv Hf H Hp.
  destruct (isPrimeMillerRabin_prime fuel rnd n k s Hp Hv Hf) as [s1 E].
  congruence.
Qed.

(** ** Pollard's rho: what it raises *)

Lemma rho_loop_raises (retry : M Z) (n : Z) :
  (forall s e, retry s = Throw e -> e = StackOverflow) ->
  forall fuel c x y s e,
    rho_loop retry fuel n c x y s = Throw e -> e = StackOverflow.
Proof.
  intros Hretry. induction fuel as [|fuel IH]; intros c x y s e;
    [discriminate|].
  cbn -[gcd]. unfold bind, lift.
  set (x' := Z.rem (x * x + c) n).
  set (y' := Z.rem (Z.rem (y * y + c) n * Z.rem (y * y + c) n + c) n).
  set (diff := if y' <? x' then x' - y' else y' - x').
  pose proof (gcd_never_raises (S fuel) diff n) as Hg.
  destruct (gcd (S fuel) diff n) as [g|e'|]; cbn [rbind];
    [|exfalso; exact (Hg e' eq_refl)|discriminate].
  destruct (g =? n); [apply Hretry|].
  destruct (g =? 1); [apply IH | discriminate].
Qed.

(** But for 3, the only error of [pollardRho] is the exhaustion of the call
    stack, on every integer. *)
Lemma pollardRho_raises_only (fuel : nat) (rnd : source) (n : Z) :
  n <> 3 ->
  forall depth s e,
    pollardRho fuel depth rnd n s = Throw e -> e = StackOverflow.
Proof.
  intros Hn3.
  induction depth as [|depth IH]; intros s e; rewrite pollardRho_unfold;
    destruct (Z.eqb_spec (Z.rem n 2) 0) as [He|Hodd]; try discriminate;
    assert (n <> 2) by (intros ->; apply Hodd; reflexivity);
    unfold bind at 1; rewrite randBigInt_ret by lia;
    unfold bind at 1; rewrite randBigInt_ret by lia;
    apply rho_loop_raises.
  - intros s' e' H'. injection H' as <-. reflexivity.
  - exact IH.
Qed.

Lemma pollardRho_raises (fuel depth : nat) (rnd : source) (n : Z) (s : nat) :
  (pollardRho fuel depth rnd n s = Throw RangeError <-> n = 3) /\
  forall e,
    pollardRho fuel depth rnd n s = Throw e ->
    e = RangeError \/ e = StackOverflow.
Proof.
  split; [split|].
  - intros H. destruct (Z.eq_dec n 3) as [|Hn3]; [assumption|].
    apply (pollardRho_raises_only fuel rnd n Hn3) in H. discriminate H.
  - intros ->. apply pollardRho_three.
  - intros e H. destruct (Z.eq_dec n 3) as [->|Hn3].
    + rewrite pollardRho_three in H. injection H as <-. left. reflexivity.
    + right. exact (pollardRho_raises_only fuel rnd n Hn3 depth s e H).
Qed.

(** ** Pollard's rho: every walk ends *)

Lemma Zrange_length (count : nat) :
  forall i, List.length (Zrange i count) = count.
Proof.
  induction count as [|count IH]; intros i; cbn [Zrange List.length];
    [reflexivity|]. rewrite IH. reflexivity.
Qed.

(** Among the values of [g] on [a, a + m) two are equal, or none are. *)
Lemma collision_or_NoDup (g : nat -> Z) (m : nat) :
  forall a : nat,
    NoDup (map g (seq a m)) \/
    exists i j : nat, (a <= i < j)%nat /\ (j < a + m)%nat /\ g i = g j.
Proof.
  induction m as [|m IH]; intros a; cbn [seq map]; [left; constructor|].
  destruct (IH (S a)) as [Hnd|(i & j & Hij & Hj & E)].
  - destruct (in_dec Z.eq_dec (g a) (map g (seq (S a) m))) as [Hin|Hnin].
    + right. apply in_map_iff in Hin. destruct Hin as (j & E & Hj).
      apply in_seq in Hj. exists a, j. repeat split; [lia | lia | lia | congruence].
    + left. constructor; assumption.
  - right. exists i, j. repeat split; [lia | lia | lia | assumption].
Qed.

(** More indices than values: two of them share a value. *)
Lemma pigeonhole (g : nat -> Z) (a N : nat) :
  (forall i : nat, (a <= i <= a + N)%nat -> 0 <= g i < Z.of_nat N) ->
  exists i j : nat, (a <= i < j)%nat /\ (j <= a + N)%nat /\ g i = g j.
Proof.
  intros Hg. destruct (collision_or_NoDup g (S N) a)
    as [Hnd|(i & j & Hij & Hj & E)].
  - exfalso.
    assert (Hincl : incl (map g (seq a (S N))) (Zrange 0 N)).
    { intros x Hx. apply in_map_iff in Hx. destruct Hx as (i & <- & Hi).
      apply in_seq in Hi. apply Zrange_In. specialize (Hg i). lia. }
    pose proof (NoDup_incl_length Hnd Hincl) as Hlen.
    rewrite length_map, length_seq, Zrange_length in Hlen. lia.
  - exists i, j. repeat split; [lia | lia | lia | assumption].
Qed.

Section Walk.

Variables n c : Z.
Hypothesis n_pos : 1 < n.
Hypothesis c_nonneg : 0 <= c.

Let f : Z -> Z := rho_next n c.

Lemma rho_next_range (z : Z) : 0 <= z -> 0 <= rho_next n c z < n.
Proof.
  intros Hz. unfold rho_next. rewrite Z.rem_mod_nonneg by nia.
  apply Z.mod_pos_bound. lia.
Qed.

Lemma walk_range (x : Z) :
  0 <= x ->
  forall k : nat,
    0 <= Nat.iter k f x /\ ((1 <= k)%nat -> Nat.iter k f x < n).
Proof.
  intros Hx. induction k as [|k [IH _]]; cbn [Nat.iter nat_rect];
    [split; [assumption | lia]|].
  pose proof (rho_next_range _ IH). split; [|intros _]; apply H.
Qed.

Lemma walk_shift (x : Z) (i j : nat) :
  Nat.iter i f x = Nat.iter j f x ->
  forall d : nat, Nat.iter (i + d) f x = Nat.iter (j + d) f x.
Proof.
  intros E. induction d as [|d IH]; [rewrite !Nat.add_0_r; exact E|].
  rewrite !Nat.add_succ_r. cbn [Nat.iter nat_rect]. f_equal. exact IH.
Qed.

Lemma walk_period (x : Z) (i l : nat) :
  Nat.iter i f x = Nat.iter (i + l) f x ->
  forall t m : nat,
    (i <= m)%nat -> Nat.iter m f x = Nat.iter (m + t * l) f x.
Proof.
  intros E. induction t as [|t IH]; intros m Hm;
    [rewrite Nat.add_0_r; reflexivity|].
  rewrite (IH m Hm).
  pose proof (walk_shift x i (i + l) E (m + t * l - i)) as H.
  replace (i + (m + t * l - i))%nat with (m + t * l)%nat in H by lia.
  replace (i + l + (m + t * l - i))%nat with (m + S t * l)%nat in H by lia.
  exact H.
Qed.

(** The tortoise and the hare meet within [n] steps. *)
Lemma walk_meets (x : Z) :
  0 <= x ->
  exists k : nat,
    (1 <= k)%nat /\ Z.of_nat k <= n /\
    Nat.iter k f x = Nat.iter (k + k) f x.
Proof.
  intros Hx.
  destruct (pigeonhole (fun i => Nat.iter i f x) 1 (Z.to_nat n))
    as (i & j & Hij & Hj & E).
  { intros i Hi. rewrite Z2Nat.id by lia.
    destruct (walk_range x Hx i) as [H0 H1]. split; [exact H0|].
    apply H1. lia. }
  set (l := (j - i)%nat).
  assert (Hl : (1 <= l)%nat) by (unfold l; lia).
  set (t := ((i + l - 1) / l)%nat).
  pose proof (Nat.div_mod_eq (i + l - 1) l) as Hdm.
  pose proof (Nat.mod_upper_bound (i + l - 1) l ltac:(lia)) as Hmod.
  fold t in Hdm.
  assert (Hk : (i <= t * l /\ t * l <= i + l - 1)%nat) by nia.
  exists (t * l)%nat. split; [lia|]. split; [lia|].
  apply (walk_period x i l); [|lia].
  replace (i + l)%nat with j by (unfold l; lia). exact E.
Qed.

Lemma walk_double (x : Z) (k : nat) :
  Nat.iter (k + k) f x = Nat.iter k (fun z => f (f z)) x.
Proof.
  induction k as [|k IH]; [reflexivity|].
  rewrite Nat.add_succ_r. cbn [Nat.add]. rewrite !Nat.iter_succ, IH.
  reflexivity.
Qed.

(** A walk whose tortoise and hare meet after [S k] steps ends within
    [S k] iterations: on a factor, or on the retry. *)
Lemma rho_loop_ends (retry : M Z) :
  forall (k fuel : nat) (x y : Z) (s : nat),
    0 <= x -> 0 <= y ->
    Nat.iter (S k) f x = Nat.iter (S k) (fun z => f (f z)) y ->
    Z.of_nat (S k) + 2 * Z.log2 n + 2 <= Z.of_nat fuel ->
    rho_loop retry fuel n c x y s = retry s \/
    exists g, rho_loop retry fuel n c x y s = Ret (g, s) /\
              nontrivial_factor n g.
Proof.
  induction k as [|k IH]; intros fuel x y s Hx Hy Hmeet Hfuel;
    (destruct fuel as [|fuel]; [pose proof (Z.log2_nonneg n); lia|]);
    cbn -[gcd]; unfold bind, lift;
    change (Z.rem (x * x + c) n) with (f x);
    change (Z.rem (y * y + c) n) with (f y);
    change (Z.rem (f y * f y + c) n) with (f (f y));
    pose proof (rho_next_range x Hx) as Bx;
    pose proof (rho_next_range (f y) (proj1 (rho_next_range y Hy))) as By;
    fold f in Bx, By;
    set (diff := if f (f y) <? f x then f x - f (f y) else f (f y) - f x);
    assert (Hdiff : 0 <= diff)
      by (unfold diff; destruct (Z.ltb_spec (f (f y)) (f x)); lia);
    rewrite (gcd_total (S fuel) diff n Hdiff) by lia; cbn [rbind];
    pose proof (Z.gcd_nonneg diff n) as G0;
    pose proof (Z.gcd_divide_r diff n) as Gd;
    assert (Gn : Z.gcd diff n <> 0)
      by (intros E; apply Z.gcd_eq_0_r in E; lia);
    assert (Gle : Z.gcd diff n <= n)
      by (apply Z.divide_pos_le; [lia | exact Gd]);
    (destruct (Z.eqb_spec (Z.gcd diff n) n) as [|Hgn]; [left; reflexivity|]);
    (destruct (Z.eqb_spec (Z.gcd diff n) 1) as [Hg1|Hg1];
     [|right; eexists; split; [reflexivity | split; [exact Gd | lia]]]).
  - exfalso. apply Hgn.
    assert (Hm : f x = f (f y)) by exact Hmeet.
    assert (E : diff = 0)
      by (unfold diff; rewrite Hm, Z.ltb_irrefl; lia).
    rewrite E, Z.gcd_0_l. lia.
  - apply IH; [lia | lia | | lia].
    rewrite (Nat.iter_succ_r (S k) Z f x) in Hmeet.
    rewrite (Nat.iter_succ_r (S k) Z (fun z => f (f z)) y) in Hmeet.
    exact Hmeet.
Qed.

End Walk.

(** One attempt on an odd number: two draws, then a factor or the retry. *)
Lemma pollardRho_attempt (fuel depth : nat) (rnd : source) (n : Z) (s : nat) :
  5 <= n -> Z.rem n 2 <> 0 -> valid_source rnd -> 3 * n <= Z.of_nat fuel ->
  pollardRho fuel depth rnd n s
    = match depth with
      | O => throw StackOverflow
      | S depth' => pollardRho fuel depth' rnd n
      end (S (S s)) \/
  exists g,
    pollardRho fuel depth rnd n s = Ret (g, S (S s)) /\ nontrivial_factor n g.
Proof.
  intros Hn Hodd Hv Hfuel.
  pose proof (randBigInt_range rnd 2 (n - 1) s ltac:(lia) (proj1 (Hv s)))
    as Hx.
  pose proof (randBigInt_range rnd 1 (n - 1) (S s) ltac:(lia)
                (proj1 (Hv (S s)))) as Hc.
  set (x := Z.rem (rnd s) (n - 1 - 2) + 2) in *.
  set (c := Z.rem (rnd (S s)) (n - 1 - 1) + 1) in *.
  set (retry := match depth with
                | O => throw StackOverflow
                | S depth' => pollardRho fuel depth' rnd n
                end).
  assert (E0 : pollardRho fuel depth rnd n s
               = rho_loop retry fuel n c x x (S (S s))).
  { rewrite pollardRho_unfold.
    destruct (Z.eqb_spec (Z.rem n 2) 0) as [He|_]; [contradiction|].
    unfold bind at 1. rewrite randBigInt_ret by lia.
    unfold bind at 1. rewrite randBigInt_ret by lia. reflexivity. }
  rewrite E0.
  assert (Hn1 : 1 < n) by lia.
  assert (Hc0 : 0 <= c) by lia.
  assert (Hx0 : 0 <= x) by lia.
  destruct (walk_meets n c Hn1 Hc0 x Hx0) as ([|k] & Hk1 & Hkn & Hmeet);
    [lia|].
  rewrite (walk_double n c) in Hmeet.
  pose proof (Z.log2_lt_lin n ltac:(lia)) as Hlog.
  apply (rho_loop_ends n c Hn1 Hc0 retry k fuel x x (S (S s)) Hx0 Hx0 Hmeet).
  lia.
Qed.

(** With fuel for [3 n] iterations of a walk, [pollardRho] returns a factor
    or its retries exhaust the call stack. *)
Lemma pollardRho_total (fuel : nat) (rnd : source) (n : Z) :
  2 <= n -> n <> 3 -> valid_source rnd -> 3 * n <= Z.of_nat fuel ->
  forall depth s,
    (exists g s', pollardRho fuel depth rnd n s = Ret (g, s') /\
                  rho_result n g) \/
    pollardRho fuel depth rnd n s = Throw StackOverflow.
Proof.
  intros Hn Hn3 Hv Hfuel.
  destruct (Z.eq_dec (Z.rem n 2) 0) as [He|Hodd].
  { intros depth s. left. exists 2, s. rewrite pollardRho_unfold.
    destruct (Z.eqb_spec (Z.rem n 2) 0); [|contradiction].
    split; [reflexivity | split; tauto]. }
  assert (Hn5 : 5 <= n).
  { assert (n <> 2) by (intros ->; apply Hodd; reflexivity).
    assert (n <> 4) by (intros ->; apply Hodd; reflexivity). lia. }
  induction depth as [|depth IH]; intros s.
  - destruct (pollardRho_attempt fuel 0 rnd n s Hn5 Hodd Hv Hfuel)
      as [E|(g & E & Hg)]; rewrite E.
    + right. reflexivity.
    + left. exists g, (S (S s)). split; [reflexivity | split; tauto].
  - destruct (pollardRho_attempt fuel (S depth) rnd n s Hn5 Hodd Hv Hfuel)
      as [E|(g & E & Hg)]; rewrite E.
    + apply IH.
    + left. exists g, (S (S s)). split; [reflexivity | split; tauto].
Qed.

(** On a prime the retries never stop: the call stack is exhausted. *)
Lemma pollardRho_prime (fuel depth : nat) (rnd : source) (n : Z) (s : nat) :
  Z.prime n -> 5 <= n -> valid_source rnd -> 3 * n <= Z.of_nat fuel ->
  pollardRho fuel depth rnd n s = Throw StackOverflow.
Proof.
  intros Hp Hn Hv Hfuel.
  destruct (pollardRho_total fuel rnd n ltac:(lia) ltac:(lia) Hv Hfuel depth s)
    as [(g & s' & _ & Heven & Hodd)|E]; [exfalso | exact E].
  destruct (Z.eq_dec (Z.rem n 2) 0) as [He|Ho].
  - destruct Hp as [_ Hp]. apply (Hp 2); [lia|].
    exists (Z.quot n 2). pose proof (Z.quot_rem' n 2). lia.
  - destruct (Hodd Ho) as [Hdiv Hlt]. destruct Hp as [_ Hp].
    apply (Hp g); [lia | assumption].
Qed.

(** ** The orchestrator ends: with a result, or on an exhausted stack *)

(** A step either shrinks the weight of the stack, or the retries of
    [pollardRho] on its target exhaust the call stack. *)
Lemma stack_step_total (fuel rfuel depth : nat) (rnd : source) (bound : Z)
  (factors : obj) (target : Z) (stack : list Z) (s : nat) :
  valid_source rnd -> Z.log2 bound <= Z.of_nat fuel ->
  3 * bound <= Z.of_nat rfuel ->
  1 <= target <= bound -> Forall (fun t => 1 <= t <= bound) stack ->
  (exists factors' stack' s',
     stack_step fuel rfuel depth rnd factors target stack s
       = Ret ((factors', stack'), s') /\
     Forall (fun t => 1 <= t <= bound) stack' /\
     stack_weight stack' < stack_weight (target :: stack)) \/
  (stack_step fuel rfuel depth rnd factors target stack s
     = Throw StackOverflow /\
   exists s1,
     target <> 1 /\
     isPrimeMillerRabin fuel rnd target 5 s = Ret (false, s1) /\
     pollardRho rfuel depth rnd target s1 = Throw StackOverflow).
Proof.
  intros Hv Hlog Hrfuel Ht Hstk.
  destruct (Z.eq_dec target 1) as [->|H1].
  { left. exists factors, stack, s. rewrite stack_weight_cons.
    split; [reflexivity | split; [assumption | lia]]. }
  assert (Hne : (target =? 1) = false) by (apply Z.eqb_neq; assumption).
  assert (Hlogt : Z.log2 target <= Z.of_nat fuel).
  { pose proof (Z.log2_le_mono target bound). lia. }
  destruct (isPrimeMillerRabin_ret fuel rnd target 5 s Hv Hlogt)
    as ([|] & s1 & Hmr).
  { left. exists (incr factors target), stack, s1.
    rewrite stack_weight_cons.
    split; [|split; [assumption | lia]].
    unfold stack_step, bind. rewrite Hne, Hmr. reflexivity. }
  pose proof (isPrimeMillerRabin_safe fuel rnd target 5 s) as Hsafe.
  rewrite Hmr in Hsafe. cbn [safe fst] in Hsafe.
  destruct (Hsafe eq_refl) as [N2 N3].
  destruct (pollardRho_total rfuel rnd target ltac:(lia) N3 Hv ltac:(lia)
              depth s1) as [(g & s2 & Erho & Hrho)|Erho].
  - destruct (rho_result_splits target g ltac:(lia) Hrho) as (E & Hg & Hq).
    left. exists factors, (Z.quot target g :: g :: stack), s2.
    rewrite !stack_weight_cons.
    split; [|split].
    + unfold stack_step, bind, lift. rewrite Hne, Hmr, Erho.
      rewrite js_div_ret by lia. reflexivity.
    + repeat (constructor; [nia|]). assumption.
    + set (q := Z.quot target g) in *. nia.
  - right. split.
    + unfold stack_step, bind. rewrite Hne, Hmr, Erho. reflexivity.
    + exists s1. split; [assumption|]. split; [exact Hmr | exact Erho].
Qed.

Lemma stack_loop_total (fuel rfuel depth : nat) (rnd : source) (bound : Z) :
  valid_source rnd -> Z.log2 bound <= Z.of_nat fuel ->
  3 * bound <= Z.of_nat rfuel ->
  forall gas factors stack s,
    Forall (fun t => 1 <= t <= bound) stack ->
    stack_weight stack <= Z.of_nat gas ->
    (exists result s',
       stack_loop gas fuel rfuel depth rnd factors stack s
         = Ret (result, s')) \/
    (stack_loop gas fuel rfuel depth rnd factors stack s
       = Throw StackOverflow /\
     exists target,
       overflow_in_rho fuel rfuel depth rnd (factors, stack, s) target).
Proof.
  intros Hv Hlog Hrfuel.
  induction gas as [|gas IH]; intros factors [|target stack] s Hstk Hw;
    try (left; rewrite stack_loop_nil; eexists _, _; reflexivity).
  - exfalso. apply Forall_cons_iff in Hstk. destruct Hstk as [Ht Hstk].
    assert (0 <= stack_weight stack).
    { apply stack_weight_nonneg. eapply Forall_impl; [|exact Hstk].
      intros t Hb. cbv beta in Hb. lia. }
    rewrite stack_weight_cons in Hw. lia.
  - apply Forall_cons_iff in Hstk as Hstk'. destruct Hstk' as [Ht Hrest].
    cbn [stack_loop]. unfold bind.
    destruct (stack_step_total fuel rfuel depth rnd bound factors target stack
                s Hv Hlog Hrfuel Ht Hrest)
      as [(f' & stk' & s' & Hstep & Hb & Hlt)|(Hstep & s1 & H1 & Hmr & Hrho)];
      rewrite Hstep.
    + rewrite stack_weight_cons in *.
      destruct (IH f' stk' s' Hb ltac:(lia))
        as [Hret|(Hto & t & fs & rest & s1 & s2 & Hit & H1 & Hmr & Hrho)].
      * left. exact Hret.
      * right. split; [exact Hto|]. exists t, fs, rest, s1, s2.
        split; [|split; [|split]; assumption].
        eapply iterates_step; eassumption.
    + right. split; [reflexivity|]. exists target, factors, stack, s, s1.
      split; [constructor | split; [|split]; assumption].
Qed.

Lemma stack_product_divides (t : Z) (stack : list Z) :
  In t stack -> (t | stack_product stack).
Proof.
  induction stack as [|h stack IH]; intros Hin; [destruct Hin|].
  cbn [stack_product fold_right]. destruct Hin as [->|Hin].
  - apply Z.divide_factor_l.
  - apply Z.divide_mul_r. apply IH. exact Hin.
Qed.

Lemma factorize_total (fuel rfuel depth : nat) (rnd : source) (n : Z)
  (s : nat) :
  1 <= n -> valid_source rnd ->
  2 * n <= Z.of_nat fuel -> 3 * n <= Z.of_nat rfuel ->
  (exists factors s',
     factorize fuel rfuel depth rnd n s = Ret (factors, s')) \/
  (factorize fuel rfuel depth rnd n s = Throw StackOverflow /\
   exists factors0 n0 target,
     trial_division fuel smallPrimes n [] = Ret (factors0, n0) /\
     overflow_in_rho fuel rfuel depth rnd (factors0, [n0], s) target /\
     1 < target /\ (target | n) /\ ~ Z.prime target).
Proof.
  intros Hn Hv Hfuel Hrfuel. unfold factorize.
  destruct (trial_division_ret fuel smallPrimes smallPrimes_ge_2 n []
              ltac:(lia) ltac:(constructor)) as (f & m & Htd).
  pose proof (trial_division_smallPrimes_safe fuel n Hn) as Hs.
  rewrite Htd in Hs. cbn [safe fst snd] in Hs. destruct Hs as (Hprod & Hc & Hm).
  unfold bind, lift. rewrite Htd. cbn [rbind].
  destruct (Z.eqb_spec m 1) as [->|Hm1].
  { left. eexists _, _. reflexivity. }
  assert (Hlogn : Z.log2 n <= Z.of_nat fuel).
  { pose proof (Z.log2_lt_lin n). lia. }
  destruct (stack_loop_total fuel rfuel depth rnd n Hv Hlogn Hrfuel fuel f [m]
              s) as [Hret|(Hto & t & Hcut)].
  - repeat constructor; lia.
  - rewrite stack_weight_cons. change (stack_weight []) with 0. lia.
  - left. exact Hret.
  - right. split; [exact Hto|]. exists f, m, t.
    split; [reflexivity|]. split; [exact Hcut|].
    destruct Hcut as (fs & rest & s1 & s2 & Hit & H1 & Hmr & Hrho).
    assert (Hinv0 : loop_invariant n f [m])
      by (unfold loop_invariant; cbn [stack_product fold_right]; lia).
    assert (Hw0 : well_formed f [m])
      by (split; [assumption | repeat constructor; lia]).
    destruct (iterates_invariant fuel rfuel depth rnd n _ _ Hit Hw0 Hinv0)
      as [[_ Hw] Hinv]. cbn [fst snd] in Hw, Hinv.
    apply Forall_cons_iff in Hw. destruct Hw as [Ht _].
    assert (Hdiv : (t | n)).
    { unfold loop_invariant in Hinv. rewrite <- Hinv.
      apply Z.divide_mul_r, stack_product_divides. left. reflexivity. }
    assert (Hle : t <= n) by (apply Z.divide_pos_le; [lia | assumption]).
    assert (Hnp : ~ Z.prime t).
    { apply (isPrimeMillerRabin_false fuel rnd t 5 s1 s2 Hv); [|exact Hmr].
      pose proof (Z.log2_le_mono t n). lia. }
    split; [lia | split; assumption].
Qed.

(** ** The message handler, end to end *)

Lemma onmessage_success_aux (fuel rfuel depth : nat) (rnd : source)
  (inputStr : jsstring) (s : nat) (original : jsstring) (factors : obj) :
  In (PostMessage (Success original factors))
     (onmessage fuel rfuel depth rnd inputStr s) ->
  original = inputStr /\
  exists n s',
    StringToBigInt inputStr = Some n /\ 1 <= n /\
    factorize fuel rfuel depth rnd n s = Ret (factors, s').
Proof.
  unfold onmessage.
  destruct (StringToBigInt inputStr) as [n|]; [|intros [H|[]]; discriminate H].
  assert (Hpos : forall f s',
            factorize fuel rfuel depth rnd n s = Ret (f, s') -> 1 <= n).
  { intros f s' H. destruct (Z.le_gt_cases 1 n) as [|Hneg]; [assumption|].
    exfalso.
    exact (factorize_nonpositive_aux fuel rfuel depth rnd n s f s' ltac:(lia) H). }
  intros Hin.
  enough (E : original = inputStr /\
              exists s', 1 <= n /\
                factorize fuel rfuel depth rnd n s = Ret (factors, s')).
  { destruct E as (E1 & s' & E2 & E3). split; [exact E1|].
    exists n, s'. split; [reflexivity | split; assumption]. }
  revert Hpos Hin. generalize (factorize fuel rfuel depth rnd n s).
  intros run Hpos [H|H]; [discriminate H|].
  destruct run as [[f s']|e|]; [|destruct H as [H|[]]; discriminate H
                                |destruct H].
  destruct H as [H|[]]. injection H as -> ->. split; [reflexivity|].
  exists s'. split; [|reflexivity]. exact (Hpos factors s' eq_refl).
Qed.

Lemma onmessage_failure_aux (fuel rfuel depth : nat) (rnd : source)
  (inputStr : jsstring) (s : nat) (n : Z) (err : error) :
  StringToBigInt inputStr = Some n -> 1 <= n ->
  In (PostMessage (Failure err)) (onmessage fuel rfuel depth rnd inputStr s) ->
  err = StackOverflow.
Proof.
  intros Hp Hn. unfold onmessage. rewrite Hp.
  pose proof (factorize_sound fuel rfuel depth rnd n s Hn) as Hs.
  revert Hs. generalize (factorize fuel rfuel depth rnd n s).
  intros [[f s']|e|] Hs; cbn [sound] in Hs;
    (intros [H|H]; [discriminate H|]).
  - destruct H as [H|[]]. discriminate H.
  - destruct H as [H|[]]. injection H as <-. exact Hs.
  - destruct H.
Qed.

(** ** Exponents after dividing out *)

Lemma get_iter_incr (p : Z) (o : obj) (k : nat) :
  0 <= or_zero (get o p) ->
  or_zero (get (Nat.iter k (fun o => incr o p) o) p)
    = or_zero (get o p) + Z.of_nat k /\
  forall q, q <> p -> get (Nat.iter k (fun o => incr o p) o) q = get o q.
Proof.
  intros H0. induction k as [|k [IH1 IH2]].
  - cbn [Nat.iter nat_rect]. split; [lia | reflexivity].
  - rewrite !Nat.iter_succ. split.
    + rewrite get_incr, Z.eqb_refl, IH1. cbn [or_zero].
      destruct (Z.eqb_spec (or_zero (get o p) + Z.of_nat k + 1) 0). all: lia.
    + intros q Hq. rewrite get_incr.
      destruct (Z.eqb_spec q p); [contradiction | apply IH2; assumption].
Qed.

Lemma or_zero_counts (o : obj) (p : Z) : counts o -> 0 <= or_zero (get o p).
Proof.
  unfold counts. induction 1 as [|[k v] o Hv _ IH]; cbn [get or_zero]; [lia|].
  cbn [snd] in Hv. destruct (k =? p); [|exact IH].
  cbn [or_zero]. destruct (v =? 0); lia.
Qed.

Lemma pair_eq {A B : Type} (a a' : A) (b b' : B) :
  (a, b) = (a', b') -> a = a' /\ b = b'.
Proof. intros H. injection H as -> ->. split; reflexivity. Qed.

(** ** A deeper call stack changes no result *)

Lemma rho_loop_without_retry (e : error) (retry : M Z) (n : Z) :
  forall fuel c x y s r,
    rho_loop (throw e) fuel n c x y s = Ret r ->
    rho_loop retry fuel n c x y s = Ret r.
Proof.
  induction fuel as [|fuel IH]; intros c x y s r; [discriminate|].
  cbn -[gcd]. unfold bind, lift.
  destruct (gcd (S fuel) _ n) as [g| |]; cbn [rbind]; try discriminate.
  destruct (g =? n); [discriminate|].
  destruct (g =? 1); [apply IH | trivial].
Qed.

Lemma pollardRho_depth (fuel : nat) (rnd : source) (n : Z) (s : nat)
  (r : Z * nat) :
  pollardRho fuel 0 rnd n s = Ret r ->
  forall depth, pollardRho fuel depth rnd n s = Ret r.
Proof.
  intros H depth. rewrite pollardRho_unfold in H |- *.
  destruct (Z.rem n 2 =? 0); [exact H|].
  unfold bind at 1 in H. unfold bind at 1.
  destruct (randBigInt rnd 2 (n - 1) s) as [[x s1]| |];
    [|discriminate H|discriminate H].
  unfold bind at 1 in H. unfold bind at 1.
  destruct (randBigInt rnd 1 (n - 1) s1) as [[c s2]| |];
    [|discriminate H|discriminate H].
  eapply rho_loop_without_retry. exact H.
Qed.

Lemma stack_step_depth (fuel rfuel : nat) (rnd : source) (factors : obj)
  (target : Z) (stack : list Z) (s : nat) (r : obj * list Z * nat) :
  stack_step fuel rfuel 0 rnd factors target stack s = Ret r ->
  forall depth,
    stack_step fuel rfuel depth rnd factors target stack s = Ret r.
Proof.
  intros H depth. unfold stack_step in H |- *.
  destruct (target =? 1); [exact H|].
  unfold bind at 1 in H. unfold bind at 1.
  destruct (isPrimeMillerRabin fuel rnd target 5 s) as [[[|] s1]| |];
    [exact H| |discriminate H|discriminate H].
  unfold bind at 1 in H. unfold bind at 1.
  destruct (pollardRho rfuel 0 rnd target s1) as [[g s2]| |] eqn:E;
    [|discriminate H|discriminate H].
  rewrite (pollardRho_depth rfuel rnd target s1 _ E depth). exact H.
Qed.

Lemma stack_loop_depth (fuel rfuel : nat) (rnd : source) :
  forall gas factors stack s r,
    stack_loop gas fuel rfuel 0 rnd factors stack s = Ret r ->
    forall depth,
      stack_loop gas fuel rfuel depth rnd factors stack s = Ret r.
Proof.
  induction gas as [|gas IH]; intros factors [|target stack] s r H depth;
    cbn [stack_loop] in H |- *; try exact H.
  unfold bind in H |- *.
  destruct (stack_step fuel rfuel 0 rnd factors target stack s)
    as [[[f1 stk1] s1]| |] eqn:E; [|discriminate H|discriminate H].
  rewrite (stack_step_depth fuel rfuel rnd factors target stack s _ E depth).
  apply IH. exact H.
Qed.

(** A result obtained with no room for a retry is obtained with any call
    stack. *)
Lemma factorize_depth (fuel rfuel : nat) (rnd : source) (n : Z) (s : nat)
  (r : obj * nat) :
  factorize fuel rfuel 0 rnd n s = Ret r ->
  forall depth, factorize fuel rfuel depth rnd n s = Ret r.
Proof.
  intros H depth. revert H. unfold factorize.
  generalize (trial_division fuel smallPrimes n []). intros td.
  unfold bind, lift. destruct td as [[f m]| |]; cbn [rbind]; trivial.
  destruct (m =? 1); [trivial|]. intros H. apply stack_loop_depth. exact H.
Qed.

(** ** What [factorize] can raise *)

Lemma divide_out_never_raises (p : Z) :
  p <> 0 ->
  forall (fuel : nat) n factors e, divide_out fuel p n factors <> Throw e.
Proof.
  intros Hp. induction fuel as [|fuel IH]; intros n factors e;
    cbn [divide_out]; rewrite js_rem_ret by assumption; cbn [rbind];
    destruct (Z.rem n p =? 0); try discriminate. apply IH.
Qed.

Lemma trial_division_never_raises (fuel : nat) (l : list Z) :
  Forall (fun p => 2 <= p) l ->
  forall n factors e, trial_division fuel l n factors <> Throw e.
Proof.
  induction 1 as [|p l Hp _ IH]; intros n factors e; cbn [trial_division];
    [discriminate|].
  destruct (n <? p * p); [discriminate|].
  pose proof (divide_out_never_raises p ltac:(lia) fuel n factors) as Hd.
  destruct (divide_out fuel p n factors) as [[f m]|e'|]; cbn [rbind fst snd];
    [apply IH | exfalso; exact (Hd e' eq_refl) | discriminate].
Qed.

Lemma stack_step_raises (fuel rfuel depth : nat) (rnd : source)
  (factors : obj) (target : Z) (stack : list Z) (s : nat) (e : error) :
  stack_step fuel rfuel depth rnd factors target stack s = Throw e ->
  e = RangeError \/ e = StackOverflow.
Proof.
  unfold stack_step. destruct (target =? 1); [discriminate|].
  unfold bind at 1.
  pose proof (isPrimeMillerRabin_safe fuel rnd target 5 s) as Hmr.
  destruct (isPrimeMillerRabin fuel rnd target 5 s) as [[[|] s1]| |];
    cbn [safe] in Hmr; [discriminate| |contradiction|discriminate].
  unfold bind at 1.
  destruct (pollardRho rfuel depth rnd target s1) as [[g s2]|e'|] eqn:E;
    [| |discriminate].
  - unfold bind, lift, js_div. destruct (g =? 0); cbn [rbind];
      [|discriminate]. intros H. injection H as <-. left. reflexivity.
  - intros H. injection H as <-.
    exact (proj2 (pollardRho_raises rfuel depth rnd target s1) e' E).
Qed.

Lemma stack_loop_raises (fuel rfuel depth : nat) (rnd : source) :
  forall gas factors stack s e,
    stack_loop gas fuel rfuel depth rnd factors stack s = Throw e ->
    e = RangeError \/ e = StackOverflow.
Proof.
  induction gas as [|gas IH]; intros factors [|target stack] s e;
    cbn [stack_loop]; try discriminate.
  unfold bind.
  destruct (stack_step fuel rfuel depth rnd factors target stack s)
    as [[[f1 stk1] s1]|e'|] eqn:E; [apply IH| |discriminate].
  intros H. injection H as <-. exact (stack_step_raises _ _ _ _ _ _ _ _ _ E).
Qed.

(** On every integer, what [factorize] raises is a division by zero or the
    exhaustion of the call stack. *)
Lemma factorize_raises (fuel rfuel depth : nat) (rnd : source) (n : Z)
  (s : nat) (e : error) :
  factorize fuel rfuel depth rnd n s = Throw e ->
  e = RangeError \/ e = StackOverflow.
Proof.
  unfold factorize.
  pose proof (trial_division_never_raises fuel smallPrimes smallPrimes_ge_2
                n []) as Htd.
  revert Htd. generalize (trial_division fuel smallPrimes n []). intros td Htd.
  unfold bind, lift. destruct td as [[f m]|e'|]; cbn [rbind];
    [|exfalso; exact (Htd e' eq_refl)|discriminate].
  destruct (m =? 1); [discriminate|]. apply stack_loop_raises.
Qed.

(** A parse error is posted exactly for the strings that [BigInt]
    rejects. *)
Lemma onmessage_syntax_error (fuel rfuel depth : nat) (rnd : source)
  (inputStr : jsstring) (s : nat) :
  In (PostMessage (Failure SyntaxError))
     (onmessage fuel rfuel depth rnd inputStr s) <->
  StringToBigInt inputStr = None.
Proof.
  unfold onmessage. destruct (StringToBigInt inputStr) as [n|].
  - pose proof (factorize_raises fuel rfuel depth rnd n s) as Hr.
    revert Hr. generalize (factorize fuel rfuel depth rnd n s).
    intros run Hr. split; [|intros H; discriminate H].
    intros [H|H]; [discriminate H|]. exfalso.
    destruct run as [[f s']|e|].
    + destruct H as [H|[]]. discriminate H.
    + destruct H as [H|[]]. injection H as ->.
      destruct (Hr SyntaxError eq_refl) as [E|E]; discriminate E.
    + destruct H.
  - split; [reflexivity|]. intros _. left. reflexivity.
Qed.

(** ** The model on small inputs *)

Example generatePrimes_30 :
  generatePrimes 100 30 = Ret [2; 3; 5; 7; 11; 13; 17; 19; 23; 29].
Proof. reflexivity. Qed.

Example generatePrimes_too_long : generatePrimes 100 100 = Throw RangeError.
Proof. reflexivity. Qed.

Example smallPrimes_ends :
  Z.of_nat (List.length smallPrimes) = 9592 /\ last smallPrimes 0 = 99991.
Proof.
  assert (H : (fun l => (Z.of_nat (List.length l), last l 0)) smallPrimes
              = (9592, 99991)) by (vm_compute; reflexivity).
  exact (pair_eq _ _ _ _ H).
Qed.

Example gcd_48_18 : gcd 5 48 18 = Ret 6.
Proof. reflexivity. Qed.

Example modPow_4_13_497 : modPow 4 4 13 497 = Ret 445.
Proof. reflexivity. Qed.

Example modPow_zero_modulus : modPow 4 4 13 0 = Throw RangeError.
Proof. reflexivity. Qed.

Example isPrime_561 : isPrimeMillerRabin 10 rnd0 561 5 0%nat = Ret (false, 1%nat).
Proof. reflexivity. Qed.

Example pollardRho_even : pollardRho 0 0 rnd0 10 0%nat = Ret (2, 0%nat).
Proof. reflexivity. Qed.

Example ownKeys_mixed :
  ownKeys [(4294967311, 1); (7, 2); (3, 1)] = [3; 7; 4294967311].
Proof. reflexivity. Qed.

Example StringToBigInt_samples :
  map (fun s => StringToBigInt (lit s))
    ["360"; " 12 "; "+7"; "-5"; "0x1F"; "0b101"; "0o17"; ""; "12a"; "1.5"; "0x"]%string
  = [Some 360; Some 12; Some 7; Some (-5); Some 31; Some 5; Some 15; Some 0;
     None; None; None].
Proof. reflexivity. Qed.

Lemma trial_division_360 :
  trial_division 10 smallPrimes 360 [] = Ret ([(2, 3); (3, 2)], 5).
Proof. destruct smallPrimes_prefix as [rest E]. rewrite E. reflexivity. Qed.

Lemma factorize_360 :
  factorize 10 0 0 rnd0 360 0%nat = Ret ([(2, 3); (3, 2); (5, 1)], 5%nat).
Proof.
  unfold factorize, bind, lift. rewrite trial_division_360. reflexivity.
Qed.

Lemma onmessage_360 :
  onmessage 10 0 0 rnd0 (lit "360") 0%nat
  = [Factorize 360;
     PostMessage (Success (lit "360") [(2, 3); (3, 2); (5, 1)])].
Proof.
  unfold onmessage. change (StringToBigInt (lit "360")) with (Some 360).
  cbv beta iota. rewrite factorize_360. reflexivity.
Qed.

Example factorize_minus_9 :
  factorize 10 10 0 rnd0 (-9) 0%nat = Throw RangeError.
Proof.
  unfold factorize, bind, lift.
  rewrite (trial_division_below_4 10 smallPrimes (-9) [] smallPrimes_ge_2)
    by lia.
  reflexivity.
Qed.

(** * The properties of the specification *)

Lemma onmessage_stuck (rfuel depth s : nat) :
  onmessage 40 (S rfuel) depth stuck_source (lit "10000600009") s
  = [Factorize stuck_n; PostMessage (Failure StackOverflow)].
Proof.
  unfold onmessage.
  change (StringToBigInt (lit "10000600009")) with (Some stuck_n).
  cbv beta iota. rewrite stuck_factorize. reflexivity.
Qed.

(** C1.  For every n >= 1 and every random source, a Factor Multiset
    returned by [factorize n] has the product of [key ^ exponent] over its
    entries equal to n. *)
Theorem factorize_product (fuel rfuel depth : nat) (rnd : source) (n : Z)
  (s : nat) (factors : obj) (s' : nat) :
  1 <= n ->
  factorize fuel rfuel depth rnd n s = Ret (factors, s') ->
  product factors = n.
Proof.
  intros Hn H. pose proof (factorize_sound fuel rfuel depth rnd n s Hn) as Hs.
  rewrite H in Hs. simpl in Hs. tauto.
Qed.

Lemma factorize_product_witness :
  1 <= 360 /\
  factorize 10 10 0 rnd0 360 0%nat = Ret ([(2, 3); (3, 2); (5, 1)], 5%nat) /\
  product [(2, 3); (3, 2); (5, 1)] = 360.
Proof.
  assert (H : factorize 10 10 0 rnd0 360 0%nat
              = Ret ([(2, 3); (3, 2); (5, 1)], 5%nat))
    by (unfold factorize, bind, lift; rewrite trial_division_360;
        reflexivity).
  split; [lia|]. split; [exact H|].
  apply (factorize_product 10 10 0 rnd0 360 0%nat _ 5%nat); [lia | exact H].
Defined.

(** C2, as stated, fails: on [stuck_n] with the source [stuck_source]
    [factorize] returns no Factor Multiset, whatever the fuel and however
    deep the call stack: every attempt of [pollardRho] is retried, and the
    nested retries exhaust the stack. *)
Theorem factorize_may_not_return :
  1 <= stuck_n /\ valid_source stuck_source /\
  (forall fuel rfuel depth s f s',
     factorize fuel rfuel depth stuck_source stuck_n s <> Ret (f, s')) /\
  (forall rfuel depth s,
     factorize 40 (S rfuel) depth stuck_source stuck_n s
     = Throw StackOverflow).
Proof.
  destruct stuck_facts as [H1 H2].
  split; [exact H1|]. split; [exact H2|]. split.
  - intros fuel rfuel depth s f s'. apply stuck_factorize_no_result.
  - intros rfuel depth s. apply stuck_factorize.
Qed.

(** C2, amended.  For n >= 1 and every random source [factorize n]
    terminates: given fuel for 2 n iterations of its own loops and of the
    primality test, and for 3 n iterations of each walk of [pollardRho], it
    returns a Factor Multiset, or it raises the error of an exhausted call
    stack.  It raises only when the work-stack loop has reached a [target]
    on top of its stack that divides n, is greater than 1, is not a prime
    and was rejected by the primality test, and the nested retries of
    [pollardRho] on that [target] exhaust the call stack. *)
Theorem factorize_returns_or_overflows (fuel rfuel depth : nat)
  (rnd : source) (n : Z) (s : nat) :
  1 <= n -> valid_source rnd ->
  2 * n <= Z.of_nat fuel -> 3 * n <= Z.of_nat rfuel ->
  (exists factors s',
     factorize fuel rfuel depth rnd n s = Ret (factors, s')) \/
  (factorize fuel rfuel depth rnd n s = Throw StackOverflow /\
   exists factors0 n0 target,
     trial_division fuel smallPrimes n [] = Ret (factors0, n0) /\
     overflow_in_rho fuel rfuel depth rnd (factors0, [n0], s) target /\
     1 < target /\ (target | n) /\ ~ Z.prime target).
Proof. apply factorize_total. Qed.

Lemma factorize_returns_or_overflows_witness :
  (exists factors s',
     factorize 720 1080 0 rnd0 360 0%nat = Ret (factors, s')) \/
  (factorize 720 1080 0 rnd0 360 0%nat = Throw StackOverflow /\
   exists factors0 n0 target,
     trial_division 720 smallPrimes 360 [] = Ret (factors0, n0) /\
     overflow_in_rho 720 1080 0 rnd0 (factors0, [n0], 0%nat) target /\
     1 < target /\ (target | 360) /\ ~ Z.prime target).
Proof.
  apply (factorize_returns_or_overflows 720 1080 0 rnd0 360 0%nat);
    [lia | exact rnd0_valid | vm_compute; discriminate
    | vm_compute; discriminate].
Defined.

(** C3, as stated, fails.  The string "-5" is not a non-negative decimal
    integer, yet it is parsed and [factorize] is entered on -5; "0x10" is
    not one either, and 16 is factorized with no error at all.  And
    "10000600009" is a non-negative decimal integer for which the handler
    posts an error: on the source [stuck_source] the retries of [pollardRho]
    exhaust the call stack, and the handler reports that as it reports a
    parse error. *)
Theorem onmessage_accepts_more_than_decimals :
  non_negative_decimal (lit "-5") = false /\
  (forall fuel rfuel depth rnd s,
     exists rest,
       onmessage fuel rfuel depth rnd (lit "-5") s = Factorize (-5) :: rest) /\
  non_negative_decimal (lit "0x10") = false /\
  (forall rfuel depth rnd s,
     onmessage 4 rfuel depth rnd (lit "0x10") s
     = [Factorize 16; PostMessage (Success (lit "0x10") [(2, 4)])]) /\
  non_negative_decimal (lit "10000600009") = true /\
  (forall rfuel depth s,
     onmessage 40 (S rfuel) depth stuck_source (lit "10000600009") s
     = [Factorize stuck_n; PostMessage (Failure StackOverflow)]).
Proof.
  split; [reflexivity|]. split; [|split; [reflexivity|split; [|split]]].
  - intros fuel rfuel depth rnd s. unfold onmessage.
    change (StringToBigInt (lit "-5")) with (Some (-5)).
    eexists. reflexivity.
  - intros rfuel depth rnd s. unfold onmessage.
    change (StringToBigInt (lit "0x10")) with (Some 16). cbv beta iota.
    assert (E : factorize 4 rfuel depth rnd 16 s = Ret ([(2, 4)], s)).
    { unfold factorize, bind, lift.
      destruct smallPrimes_prefix as [rest E]. rewrite E. reflexivity. }
    rewrite E. reflexivity.
  - reflexivity.
  - intros rfuel depth s. apply onmessage_stuck.
Qed.

(** C3, amended.  A string that [BigInt] rejects makes the handler post an
    error and nothing else: [factorize] is not entered.  Every string with a
    code unit that no literal contains (a decimal point, say) is rejected.
    A string of decimal digits is not rejected: it is parsed to its
    non-negative value n and [factorize n] is entered.  For n >= 1 whatever
    the handler posts after that is the success message, with the input
    string and a multiset of product n, or the report of an exhausted call
    stack; given fuel for 2 n iterations of the loops of [factorize] and
    3 n of each walk of [pollardRho], one of the two is posted; and for n <= PRIME_LIMIT^2 it is the success message,
    with the prime factorization. *)
Theorem onmessage_parsing (fuel rfuel depth : nat) (rnd : source)
  (inputStr : jsstring) (s : nat) :
  (forallb literal_unit inputStr = false -> StringToBigInt inputStr = None) /\
  (StringToBigInt inputStr = None ->
   onmessage fuel rfuel depth rnd inputStr s
   = [PostMessage (Failure SyntaxError)]) /\
  (non_negative_decimal inputStr = true ->
   exists n rest,
     0 <= n /\ StringToBigInt inputStr = Some n /\
     onmessage fuel rfuel depth rnd inputStr s = Factorize n :: rest /\
     (1 <= n ->
      forall ev, In ev rest ->
        exists m, ev = PostMessage m /\ report inputStr n m) /\
     (1 <= n -> valid_source rnd ->
      2 * n <= Z.of_nat fuel -> 3 * n <= Z.of_nat rfuel ->
      exists m, rest = [PostMessage m] /\ report inputStr n m) /\
     (1 <= n <= PRIME_LIMIT * PRIME_LIMIT -> valid_source rnd ->
      Z.log2 n < Z.of_nat fuel ->
      exists factors,
        rest = [PostMessage (Success inputStr factors)] /\
        product factors = n /\ prime_powers factors)).
Proof.
  split; [|split].
  - intros H. destruct (StringToBigInt inputStr) as [n|] eqn:E;
      [|reflexivity].
    rewrite (parsed_units inputStr n E) in H. discriminate H.
  - intros H. unfold onmessage. rewrite H. reflexivity.
  - intros H. destruct (decimal_parses inputStr H) as (n & Hn & Hp).
    exists n. unfold onmessage. rewrite Hp.
    assert (F1 : 1 <= n ->
                 sound (factorize fuel rfuel depth rnd n s)
                   (fun fs => product (fst fs) = n /\ counts (fst fs)))
      by apply factorize_sound.
    pose proof (factorize_below_crossover_aux fuel rfuel depth rnd n s) as F2.
    pose proof (factorize_total fuel rfuel depth rnd n s) as F3.
    revert F1 F2 F3. generalize (factorize fuel rfuel depth rnd n s).
    intros run F1 F2 F3.
    destruct run as [[f s']|e|].
    + exists [PostMessage (Success inputStr f)].
      assert (Hrep : 1 <= n -> report inputStr n (Success inputStr f)).
      { intros Hn1. destruct (F1 Hn1) as [Hprod _]. cbn [fst] in Hprod.
        left. exists f. split; [reflexivity | exact Hprod]. }
      split; [exact Hn|]. split; [reflexivity|]. split; [reflexivity|].
      split; [|split].
      * intros Hn1 ev [<-|[]]. eexists. split; [reflexivity | auto].
      * intros Hn1 _ _ _. eexists. split; [reflexivity | auto].
      * intros Hb Hv Hf. destruct (F2 Hb Hv Hf) as (f2 & s2 & E & P & Q).
        injection E as <- _. exists f.
        split; [reflexivity | split; assumption].
    + exists [PostMessage (Failure e)].
      assert (Hrep : 1 <= n -> report inputStr n (Failure e)).
      { intros Hn1. pose proof (F1 Hn1) as He. cbn [sound] in He. subst e.
        right. reflexivity. }
      split; [exact Hn|]. split; [reflexivity|]. split; [reflexivity|].
      split; [|split].
      * intros Hn1 ev [<-|[]]. eexists. split; [reflexivity | auto].
      * intros Hn1 _ _ _. eexists. split; [reflexivity | auto].
      * intros Hb Hv Hf. destruct (F2 Hb Hv Hf) as (f2 & s2 & E & _).
        discriminate E.
    + exists [].
      split; [exact Hn|]. split; [reflexivity|]. split; [reflexivity|].
      split; [|split].
      * intros _ ev [].
      * intros Hn1 Hv Hf Hr.
        destruct (F3 Hn1 Hv Hf Hr) as [(f2 & s2 & E)|[E _]]; discriminate E.
      * intros Hb Hv Hf. destruct (F2 Hb Hv Hf) as (f2 & s2 & E & _).
        discriminate E.
Qed.

Lemma onmessage_parsing_witness :
  StringToBigInt (lit "12.5") = None /\
  onmessage 10 0 0 rnd0 (lit "abc") 0%nat
  = [PostMessage (Failure SyntaxError)] /\
  exists n rest,
    0 <= n /\ StringToBigInt (lit "360") = Some n /\
    onmessage 10 0 0 rnd0 (lit "360") 0%nat = Factorize n :: rest /\
    (1 <= n ->
     forall ev, In ev rest ->
       exists m, ev = PostMessage m /\ report (lit "360") n m) /\
    (1 <= n -> valid_source rnd0 ->
     2 * n <= Z.of_nat 10 -> 3 * n <= Z.of_nat 0 ->
     exists m, rest = [PostMessage m] /\ report (lit "360") n m) /\
    (1 <= n <= PRIME_LIMIT * PRIME_LIMIT -> valid_source rnd0 ->
     Z.log2 n < Z.of_nat 10 ->
     exists factors,
       rest = [PostMessage (Success (lit "360") factors)] /\
       product factors = n /\ prime_powers factors).
Proof.
  split; [|split].
  - apply (proj1 (onmessage_parsing 0 0 0 rnd0 (lit "12.5") 0%nat)).
    reflexivity.
  - apply (proj1 (proj2 (onmessage_parsing 10 0 0 rnd0 (lit "abc") 0%nat))).
    reflexivity.
  - apply (proj2 (proj2 (onmessage_parsing 10 0 0 rnd0 (lit "360") 0%nat))).
    reflexivity.
Defined.

(** C4.  At exponent 0 and modulus 1, [modPow] returns 1, whereas
    [base ^ 0 mod 1] is 0: the accumulator starts at 1 and is only reduced
    inside the loop. *)
Theorem modPow_zero_exponent_unit_modulus (fuel : nat) :
  modPow fuel 5 0 1 = Ret 1 /\ 5 ^ 0 mod 1 = 0.
Proof. split; [apply modPow_exp_zero; lia | reflexivity]. Qed.

(** C5.  No false negatives: on a prime n the test returns true, for every
    number of rounds and every random source, once the fuel covers the
    length of n. *)
Theorem miller_rabin_no_false_negative (fuel : nat) (rnd : source) (n : Z)
  (k s : nat) :
  Z.prime n -> valid_source rnd -> Z.log2 n <= Z.of_nat fuel ->
  exists s', isPrimeMillerRabin fuel rnd n k s = Ret (true, s').
Proof. apply isPrimeMillerRabin_prime. Qed.

Lemma miller_rabin_no_false_negative_witness :
  exists s', isPrimeMillerRabin 4 rnd0 17 5%nat 0%nat = Ret (true, s').
Proof.
  apply (miller_rabin_no_false_negative 4 rnd0 17 5%nat 0%nat);
    [exact prime_17 | exact rnd0_valid | vm_compute; discriminate].
Defined.

(** C6.  A value g returned by [pollardRho n], n >= 2, is 2 when n is even
    and a nontrivial factor of n (g divides n, 1 < g < n) when n is odd,
    for every random source. *)
Theorem pollardRho_factor (fuel depth : nat) (rnd : source) (n : Z)
  (s : nat) (g : Z) (s' : nat) :
  2 <= n ->
  pollardRho fuel depth rnd n s = Ret (g, s') ->
  (Z.even n = true -> g = 2) /\
  (Z.odd n = true -> (g | n) /\ 1 < g < n).
Proof.
  intros Hn H.
  assert (Hrem : Z.rem n 2 = if Z.even n then 0 else 1).
  { rewrite Z.rem_mod_nonneg by lia. apply Zmod_even. }
  destruct (Z.eq_dec n 3) as [->|Hn3].
  { rewrite pollardRho_three in H. discriminate. }
  pose proof (pollardRho_sound fuel rnd n Hn Hn3 depth s) as Hs.
  rewrite H in Hs. destruct Hs as [He Ho]. simpl in He, Ho.
  rewrite <- Z.negb_even. destruct (Z.even n); split; intros E;
    try discriminate; [apply He | apply Ho]; lia.
Qed.

Lemma pollardRho_factor_witness :
  2 <= 15 /\
  pollardRho 10 0 rnd0 15 0%nat = Ret (3, 2%nat) /\
  (Z.even 15 = true -> 3 = 2) /\
  (Z.odd 15 = true -> (3 | 15) /\ 1 < 3 < 15).
Proof.
  assert (H : pollardRho 10 0 rnd0 15 0%nat = Ret (3, 2%nat))
    by (vm_compute; reflexivity).
  split; [lia|]. split; [exact H|].
  apply (pollardRho_factor 10 0 rnd0 15 0%nat 3 2%nat); [lia | exact H].
Defined.

(** C7.  For min < max, [randBigInt min max] returns a value v with
    min <= v < max whatever the source yields; when the range exceeds what
    the source can yield, v is min plus the value drawn, with no
    wrap-around. *)
Theorem randBigInt_in_range (rnd : source) (min max : Z) (s : nat) :
  valid_source rnd -> min < max ->
  exists v,
    randBigInt rnd min max s = Ret (v, S s) /\
    min <= v < max /\
    (MAX_SAFE_INTEGER < max - min -> v = min + rnd s).
Proof.
  intros Hv Hlt. exists (Z.rem (rnd s) (max - min) + min).
  split; [apply randBigInt_ret; lia|].
  split; [apply randBigInt_range; [assumption | apply Hv]|].
  intros Hbig. rewrite Z.rem_small; [lia|]. pose proof (Hv s). lia.
Qed.

Lemma randBigInt_in_range_witness :
  exists v,
    randBigInt rnd0 2 10 0%nat = Ret (v, 1%nat) /\
    2 <= v < 10 /\
    (MAX_SAFE_INTEGER < 10 - 2 -> v = 2 + rnd0 0%nat).
Proof.
  apply (randBigInt_in_range rnd0 2 10 0%nat); [exact rnd0_valid | lia].
Defined.

(** C8.  The decompositions of 1, 2, 17 and 360, for every random source
    (with fuel for four iterations of each loop). *)
Theorem factorize_examples (fuel rfuel depth : nat) (rnd : source) (s : nat) :
  valid_source rnd -> (4 <= fuel)%nat ->
  factorize fuel rfuel depth rnd 1 s = Ret ([], s) /\
  (exists s', factorize fuel rfuel depth rnd 2 s = Ret ([(2, 1)], s')) /\
  (exists s', factorize fuel rfuel depth rnd 17 s = Ret ([(17, 1)], s')) /\
  (exists s', factorize fuel rfuel depth rnd 360 s = Ret ([(2, 3); (3, 2); (5, 1)], s')).
Proof.
  intros Hv Hfuel.
  do 4 (destruct fuel as [|fuel]; [lia|]).
  set (fuel4 := S (S (S (S fuel)))).
  destruct smallPrimes_prefix as [primes E].
  assert (Hlog : 4 <= Z.of_nat fuel4) by (unfold fuel4; lia).
  assert (T1 : trial_division fuel4 smallPrimes 1 [] = Ret ([], 1))
    by (rewrite E; reflexivity).
  assert (T2 : trial_division fuel4 smallPrimes 2 [] = Ret ([], 2))
    by (rewrite E; reflexivity).
  assert (T17 : trial_division fuel4 smallPrimes 17 [] = Ret ([], 17))
    by (rewrite E; reflexivity).
  assert (T360 : trial_division fuel4 smallPrimes 360 []
                 = Ret ([(2, 3); (3, 2)], 5))
    by (rewrite E; reflexivity).
  split; [|split; [|split]].
  - unfold factorize, bind, lift. rewrite T1. reflexivity.
  - apply (factorize_prime_remainder fuel4 rfuel depth rnd 2 s [] 2 T2 Z.prime_2 Hv);
      [change (Z.log2 2) with 1 | unfold fuel4]; lia.
  - apply (factorize_prime_remainder fuel4 rfuel depth rnd 17 s [] 17 T17 prime_17 Hv);
      [change (Z.log2 17) with 4 | unfold fuel4]; lia.
  - apply (factorize_prime_remainder fuel4 rfuel depth rnd 360 s _ 5 T360 prime_5 Hv);
      [change (Z.log2 5) with 2 | unfold fuel4]; lia.
Qed.

Lemma factorize_examples_witness :
  factorize 4 0 0 rnd0 1 0%nat = Ret ([], 0%nat) /\
  (exists s', factorize 4 0 0 rnd0 2 0%nat = Ret ([(2, 1)], s')) /\
  (exists s', factorize 4 0 0 rnd0 17 0%nat = Ret ([(17, 1)], s')) /\
  (exists s', factorize 4 0 0 rnd0 360 0%nat
              = Ret ([(2, 3); (3, 2); (5, 1)], s')).
Proof.
  apply (factorize_examples 4 0 0 rnd0 0%nat); [exact rnd0_valid | lia].
Defined.

(** C9.  On the product of two primes above [2^32] the walk of this source
    finds the smaller one at the first attempt (whatever the call stack
    admits), the larger one is recorded first, and the keys of the returned
    object are enumerated in that order: not ascending. *)
Theorem large_keys_not_ascending :
  valid_source large_source /\
  exists factors s',
    (forall depth,
       factorize 100 100 depth large_source (large_p * large_q) 0%nat
       = Ret (factors, s')) /\
    ownKeys factors = [large_q; large_p] /\
    ascending (ownKeys factors) = false.
Proof.
  split.
  - intros [|[|[|i]]]; vm_compute; split; discriminate.
  - exists [(large_q, 1); (large_p, 1)], 13%nat.
    split; [|split; vm_compute; reflexivity].
    apply factorize_depth. vm_compute. reflexivity.
Qed.

(** C10.  The invariant of the work-stack loop.  For n >= 1, in the state
    the loop starts from and in every state it reaches, the product of
    [key ^ exponent] over the factors recorded so far times the product of
    the stack is n, and the step taken from that state (discarding 1,
    recording a prime, or splitting a composite) preserves this. *)
Theorem work_stack_invariant (fuel rfuel depth : nat) (rnd : source) (n : Z)
  (s : nat) (factors0 : obj) (n0 : Z) :
  1 <= n ->
  trial_division fuel smallPrimes n [] = Ret (factors0, n0) ->
  loop_invariant n factors0 [n0] /\
  forall factors stack s',
    iterates fuel rfuel depth rnd (factors0, [n0], s) (factors, stack, s') ->
    loop_invariant n factors stack /\
    forall target rest factors' stack' s'',
      stack = target :: rest ->
      stack_step fuel rfuel depth rnd factors target rest s'
        = Ret ((factors', stack'), s'') ->
      loop_invariant n factors' stack'.
Proof.
  intros Hn Htd.
  pose proof (trial_division_smallPrimes_safe fuel n Hn) as Hs.
  rewrite Htd in Hs. cbn [safe fst snd] in Hs.
  destruct Hs as (H1 & H2 & H3).
  assert (Hinv0 : loop_invariant n factors0 [n0])
    by (unfold loop_invariant; simpl; lia).
  assert (Hw0 : well_formed factors0 [n0])
    by (split; [assumption | repeat constructor; lia]).
  split; [exact Hinv0|].
  intros factors stack s' Hit.
  destruct (iterates_invariant fuel rfuel depth rnd n _ _ Hit Hw0 Hinv0)
    as [Hw Hinv]. simpl in Hw, Hinv.
  split; [exact Hinv|].
  intros target rest factors' stack' s'' -> Hstep.
  pose proof (stack_step_sound fuel rfuel depth rnd n factors target rest s' Hw Hinv)
    as Hsafe.
  rewrite Hstep in Hsafe. simpl in Hsafe. tauto.
Qed.

Lemma work_stack_invariant_witness :
  1 <= 360 /\
  trial_division 10 smallPrimes 360 [] = Ret ([(2, 3); (3, 2)], 5) /\
  loop_invariant 360 [(2, 3); (3, 2)] [5] /\
  forall factors stack s',
    iterates 10 10 0 rnd0 ([(2, 3); (3, 2)], [5], 0%nat) (factors, stack, s') ->
    loop_invariant 360 factors stack /\
    forall target rest factors' stack' s'',
      stack = target :: rest ->
      stack_step 10 10 0 rnd0 factors target rest s'
        = Ret ((factors', stack'), s'') ->
      loop_invariant 360 factors' stack'.
Proof.
  assert (H : trial_division 10 smallPrimes 360 [] = Ret ([(2, 3); (3, 2)], 5))
    by exact trial_division_360.
  split; [lia|]. split; [exact H|].
  apply (work_stack_invariant 10 10 0 rnd0 360 0%nat _ 5); [lia | exact H].
Defined.

(** * Further properties of the code *)



(** X2.  The table the worker builds when it starts, [smallPrimes], is the
    strictly ascending list of exactly the primes up to [PRIME_LIMIT]. *)
Theorem smallPrimes_primes :
  StronglySorted Z.lt smallPrimes /\
  forall x, In x smallPrimes <-> Z.prime x /\ x <= PRIME_LIMIT.
Proof.
  destruct smallPrimes_run as [Hs Hin]. split; [exact Hs|].
  intros x. rewrite Hin. split.
  - intros [Hp Hx]. split; [assumption | lia].
  - intros [Hp Hx]. pose proof (Z.prime_ge_2 x Hp). split; [assumption | lia].
Qed.

(** X3.  On non-negative arguments [gcd a b] returns the greatest common
    divisor, within [2 * log2 b + 2] iterations of its loop. *)
Theorem gcd_computes (fuel : nat) (a b : Z) :
  0 <= a -> 0 <= b -> 2 * Z.log2 b + 2 <= Z.of_nat fuel ->
  gcd fuel a b = Ret (Z.gcd a b).
Proof. apply gcd_total. Qed.

Lemma gcd_computes_witness : gcd 12 48 18 = Ret (Z.gcd 48 18).
Proof.
  apply (gcd_computes 12 48 18); [lia | lia | vm_compute; discriminate].
Defined.

(** X4.  On a first argument that is not positive and a positive second
    one, [gcd] makes one iteration and returns the second argument, whether
    or not it divides the first: the remainder of a negative dividend is
    not positive, which ends the loop. *)
Theorem gcd_nonpositive_first (fuel : nat) (a b : Z) :
  a <= 0 -> 0 < b -> gcd (S fuel) a b = Ret b.
Proof. apply gcd_nonpositive_l. Qed.

Lemma gcd_nonpositive_first_witness : gcd 1 (-4) 6 = Ret 6.
Proof. apply (gcd_nonpositive_first 0 (-4) 6); lia. Defined.

(** X5.  For a base and an exponent that are not negative and a modulus
    from 2 on, [modPow] returns [base ^ exp mod modulus], a value in
    [0, modulus), within [log2 exp + 1] iterations. *)
Theorem modPow_computes (fuel : nat) (base exp m : Z) :
  0 <= base -> 0 <= exp -> 2 <= m -> Z.log2 exp < Z.of_nat fuel ->
  modPow fuel base exp m = Ret (base ^ exp mod m) /\
  0 <= base ^ exp mod m < m.
Proof.
  intros Hb He Hm Hf. split; [apply modPow_from_modulus_2; assumption|].
  apply Z.mod_pos_bound. lia.
Qed.

Lemma modPow_computes_witness :
  modPow 4 4 13 497 = Ret (4 ^ 13 mod 497) /\ 0 <= 4 ^ 13 mod 497 < 497.
Proof.
  apply (modPow_computes 4 4 13 497); [lia | lia | lia | vm_compute; reflexivity].
Defined.

(** X6.  [modPow] raises exactly when the modulus is 0, whatever the base
    and the exponent: the reduction [base %= mod] comes before the loop. *)
Theorem modPow_raises_iff_zero_modulus (fuel : nat) (base exp m : Z) :
  (exists e, modPow fuel base exp m = Throw e) <-> m = 0.
Proof. apply modPow_raises. Qed.

(** X7.  On an exponent that is not positive the loop of [modPow] is not
    entered: the result is 1 for every base and every modulus but 0, with
    no fuel at all. *)
Theorem modPow_nonpositive_exponent (fuel : nat) (base exp m : Z) :
  exp <= 0 -> m <> 0 -> modPow fuel base exp m = Ret 1.
Proof. apply modPow_nonpositive_exp. Qed.

Lemma modPow_nonpositive_exponent_witness : modPow 0 7 (-3) 5 = Ret 1.
Proof. apply (modPow_nonpositive_exponent 0 7 (-3) 5); lia. Defined.

(** X9.  On an inverted range, max < min, [randBigInt] does not raise and
    its value lies in [min, 2 * min - max): at or above min, not between
    max and min. *)
Theorem randBigInt_inverted_range (rnd : source) (min max : Z) (s : nat) :
  valid_source rnd -> max < min ->
  exists v,
    randBigInt rnd min max s = Ret (v, S s) /\ min <= v < 2 * min - max.
Proof.
  intros Hv Hlt. exists (Z.rem (rnd s) (max - min) + min).
  split; [apply randBigInt_ret; lia|].
  apply randBigInt_inverted; [assumption | apply Hv].
Qed.

Lemma randBigInt_inverted_range_witness :
  exists v,
    randBigInt rnd0 10 5 0%nat = Ret (v, 1%nat) /\ 10 <= v < 2 * 10 - 5.
Proof.
  apply (randBigInt_inverted_range rnd0 10 5 0%nat); [exact rnd0_valid | lia].
Defined.

(** X10.  The verdict [false] of the primality test is never wrong: the
    number is not a prime, for every number of rounds and every random
    source. *)
Theorem isPrimeMillerRabin_false_not_prime (fuel : nat) (rnd : source)
  (n : Z) (k s : nat) (s' : nat) :
  valid_source rnd -> Z.log2 n <= Z.of_nat fuel ->
  isPrimeMillerRabin fuel rnd n k s = Ret (false, s') -> ~ Z.prime n.
Proof. apply isPrimeMillerRabin_false. Qed.

Lemma isPrimeMillerRabin_false_not_prime_witness : ~ Z.prime 561.
Proof.
  apply (isPrimeMillerRabin_false_not_prime 10 rnd0 561 5%nat 0%nat 1%nat);
    [exact rnd0_valid | vm_compute; discriminate | vm_compute; reflexivity].
Defined.

(** X11.  With k = 0 rounds the test only looks at the parity: from 2 on it
    answers [true] exactly on 2 and on the odd numbers, and consumes no
    random value. *)
Theorem isPrimeMillerRabin_zero_rounds (fuel : nat) (rnd : source) (n : Z)
  (s : nat) :
  2 <= n -> Z.log2 n <= Z.of_nat fuel ->
  isPrimeMillerRabin fuel rnd n 0 s = Ret (Z.odd n || (n =? 2), s).
Proof. apply isPrimeMillerRabin_no_round. Qed.

Lemma isPrimeMillerRabin_zero_rounds_witness :
  isPrimeMillerRabin 4 rnd0 9 0 0%nat = Ret (Z.odd 9 || (9 =? 2), 0%nat).
Proof.
  apply (isPrimeMillerRabin_zero_rounds 4 rnd0 9 0%nat);
    [lia | vm_compute; discriminate].
Defined.

(** X12.  The primality test consumes at most k random values, one per
    round, and none at all on a number below 5 or an even number. *)
Theorem isPrimeMillerRabin_draws (fuel : nat) (rnd : source) (n : Z)
  (k s : nat) (b : bool) (s' : nat) :
  isPrimeMillerRabin fuel rnd n k s = Ret (b, s') ->
  (s <= s' <= s + k)%nat /\
  (n < 5 \/ Z.rem n 2 = 0 -> s' = s).
Proof. apply isPrimeMillerRabin_draws_aux. Qed.

Lemma isPrimeMillerRabin_draws_witness :
  (0 <= 1 <= 0 + 5)%nat /\ (561 < 5 \/ Z.rem 561 2 = 0 -> 1%nat = 0%nat).
Proof.
  apply (isPrimeMillerRabin_draws 10 rnd0 561 5%nat 0%nat false 1%nat).
  vm_compute. reflexivity.
Defined.

(** X13.  On a prime n >= 5 [pollardRho] never returns a value, whatever
    the fuel, the call stack and the random source: every walk ends on
    d = n, every retry starts another one, and with fuel for [3 n]
    iterations of a walk the run ends by exhausting the call stack. *)
Theorem pollardRho_prime_exhausts_stack (rnd : source) (n : Z) :
  Z.prime n -> 5 <= n ->
  (forall fuel depth s g s', pollardRho fuel depth rnd n s <> Ret (g, s')) /\
  (valid_source rnd ->
   forall fuel depth s,
     3 * n <= Z.of_nat fuel ->
     pollardRho fuel depth rnd n s = Throw StackOverflow).
Proof.
  intros Hp Hn. split.
  - intros fuel depth s g s' E.
    pose proof (pollardRho_sound fuel rnd n ltac:(lia) ltac:(lia) depth s)
      as Hs.
    rewrite E in Hs. cbn [sound fst] in Hs. destruct Hs as [Heven Hodd].
    destruct (Z.eq_dec (Z.rem n 2) 0) as [He|Ho].
    + destruct Hp as [_ Hp]. apply (Hp 2); [lia|].
      exists (Z.quot n 2). pose proof (Z.quot_rem' n 2). lia.
    + destruct (Hodd Ho) as [Hdiv Hlt]. destruct Hp as [_ Hp].
      apply (Hp g); [lia | assumption].
  - intros Hv fuel depth s Hfuel. apply pollardRho_prime; assumption.
Qed.

Lemma pollardRho_prime_exhausts_stack_witness :
  (forall fuel depth s g s', pollardRho fuel depth rnd0 17 s <> Ret (g, s')) /\
  (valid_source rnd0 ->
   forall fuel depth s,
     3 * 17 <= Z.of_nat fuel ->
     pollardRho fuel depth rnd0 17 s = Throw StackOverflow).
Proof.
  apply (pollardRho_prime_exhausts_stack rnd0 17); [exact prime_17 | lia].
Defined.

(** X14.  What [pollardRho n] can raise, on any integer, positive or not:
    the RangeError of a division by zero exactly when n = 3, and apart
    from that only the exhaustion of the call stack by its retries. *)
Theorem pollardRho_raises_iff_three (fuel depth : nat) (rnd : source)
  (n : Z) (s : nat) :
  (pollardRho fuel depth rnd n s = Throw RangeError <-> n = 3) /\
  (forall e,
     pollardRho fuel depth rnd n s = Throw e ->
     (e = RangeError /\ n = 3) \/ (e = StackOverflow /\ n <> 3)).
Proof.
  destruct (pollardRho_raises fuel depth rnd n s) as [Hiff Hall].
  split; [exact Hiff|]. intros e He.
  destruct (Hall e He) as [-> | ->].
  - left. split; [reflexivity | apply Hiff; exact He].
  - right. split; [reflexivity|]. intros ->.
    rewrite pollardRho_three in He. discriminate He.
Qed.

(** X15.  [factors[p] = (factors[p] || 0) + 1]: afterwards the property [p]
    holds its old value, or 0, plus 1; every other property is unchanged;
    a new key is appended after the existing ones, an existing key keeps
    its place. *)
Theorem incr_get_and_keys (o : obj) (p : Z) :
  get (incr o p) p = Some (or_zero (get o p) + 1) /\
  (forall k, k <> p -> get (incr o p) k = get o k) /\
  map fst (incr o p)
  = match get o p with
    | Some _ => map fst o
    | None => map fst o ++ [p]
    end.
Proof.
  split; [|split].
  - rewrite get_incr, Z.eqb_refl. reflexivity.
  - intros k Hk. rewrite get_incr.
    destruct (Z.eqb_spec k p); [contradiction | reflexivity].
  - apply keys_set.
Qed.

(** X16.  The inner loop of trial division, for p >= 2 and n >= 1: it
    removes p from n exactly as often as p divides n, leaves a remainder
    that p does not divide, adds that multiplicity to the exponent of p and
    touches no other property. *)
Theorem divide_out_multiplicity (fuel : nat) (p n : Z) (factors f : obj)
  (m : Z) :
  2 <= p -> 1 <= n -> counts factors ->
  divide_out fuel p n factors = Ret (f, m) ->
  exists k : nat,
    n = p ^ Z.of_nat k * m /\ ~ (p | m) /\ 1 <= m /\
    or_zero (get f p) = or_zero (get factors p) + Z.of_nat k /\
    forall q, q <> p -> get f q = get factors q.
Proof.
  intros Hp Hn Hc H.
  destruct (divide_out_spec p Hp fuel n factors f m Hn H)
    as (k & E & Hnd & Hm & ->).
  exists k.
  destruct (get_iter_incr p factors k (or_zero_counts factors p Hc))
    as [G1 G2].
  split; [exact E|]. split; [exact Hnd|]. split; [exact Hm|].
  split; [exact G1 | exact G2].
Qed.

Lemma divide_out_multiplicity_witness :
  exists k : nat,
    360 = 2 ^ Z.of_nat k * 45 /\ ~ (2 | 45) /\ 1 <= 45 /\
    or_zero (get [(2, 3)] 2) = or_zero (get [] 2) + Z.of_nat k /\
    forall q, q <> 2 -> get [(2, 3)] q = get [] q.
Proof.
  apply (divide_out_multiplicity 10 2 360 [] [(2, 3)] 45);
    [lia | lia | constructor | vm_compute; reflexivity].
Defined.

(** X17.  Trial division by the table, for n >= 1: the recorded entries
    are powers of primes whose product times the remainder is n, and the
    remainder is 1, or a prime, or has no prime factor up to
    [PRIME_LIMIT]. *)
Theorem trial_division_table (fuel : nat) (n : Z) (f : obj) (m : Z) :
  1 <= n ->
  trial_division fuel smallPrimes n [] = Ret (f, m) ->
  product f * m = n /\ prime_powers f /\ 1 <= m /\
  (m = 1 \/ Z.prime m \/
   forall q, Z.prime q -> (q | m) -> PRIME_LIMIT < q).
Proof.
  intros Hn H.
  pose proof (trial_division_smallPrimes_safe fuel n Hn) as Hs.
  rewrite H in Hs. cbn [safe fst snd] in Hs. destruct Hs as (Hprod & _ & Hm).
  pose proof (trial_division_primes fuel n f m H) as Hpp.
  assert (Hrem : 1 <= m /\ (m | n) /\
                 (m = 1 \/ Z.prime m \/
                  forall q, Z.prime q -> (q | m) -> PRIME_LIMIT < q)).
  { revert H. generalize smallPrimes_run. generalize smallPrimes.
    intros l Hrun H.
    apply (trial_division_remainder fuel PRIME_LIMIT l 2 n [] f m Hrun);
      [lia | assumption | | assumption].
    intros q Hq Hlt. pose proof (Z.prime_ge_2 q Hq). lia. }
  split; [exact Hprod|]. split; [exact Hpp|]. split; [lia|]. tauto.
Qed.

Lemma trial_division_table_witness :
  product [(2, 3); (3, 2)] * 5 = 360 /\ prime_powers [(2, 3); (3, 2)] /\
  1 <= 5 /\
  (5 = 1 \/ Z.prime 5 \/
   forall q, Z.prime q -> (q | 5) -> PRIME_LIMIT < q).
Proof.
  apply (trial_division_table 10 360 [(2, 3); (3, 2)] 5);
    [lia | exact trial_division_360].
Defined.

(** X18.  Below the square of [PRIME_LIMIT] the factorization is exact and
    does not depend on chance: for 1 <= n <= PRIME_LIMIT^2 [factorize n]
    returns, whatever the random source and even with no fuel for
    [pollardRho], and the entries are powers of primes with product n. *)
Theorem factorize_below_crossover (fuel rfuel depth : nat) (rnd : source) (n : Z)
  (s : nat) :
  1 <= n <= PRIME_LIMIT * PRIME_LIMIT -> valid_source rnd ->
  Z.log2 n < Z.of_nat fuel ->
  exists factors s',
    factorize fuel rfuel depth rnd n s = Ret (factors, s') /\
    product factors = n /\ prime_powers factors.
Proof. apply factorize_below_crossover_aux. Qed.

Lemma factorize_below_crossover_witness :
  exists factors s',
    factorize 10 0 0 rnd0 360 0%nat = Ret (factors, s') /\
    product factors = 360 /\ prime_powers factors.
Proof.
  apply (factorize_below_crossover 10 0 0 rnd0 360 0%nat);
    [vm_compute; split; discriminate | exact rnd0_valid
    | vm_compute; reflexivity].
Defined.

(** X19.  The Factor Multiset returned for n >= 1 is well formed, whatever
    the random source: no key occurs twice, every key is a divisor of n
    between 2 and n, and every exponent is at least 1. *)
Theorem factorize_well_formed (fuel rfuel depth : nat) (rnd : source) (n : Z)
  (s : nat) (f : obj) (s' : nat) :
  1 <= n -> factorize fuel rfuel depth rnd n s = Ret (f, s') ->
  NoDup (map fst f) /\
  Forall (fun kv => 2 <= fst kv <= n /\ (fst kv | n) /\ 1 <= snd kv) f.
Proof. apply factorize_entries. Qed.

Lemma factorize_well_formed_witness :
  NoDup (map fst [(2, 3); (3, 2); (5, 1)]) /\
  Forall (fun kv => 2 <= fst kv <= 360 /\ (fst kv | 360) /\ 1 <= snd kv)
    [(2, 3); (3, 2); (5, 1)].
Proof.
  apply (factorize_well_formed 10 0 0 rnd0 360 0%nat _ 5%nat);
    [lia | exact factorize_360].
Defined.

(** X20.  For 1 <= n < 2^32 - 1 the keys of the returned object are
    enumerated in strictly ascending order, each once: every key is then
    an array index, whatever the order in which the factors were found. *)
Theorem factorize_keys_ascending (fuel rfuel depth : nat) (rnd : source) (n : Z)
  (s : nat) (f : obj) (s' : nat) :
  1 <= n < 2 ^ 32 - 1 -> factorize fuel rfuel depth rnd n s = Ret (f, s') ->
  StronglySorted Z.lt (ownKeys f) /\ Permutation (ownKeys f) (map fst f).
Proof. apply factorize_keys_ascending_aux. Qed.

Lemma factorize_keys_ascending_witness :
  StronglySorted Z.lt (ownKeys [(2, 3); (3, 2); (5, 1)]) /\
  Permutation (ownKeys [(2, 3); (3, 2); (5, 1)])
    (map fst [(2, 3); (3, 2); (5, 1)]).
Proof.
  apply (factorize_keys_ascending 10 0 0 rnd0 360 0%nat _ 5%nat);
    [vm_compute; split; [discriminate | reflexivity] | exact factorize_360].
Defined.

(** X22.  On n <= 0 [factorize] never returns a Factor Multiset: the top of
    the work stack stays non-positive, so the stack is never empty; the run
    does not end, or it raises (as on -9 with a source of zeros, where a
    factor 0 is returned and the division by it raises). *)
Theorem factorize_nonpositive (fuel rfuel depth : nat) (rnd : source) (n : Z)
  (s : nat) (f : obj) (s' : nat) :
  n <= 0 -> factorize fuel rfuel depth rnd n s <> Ret (f, s').
Proof. apply factorize_nonpositive_aux. Qed.

Lemma factorize_nonpositive_witness :
  factorize 10 10 0 rnd0 (-9) 0%nat <> Ret ([], 0%nat).
Proof. apply (factorize_nonpositive 10 10 0 rnd0 (-9) 0%nat [] 0%nat). lia. Defined.

(** X23.  A success message is sound: if the handler posts one, it carries
    the input string unchanged, the string was parsed to an integer
    n >= 1, and the factors posted are a well-formed multiset with
    product n. *)
Theorem onmessage_success (fuel rfuel depth : nat) (rnd : source)
  (inputStr : jsstring) (s : nat) (original : jsstring) (factors : obj) :
  In (PostMessage (Success original factors))
     (onmessage fuel rfuel depth rnd inputStr s) ->
  original = inputStr /\
  exists n,
    StringToBigInt inputStr = Some n /\ 1 <= n /\ product factors = n /\
    NoDup (map fst factors) /\
    Forall (fun kv => 2 <= fst kv <= n /\ (fst kv | n) /\ 1 <= snd kv)
      factors.
Proof.
  intros H.
  destruct (onmessage_success_aux fuel rfuel depth rnd inputStr s original factors H)
    as (E & n & s' & Hp & Hn & Hrun).
  split; [exact E|]. exists n.
  pose proof (factorize_sound fuel rfuel depth rnd n s Hn) as Hs.
  rewrite Hrun in Hs. cbn [sound fst] in Hs. destruct Hs as [Hprod _].
  destruct (factorize_entries fuel rfuel depth rnd n s factors s' Hn Hrun)
    as [Hnd Hall].
  split; [exact Hp|]. split; [exact Hn|]. split; [exact Hprod|].
  split; [exact Hnd | exact Hall].
Qed.

Lemma onmessage_success_witness :
  lit "360" = lit "360" /\
  exists n,
    StringToBigInt (lit "360") = Some n /\ 1 <= n /\
    product [(2, 3); (3, 2); (5, 1)] = n /\
    NoDup (map fst [(2, 3); (3, 2); (5, 1)]) /\
    Forall (fun kv => 2 <= fst kv <= n /\ (fst kv | n) /\ 1 <= snd kv)
      [(2, 3); (3, 2); (5, 1)].
Proof.
  apply (onmessage_success 10 0 0 rnd0 (lit "360") 0%nat).
  rewrite onmessage_360. right. left. reflexivity.
Defined.

(** X24.  For an input that is parsed to an integer n >= 1 the only error
    the handler can post is the exhaustion of the call stack by the retries
    of [pollardRho]: nothing else in [factorize] raises on such an n. *)
Theorem onmessage_only_stack_error (fuel rfuel depth : nat) (rnd : source)
  (inputStr : jsstring) (s : nat) (n : Z) (err : error) :
  StringToBigInt inputStr = Some n -> 1 <= n ->
  In (PostMessage (Failure err)) (onmessage fuel rfuel depth rnd inputStr s) ->
  err = StackOverflow.
Proof. apply onmessage_failure_aux. Qed.

Lemma onmessage_only_stack_error_witness :
  StringToBigInt (lit "10000600009") = Some stuck_n /\ 1 <= stuck_n /\
  In (PostMessage (Failure StackOverflow))
     (onmessage 40 1 0 stuck_source (lit "10000600009") 0%nat) /\
  StackOverflow = StackOverflow.
Proof.
  assert (H : In (PostMessage (Failure StackOverflow))
                 (onmessage 40 1 0 stuck_source (lit "10000600009") 0%nat))
    by (rewrite onmessage_stuck; right; left; reflexivity).
  split; [reflexivity|]. split; [exact (proj1 stuck_facts)|].
  split; [exact H|].
  apply (onmessage_only_stack_error 40 1 0 stuck_source
           (lit "10000600009") 0%nat stuck_n StackOverflow);
    [reflexivity | exact (proj1 stuck_facts) | exact H].
Defined.

(** X25.  Above the square of [PRIME_LIMIT] a key of the result need not
    be a prime.  30178264033 = 100297 * 300889 has no factor in the table
    and is a strong pseudoprime to base 2; on a source that always yields 0
    every round of the test draws the witness 2, the test answers [true]
    and [factorize] returns the number as its own single factor. *)
Theorem factorize_composite_key :
  exists (rnd : source) (n : Z) (factors : obj) (s' : nat),
    valid_source rnd /\ PRIME_LIMIT * PRIME_LIMIT < n /\
    (forall depth, factorize 40 0 depth rnd n 0%nat = Ret (factors, s')) /\
    exists k e, In (k, e) factors /\ ~ Z.prime k.
Proof.
  exists rnd0, (100297 * 300889), [(100297 * 300889, 1)], 5%nat.
  split; [exact rnd0_valid|]. split; [vm_compute; reflexivity|]. split.
  - apply factorize_depth. unfold factorize, bind, lift.
    rewrite (trial_division_large_primes 40 100297 300889 []
               prime_100297 prime_300889)
      by (unfold PRIME_LIMIT; lia).
    vm_compute. reflexivity.
  - exists (100297 * 300889), 1. split; [left; reflexivity|].
    intros [_ Hp]. apply (Hp 100297); [lia|]. exists 300889. lia.
Qed.
